(** * infinite_craft_map: the exploration engine, the export utility
      and the web front end

    A shallow embedding of [collectData.go] (the crawler that draws pairs
    of known items, asks the combine endpoint what they produce and records
    the answer in SQLite), of [json.go] (the snapshot exporter) and of the
    queries and handlers of [main.go] (the search site), with their
    properties stated over it.

    Conventions.
    - Go's [int], [int64] and [time.Duration] are [Z] with the 64-bit
      two's-complement wrap-around written out ([wrap64]).
    - A Go [error] is [option error]; [None] is [nil].
    - The process state (the SQLite file, the package-level cache, the
      log, the clock, the network) is threaded explicitly through a small
      state-and-exit monad [M].  What the program cannot decide itself
      (random draws, map iteration order, HTTP answers, I/O failures of the
      store, rows that cannot be read, the result of [os.Stat]) is read
      from an environment that the development quantifies over.
    - Recursion and [for] loops whose exit depends on the environment take
      a fuel argument; [OutOfFuel] stands for a run that has not finished
      within it. *)

From Stdlib Require Import ZArith Ascii String.
From stdpp Require Import base option list gmap strings.

Local Open Scope string_scope.
Local Open Scope list_scope.
Local Open Scope Z_scope.

(** ** Machine integers *)

Definition wrap64 (z : Z) : Z := (z + 2 ^ 63) mod 2 ^ 64 - 2 ^ 63.

Definition minInt64 : Z := - 2 ^ 63.
Definition maxInt64 : Z := 2 ^ 63 - 1.

Definition inInt64 (z : Z) : bool := (minInt64 <=? z) && (z <=? maxInt64).

(** ** strconv.Atoi

    Base-10 syntax accepted by [strconv.Atoi]: an optional sign followed
    by at least one decimal digit; an error for anything else and for a
    value that does not fit an [int]. *)

Definition digitVal (c : ascii) : option Z :=
  let n := Z.of_nat (nat_of_ascii c) in
  if (48 <=? n) && (n <=? 57) then Some (n - 48) else None.

Fixpoint parseDigits (acc : Z) (s : string) : option Z :=
  match s with
  | EmptyString => Some acc
  | String c rest =>
      match digitVal c with
      | Some d => parseDigits (acc * 10 + d) rest
      | None => None
      end
  end.

Definition Atoi (s : string) : option Z :=
  match s with
  | EmptyString => None
  | String c rest =>
      let '(neg, body) :=
        if Ascii.eqb c "-" then (true, rest)
        else if Ascii.eqb c "+" then (false, rest)
        else (false, s) in
      match body with
      | EmptyString => None
      | _ =>
          match parseDigits 0 body with
          | Some v =>
              let v' := if neg then - v else v in
              if inInt64 v' then Some v' else None
          | None => None
          end
      end
  end.

(** * collectData.go *)

Module Collect.

(** ** The durable store

    Rows of the two tables that [createTables] declares.  [items] has
    [name] as its primary key; [combinations] has an autoincrement [id]
    and a [UNIQUE(firstItem, secondItem)] constraint.  No statement of
    the three programs reads or writes the [id]: SQLite assigns it, one
    more than the largest the table has ever used, so a new row comes
    last in the order of ids.  The rows of [combinations] are kept in
    that order and the [id] itself is not represented.  The foreign keys of
    [combinations] are declared, but SQLite only enforces them on a
    connection that switches [foreign_keys] on, which the data source name
    ["./items.db"] does not: the store accepts any names in a combination
    row.  A table that has not been created is [None]. *)

Record Item := mkItem { name : string; emoji : string; isNew : bool }.

Record Combination := mkCombination {
  firstItem : string;
  secondItem : string;
  resultItem : string
}.

Record Store := mkStore {
  items : option (list Item);
  combinations : option (list Combination)
}.

#[global] Instance Item_eq_dec : EqDecision Item.
Proof. solve_decision. Defined.
#[global] Instance Combination_eq_dec : EqDecision Combination.
Proof. solve_decision. Defined.
#[global] Instance Store_eq_dec : EqDecision Store.
Proof. solve_decision. Defined.

(** The statements the program sends with [db.Exec]. *)
Inductive Stmt :=
| CreateItems
| CreateCombinations
| InsertItem (n e : string) (b : bool)
| UpsertItem (n e : string) (b : bool)
| InsertCombination (f s r : string).

Inductive StoreError :=
| NoSuchTable
| TableExists
| UniqueViolation
| IOFailure.

(** [INSERT ... ON CONFLICT(name) DO UPDATE SET emoji=excluded.emoji,
    isNew=excluded.isNew]: the row whose key is [n] keeps its place and
    its key and takes the new [emoji] and [isNew]; without such a row a
    new one is appended. *)
Fixpoint upsertRow (n e : string) (b : bool) (rows : list Item) : list Item :=
  match rows with
  | [] => [mkItem n e b]
  | r :: rest =>
      if String.eqb (name r) n then mkItem (name r) e b :: rest
      else r :: upsertRow n e b rest
  end.

Definition hasItem (n : string) (rows : list Item) : bool :=
  existsb (fun r => String.eqb (name r) n) rows.

Definition isPair (f s : string) (c : Combination) : bool :=
  String.eqb (firstItem c) f && String.eqb (secondItem c) s.

(** [SELECT COUNT( * ) FROM combinations WHERE firstItem = ? AND secondItem = ?] *)
Definition countPair (f s : string) (rows : list Combination) : Z :=
  Z.of_nat (length (filter (fun c => isPair f s c = true) rows)).

Definition applyStmt (stmt : Stmt) (st : Store) : StoreError + Store :=
  match stmt with
  | CreateItems =>
      match items st with
      | Some _ => inl TableExists
      | None => inr (mkStore (Some []) (combinations st))
      end
  | CreateCombinations =>
      match combinations st with
      | Some _ => inl TableExists
      | None => inr (mkStore (items st) (Some []))
      end
  | InsertItem n e b =>
      match items st with
      | None => inl NoSuchTable
      | Some rows =>
          if hasItem n rows then inl UniqueViolation
          else inr (mkStore (Some (rows ++ [mkItem n e b])) (combinations st))
      end
  | UpsertItem n e b =>
      match items st with
      | None => inl NoSuchTable
      | Some rows => inr (mkStore (Some (upsertRow n e b rows)) (combinations st))
      end
  | InsertCombination f s r =>
      match combinations st with
      | None => inl NoSuchTable
      | Some rows =>
          if 0 <? countPair f s rows then inl UniqueViolation
          else
            inr (mkStore (items st)
                   (Some (rows ++ [mkCombination f s r])))
      end
  end.

(** ** What the process can observe and do *)

Inductive error :=
| ErrNotEnoughItems          (* fmt.Errorf("not enough items to combine") *)
| ErrTransport               (* client.Do failed *)
| ErrReadBody                (* io.ReadAll failed *)
| ErrUnmarshal               (* json.Unmarshal failed *)
| ErrScan                    (* rows.Scan failed *)
| ErrStore (e : StoreError).

Inductive result (A : Type) :=
| Ok (a : A)
| Err (e : error).
Arguments Ok {A} a.
Arguments Err {A} e.

Record ApiResponse := mkApiResponse {
  Result : string;
  Emoji : string;
  IsNew : bool
}.

(** The body of a response as [io.ReadAll] and [json.Unmarshal] see it. *)
Inductive BodyContent :=
| BodyUnreadable
| BodyNotJson
| BodyJson (r : ApiResponse).

Record HttpResponse := mkHttpResponse {
  StatusCode : Z;
  RetryAfter : option string;     (* the Retry-After header, when present *)
  Body : BodyContent
}.

Inductive HttpResult :=
| TransportError
| Response (r : HttpResponse).

(** What reading one row of a result set comes to: [rows.Next()] and
    [rows.Scan] succeed; [rows.Scan] returns an error, as it does for a
    NULL column read into a string; or [rows.Next()] returns false
    because of an error, which only [rows.Err()] tells from the end of
    the rows. *)
Inductive RowRead := RowScanned | ScanFails | NextFails.

(** [*sql.Rows]: the store call that produced the result set and the
    rows it holds. *)
Record Rows := mkRows { call : nat; found : list Item }.

Inductive OsError :=
| ErrNotExist
| ErrPermission
| ErrOther.

Definition IsNotExist (e : OsError) : bool :=
  match e with ErrNotExist => true | _ => false end.

Inductive Level := DebugLevel | InfoLevel | ErrorLevel | FatalLevel.

Inductive LogArg :=
| LStr (s : string)
| LInt (z : Z)
| LBool (b : bool)
| LErr (e : error)
| LUrl (first second : string).   (* apiURL with the encoded query *)

Inductive Event :=
| EvLog (lvl : Level) (args : list LogArg)
| EvExec (stmt : Stmt) (post : Store)    (* a statement that the store accepted, and the store after it *)
| EvHttpGet (first second : string)      (* GET apiURL?first=..&second=.. with the fixed headers *)
| EvBodyClose (call : nat)               (* resp.Body.Close() of the call-th response *)
| EvSleep (d : Z).                       (* time.Sleep(d), d in nanoseconds *)

(** The state of the process and of the world around it.  [frames] counts
    the activations of [callApi] that are on the stack, [peakFrames] the
    most there have been. *)
Record World := mkWorld {
  db : Store;
  localItemsCache : option (gmap string string);   (* None: the nil map *)
  randPos : nat;
  iterPos : nat;
  httpPos : nat;
  dbPos : nat;
  frames : nat;
  peakFrames : nat;
  events : list Event
}.

Definition setDb (s : Store) (w : World) : World :=
  mkWorld s (localItemsCache w) (randPos w) (iterPos w) (httpPos w) (dbPos w)
    (frames w) (peakFrames w) (events w).
Definition setCache (c : option (gmap string string)) (w : World) : World :=
  mkWorld (db w) c (randPos w) (iterPos w) (httpPos w) (dbPos w)
    (frames w) (peakFrames w) (events w).
Definition setRandPos (n : nat) (w : World) : World :=
  mkWorld (db w) (localItemsCache w) n (iterPos w) (httpPos w) (dbPos w)
    (frames w) (peakFrames w) (events w).
Definition setIterPos (n : nat) (w : World) : World :=
  mkWorld (db w) (localItemsCache w) (randPos w) n (httpPos w) (dbPos w)
    (frames w) (peakFrames w) (events w).
Definition setHttpPos (n : nat) (w : World) : World :=
  mkWorld (db w) (localItemsCache w) (randPos w) (iterPos w) n (dbPos w)
    (frames w) (peakFrames w) (events w).
Definition setDbPos (n : nat) (w : World) : World :=
  mkWorld (db w) (localItemsCache w) (randPos w) (iterPos w) (httpPos w) n
    (frames w) (peakFrames w) (events w).
Definition setFrames (n p : nat) (w : World) : World :=
  mkWorld (db w) (localItemsCache w) (randPos w) (iterPos w) (httpPos w) (dbPos w)
    n p (events w).
Definition addEvent (e : Event) (w : World) : World :=
  mkWorld (db w) (localItemsCache w) (randPos w) (iterPos w) (httpPos w) (dbPos w)
    (frames w) (peakFrames w) (events w ++ [e]).

(** ** The monad *)

Inductive outcome (A : Type) :=
| Ret (a : A)            (* the call returned *)
| Exit (code : Z)        (* os.Exit, as logrus.Fatal does *)
| Panic (msg : string)   (* an unrecovered panic *)
| OutOfFuel.             (* not finished within the fuel *)
Arguments Ret {A} a.
Arguments Exit {A} code.
Arguments Panic {A} msg.
Arguments OutOfFuel {A}.

Definition M (A : Type) : Type := World -> outcome A * World.

Definition retM {A} (a : A) : M A := fun w => (Ret a, w).

Definition bindM {A B} (f : A -> M B) (m : M A) : M B :=
  fun w =>
    match m w with
    | (Ret a, w') => f a w'
    | (Exit c, w') => (Exit c, w')
    | (Panic msg, w') => (Panic msg, w')
    | (OutOfFuel, w') => (OutOfFuel, w')
    end.

#[global] Instance M_ret : MRet M := @retM.
#[global] Instance M_bind : MBind M := @bindM.

Definition exit {A} (code : Z) : M A := fun w => (Exit code, w).
Definition panic {A} (msg : string) : M A := fun w => (Panic msg, w).
Definition outOfFuel {A} : M A := fun w => (OutOfFuel, w).
Definition emit (e : Event) : M unit := fun w => (Ret tt, addEvent e w).

(** [defer f] in a function whose remaining body is [body]: [f] runs when
    the body returns or panics, not when the process exits. *)
Definition defer {A} (f : M unit) (body : M A) : M A :=
  fun w =>
    match body w with
    | (Ret a, w') => (Ret a, snd (f w'))
    | (Panic msg, w') => (Panic msg, snd (f w'))
    | r => r
    end.

(** logrus: every call appends its line; [Fatal] then exits with status 1. *)
Definition logrus (lvl : Level) (args : list LogArg) : M unit :=
  emit (EvLog lvl args).

Definition logrusFatal {A} (args : list LogArg) : M A :=
  emit (EvLog FatalLevel args);; exit 1.

Definition nanosecond : Z := 1.
Definition millisecond : Z := 1000000.
Definition second : Z := 1000000000.

Definition timeSleep (d : Z) : M unit := emit (EvSleep d).

(** How long [time.Sleep d] suspends the caller: a negative or zero
    duration returns at once. *)
Definition slept (d : Z) : Z := Z.max 0 d.

Definition sleepTotal (evs : list Event) : Z :=
  foldr (fun e acc => match e with EvSleep d => slept d + acc | _ => acc end) 0 evs.

(** ** The engine, over an arbitrary environment *)

Section Engine.

(** The n-th number the random source hands out, the order in which the
    n-th [range] walks a map, the answer to the n-th request, whether
    the n-th call to the store fails with an I/O error, what reading
    the i-th row of the result set of the n-th call comes to, and what
    [os.Stat(dbName)] reports. *)
Variable envRand : nat -> Z.
Variable envIter : nat -> gmap string string -> list string.
Variable envHttp : nat -> string -> string -> HttpResult.
Variable envFault : nat -> bool.
Variable envScan : nat -> nat -> RowRead.
Variable envStat : option OsError.

(** rand.Intn *)
Definition randIntn (n : Z) : M Z :=
  fun w =>
    if n <=? 0 then (Panic "invalid argument to Intn", w)
    else (Ret (envRand (randPos w) mod n), setRandPos (S (randPos w)) w).

(** [for item := range localItemsCache { items = append(items, item) }] *)
Definition cacheKeys : M (list string) :=
  fun w =>
    (Ret (match localItemsCache w with
          | Some m => envIter (iterPos w) m
          | None => []
          end),
     setIterPos (S (iterPos w)) w).

(** [localItemsCache[name] = emoji] *)
Definition cacheStore (n e : string) : M unit :=
  fun w =>
    match localItemsCache w with
    | Some m => (Ret tt, setCache (Some (<[n := e]> m)) w)
    | None => (Panic "assignment to entry in nil map", w)
    end.

(** [items[i]] *)
Definition index (l : list string) (i : Z) : M string :=
  fun w =>
    match (if i <? 0 then None else l !! Z.to_nat i) with
    | Some x => (Ret x, w)
    | None => (Panic "index out of range", w)
    end.

Definition storeFault : M bool :=
  fun w => (Ret (envFault (dbPos w)), setDbPos (S (dbPos w)) w).

(** db.Exec *)
Definition dbExec (stmt : Stmt) : M (option error) :=
  failed ← storeFault;
  if failed : bool then mret (Some (ErrStore IOFailure))
  else
    fun w =>
      match applyStmt stmt (db w) with
      | inl e => (Ret (Some (ErrStore e)), w)
      | inr st' => (Ret None, addEvent (EvExec stmt st') (setDb st' w))
      end.

(** [db.Query("SELECT name, emoji FROM items")] *)
Definition dbQueryItems : M (result Rows) :=
  fun w =>
    let w1 := setDbPos (S (dbPos w)) w in
    if envFault (dbPos w) then (Ret (Err (ErrStore IOFailure)), w1)
    else
      match items (db w) with
      | Some rows => (Ret (Ok (mkRows (dbPos w) rows)), w1)
      | None => (Ret (Err (ErrStore NoSuchTable)), w1)
      end.

(** [db.QueryRow(query, firstItem, secondItem).Scan(&count)] *)
Definition dbCountPair (f s : string) : M (result Z) :=
  failed ← storeFault;
  if failed : bool then mret (Err (ErrStore IOFailure))
  else
    fun w =>
      match combinations (db w) with
      | Some rows => (Ret (Ok (countPair f s rows)), w)
      | None => (Ret (Err (ErrStore NoSuchTable)), w)
      end.

(** [for rows.Next() { ... rows.Scan(&name, &emoji) ...
    localItemsCache[name] = emoji }], from the i-th row on: the loop
    ends at the end of the rows and also when [rows.Next()] fails, and
    [rows.Err()] is not looked at. *)
Fixpoint cacheFill (q i : nat) (pending : list Item) : M unit :=
  match pending with
  | [] => mret tt
  | row :: rest =>
      match envScan q i with
      | NextFails => mret tt
      | ScanFails =>
          logrusFatal [LStr "Failed to read item for local cache: "; LErr ErrScan]
      | RowScanned =>
          cacheStore (name row) (emoji row);;
          cacheFill q (S i) rest
      end
  end.

Definition initializeLocalCache : M unit :=
  (fun w => (Ret tt, setCache (Some ∅) w));;
  r ← dbQueryItems;
  match r with
  | Err err => logrusFatal [LStr "Failed to initialize local cache: "; LErr err]
  | Ok rows =>
      cacheFill (call rows) 0 (found rows);;
      logrus InfoLevel [LStr "Local cache initialized with items from database"]
  end.

Definition checkDatabaseExists : bool :=
  match envStat with
  | Some err => negb (IsNotExist err)
  | None => true
  end.

Definition createTables : M unit :=
  err ← dbExec CreateItems;
  match err with
  | Some e => logrusFatal [LStr "Failed to create items table: "; LErr e]
  | None =>
      logrus InfoLevel [LStr "Created items table"];;
      err ← dbExec CreateCombinations;
      match err with
      | Some e => logrusFatal [LStr "Failed to create combinations table: "; LErr e]
      | None => logrus InfoLevel [LStr "Created combinations table"]
      end
  end.

Definition initialItems : list (string * string) :=
  [("Water", "ðŸ’§"); ("Fire", "ðŸ”¥"); ("Wind", "ðŸŒ¬ï¸"); ("Earth", "ðŸŒ")].

Definition insertInitialItems : M unit :=
  foldr
    (fun item k =>
       err ← dbExec (InsertItem (fst item) (snd item) false);
       match err with
       | Some e => logrusFatal [LStr "Failed to insert initial items: "; LErr e]
       | None => k
       end)
    (logrus InfoLevel [LStr "Inserted initial items"])
    initialItems.

(** [sql.Open] only records the data source name; it fails for an
    unregistered driver, which sqlite3 is not. *)
Definition initializeDatabase : M unit :=
  let dbExists := checkDatabaseExists in
  logrus DebugLevel [LStr "Database exists: "; LBool dbExists];;
  if negb dbExists then createTables;; insertInitialItems
  else mret tt.

Definition insertOrUpdateItem (n e : string) (b : bool) : M unit :=
  logrus DebugLevel [LStr "Inserting or updating item: %s, %s, %t"; LStr n; LStr e; LBool b];;
  cacheStore n e;;
  err ← dbExec (UpsertItem n e b);
  match err with
  | Some er => logrusFatal [LStr "Failed to insert or update item: "; LErr er]
  | None => mret tt
  end.

Definition insertCombination (f s r : string) : M unit :=
  logrus DebugLevel [LStr "Inserting combination: %s, %s, %s"; LStr f; LStr s; LStr r];;
  err ← dbExec (InsertCombination f s r);
  match err with
  | Some er => logrusFatal [LStr "Failed to insert combination: "; LErr er]
  | None => mret tt
  end.

(** client.Do: one request goes out; the answer is the environment's.
    [http.NewRequest] cannot fail for the constant method and URL. *)
Definition clientDo (first second : string) : M (nat * HttpResult) :=
  fun w =>
    (Ret (httpPos w, envHttp (httpPos w) first second),
     addEvent (EvHttpGet first second) (setHttpPos (S (httpPos w)) w)).

Definition enterFrame : M unit :=
  fun w => (Ret tt, setFrames (S (frames w)) (Nat.max (peakFrames w) (S (frames w))) w).
Definition leaveFrame : M unit :=
  fun w => (Ret tt, setFrames (Nat.pred (frames w)) (peakFrames w) w).

(** [strconv.Atoi(resp.Header.Get("Retry-After"))] with the default *)
Definition retryAfterOf (resp : HttpResponse) : Z :=
  match Atoi (default "" (RetryAfter resp)) with
  | Some n => n
  | None => 60
  end.

(** [time.Duration(retryAfter+1) * time.Second] *)
Definition retryDelay (resp : HttpResponse) : Z :=
  wrap64 (wrap64 (retryAfterOf resp + 1) * second).

(** What [callApi] does with a response that is not a 429: it touches
    nothing but the body. *)
Definition decodeOutcome (resp : HttpResponse) : outcome (result ApiResponse) :=
  if 400 <=? StatusCode resp then Panic "API request failed with status code: %d"
  else
    match Body resp with
    | BodyUnreadable => Ret (Err ErrReadBody)
    | BodyNotJson => Ret (Err ErrUnmarshal)
    | BodyJson r => Ret (Ok r)
    end.

Definition decode (resp : HttpResponse) : M (result ApiResponse) :=
  fun w => (decodeOutcome resp, w).

(** [callApi] calls itself on a 429 ("Recursively retry the request"),
    with [resp.Body.Close()] of the throttled response still deferred.
    [enterFrame] and [leaveFrame] keep the count of activations; they
    have no counterpart in the source text. *)
Fixpoint callApi (fuel : nat) (first second : string) : M (result ApiResponse) :=
  match fuel with
  | O => outOfFuel
  | S fuel' =>
      defer leaveFrame
        (enterFrame;;
         logrus DebugLevel [LStr "Calling API with URL: "; LUrl first second];;
         '(call, r) ← clientDo first second;
         match r with
         | TransportError => mret (Err ErrTransport)
         | Response resp =>
             defer (emit (EvBodyClose call))
               (if StatusCode resp =? 429 then
                  timeSleep (retryDelay resp);;
                  callApi fuel' first second
                else decode resp)
         end)
  end.

Definition combineElements (fuel : nat) (first second : string) : M unit :=
  r ← callApi fuel first second;
  match r with
  | Err err => logrusFatal [LStr "Failed to call API: "; LErr err]
  | Ok response =>
      insertOrUpdateItem (Result response) (Emoji response) (IsNew response);;
      insertCombination first second (Result response)
  end.

(** [for secondIndex == firstIndex { secondIndex = rand.Intn(len(items)) }] *)
Fixpoint redraw (fuel : nat) (n firstIndex secondIndex : Z) : M Z :=
  if secondIndex =? firstIndex then
    match fuel with
    | O => outOfFuel
    | S fuel' => s ← randIntn n; redraw fuel' n firstIndex s
    end
  else mret secondIndex.

Definition getRandomItems (fuel : nat) : M (string * string * option error) :=
  keys ← cacheKeys;
  let n := Z.of_nat (length keys) in
  if n <? 2 then mret ("", "", Some ErrNotEnoughItems)
  else
    firstIndex ← randIntn n;
    secondIndex ← redraw fuel n firstIndex firstIndex;
    a ← index keys firstIndex;
    b ← index keys secondIndex;
    mret (a, b, None).

Definition combinationExists (f s : string) : M (bool * option error) :=
  r ← dbCountPair f s;
  match r with
  | Err err => mret (false, Some err)
  | Ok count => mret (0 <? count, None)
  end.

(** One pass through the body of the loop of [exploreCombinations]:
    [Some] of the counters to go on with, or [None] when the body
    returns from the function. *)
Definition iteration (gas : nat) (createdCombinations attempts : Z)
  : M (option (Z * Z)) :=
  '(firstItem, secondItem, err) ← getRandomItems gas;
  match err with
  | Some e =>
      logrus ErrorLevel [LStr "Error getting random items: "; LErr e];;
      mret None
  | None =>
      '(found, err) ← combinationExists firstItem secondItem;
      match err with
      | Some e =>
          logrus ErrorLevel [LStr "Error checking if combination exists: "; LErr e];;
          mret None
      | None =>
          created ← (if negb found then
                       combineElements gas firstItem secondItem;;
                       mret (wrap64 (createdCombinations + 1))
                     else mret createdCombinations);
          let attempts' := wrap64 (attempts + 1) in
          timeSleep (wrap64 (millisecond * 50));;
          mret (Some (created, attempts'))
      end
  end.

Inductive LoopExit := Exhausted | Aborted.

Fixpoint exploreLoop (fuel gas : nat)
    (maxCombinations maxAttempts createdCombinations attempts : Z)
  : M (LoopExit * Z * Z) :=
  if (createdCombinations <? maxCombinations) && (attempts <? maxAttempts) then
    match fuel with
    | O => outOfFuel
    | S fuel' =>
        next ← iteration gas createdCombinations attempts;
        match next with
        | Some (created, attempts') =>
            exploreLoop fuel' gas maxCombinations maxAttempts created attempts'
        | None => mret (Aborted, createdCombinations, attempts)
        end
    end
  else mret (Exhausted, createdCombinations, attempts).

Definition exploreCombinations (fuel : nat) (maxCombinations maxAttempts : Z)
  : M unit :=
  '(how, createdCombinations, attempts) ←
      exploreLoop fuel fuel maxCombinations maxAttempts 0 0;
  match how with
  | Aborted => mret tt
  | Exhausted =>
      logrus InfoLevel
        [LStr "Finished creating combinations. Total created: ";
         LInt createdCombinations; LStr ", Total attempts: "; LInt attempts]
  end.

(** [logrus.SetLevel] only selects which lines are printed, and the
    deferred [db.Close()] leaves the tables as they are. *)
Definition main (fuel : nat) : M unit :=
  initializeDatabase;;
  initializeLocalCache;;
  let N := 500000 in
  exploreCombinations fuel N (wrap64 (N * 5)).

(** The keys as the next [range] over the cache will produce them. *)
Definition keysOf (w : World) : list string :=
  match localItemsCache w with
  | Some m => envIter (iterPos w) m
  | None => []
  end.

Definition pacingSleep : Event := EvSleep (wrap64 (millisecond * 50)).

Definition samplingFailed (e : error) : Event :=
  EvLog ErrorLevel [LStr "Error getting random items: "; LErr e].

Definition checkFailed (e : error) : Event :=
  EvLog ErrorLevel [LStr "Error checking if combination exists: "; LErr e].

Definition finished (createdCombinations attempts : Z) : Event :=
  EvLog InfoLevel
    [LStr "Finished creating combinations. Total created: "; LInt createdCombinations;
     LStr ", Total attempts: "; LInt attempts].

(** *** Vocabulary for runs of [callApi] *)

Definition attemptLog (f s : string) : Event :=
  EvLog DebugLevel [LStr "Calling API with URL: "; LUrl f s].

(** The world once the request of an activation has gone out. *)
Definition requested (f s : string) (w : World) : World :=
  addEvent (EvHttpGet f s)
    (setHttpPos (S (httpPos w))
       (addEvent (attemptLog f s)
          (setFrames (S (frames w)) (Nat.max (peakFrames w) (S (frames w))) w))).

Definition left (w : World) : World :=
  setFrames (Nat.pred (frames w)) (peakFrames w) w.

(** What the two deferred calls of an activation do to the world its
    body ended in. *)
Definition unwound {A} (call : nat) (o : outcome A) (w : World) : World :=
  match o with
  | Ret _ | Panic _ => left (addEvent (EvBodyClose call) w)
  | _ => w
  end.

Definition is429 (r : HttpResult) : bool :=
  match r with
  | Response resp => StatusCode resp =? 429
  | TransportError => false
  end.

Definition delayOf (r : HttpResult) : Z :=
  match r with
  | Response resp => retryDelay resp
  | TransportError => 0
  end.

Definition finalOutcome (r : HttpResult) : outcome (result ApiResponse) :=
  match r with
  | Response resp => decodeOutcome resp
  | TransportError => Ret (Err ErrTransport)
  end.

(** What one throttled activation appends before it calls itself. *)
Definition roundEvents (f s : string) (i : nat) : list Event :=
  [attemptLog f s; EvHttpGet f s; EvSleep (delayOf (envHttp i f s))].

(** The bodies that are closed while the activations return, innermost
    first. *)
Definition closeEvents (f s : string) (p k : nat) : list Event :=
  match envHttp (p + k)%nat f s with
  | Response _ => [EvBodyClose (p + k)%nat]
  | TransportError => []
  end ++ map EvBodyClose (rev (seq p k)).

End Engine.

(** ** Concrete worlds and environments

    Small instances on which the statements below are exercised. *)

Definition emptyWorld : World :=
  mkWorld (mkStore None None) None 0 0 0 0 0 0 [].

Definition seedRows : list Item :=
  map (fun p => mkItem (fst p) (snd p) false) initialItems.

(** A freshly initialised store with the cache loaded from it. *)
Definition seededWorld : World :=
  mkWorld (mkStore (Some seedRows) (Some [])) (Some (list_to_map initialItems))
    0 0 0 0 0 0 [].

Definition countingRand (k : nat) : Z := Z.of_nat k.
Definition sortedIter (k : nat) (m : gmap string string) : list string :=
  elements (dom m).
Definition noFault (k : nat) : bool := false.

Definition steam : ApiResponse := mkApiResponse "Steam" "💨" true.

Definition okSteam : HttpResult :=
  Response (mkHttpResponse 200 None (BodyJson steam)).

(** The first [n] requests are answered 429 with the given Retry-After
    header, the later ones 200 with a valid body. *)
Definition throttledTimes (n : nat) (h : option string) (k : nat) (f s : string)
  : HttpResult :=
  if (k <? n)%nat then Response (mkHttpResponse 429 h BodyUnreadable) else okSteam.

Definition alwaysThrottled (k : nat) (f s : string) : HttpResult :=
  Response (mkHttpResponse 429 None BodyUnreadable).

(** Two entries, both ordered pairs of which are recorded. *)
Definition exploredCache : gmap string string :=
  list_to_map [("Water", "w"); ("Fire", "f")].

Definition exploredRows : list Combination :=
  [mkCombination "Water" "Fire" "Steam"; mkCombination "Fire" "Water" "Steam"].

Definition exploredWorld : World :=
  mkWorld
    (mkStore (Some [mkItem "Water" "w" false; mkItem "Fire" "f" false;
                    mkItem "Steam" "s" true])
       (Some exploredRows))
    (Some exploredCache) 0 0 0 0 0 0 [].

(** A cache with a single entry, over the seeded store. *)
Definition lonelyWorld : World :=
  mkWorld (mkStore (Some seedRows) (Some [])) (Some {["Water" := "w"]})
    0 0 0 0 0 0 [].

(** Two cached entries over a store whose combinations table is missing. *)
Definition brokenWorld : World :=
  mkWorld (mkStore (Some seedRows) None) (Some exploredCache) 0 0 0 0 0 0 [].

(** ** Derived notions used in the statements *)


(** The statements the store accepted, oldest first, each with the store
    it produced. *)
Definition execs (evs : list Event) : list (Stmt * Store) :=
  omap (fun e => match e with EvExec stmt post => Some (stmt, post) | _ => None end) evs.

(** The requests that went out, oldest first. *)
Definition requests (evs : list Event) : list (string * string) :=
  omap (fun e => match e with EvHttpGet f s => Some (f, s) | _ => None end) evs.

Definition countName (n : string) (rows : list Item) : nat :=
  length (filter (fun r => name r = n) rows).

Definition cacheSize (w : World) : nat :=
  match localItemsCache w with
  | Some m => size m
  | None => 0%nat
  end.

(** [w'] differs from [w] by nothing the store could notice: same tables,
    same cache, no call to the store, no accepted statement. *)
Definition quiet (w w' : World) : Prop :=
  db w' = db w /\ localItemsCache w' = localItemsCache w /\ dbPos w' = dbPos w
  /\ exists evs, events w' = events w ++ evs /\ execs evs = [].

(** Every ordered pair of two different keys has a combination row. *)
Definition allExplored (keys : list string) (rows : list Combination) : bool :=
  forallb
    (fun a => forallb (fun b => String.eqb a b || (0 <? countPair a b rows)) keys)
    keys.

(** A log line that reports a number. *)
Definition reportsCount (e : Event) : bool :=
  match e with
  | EvLog _ args => existsb (fun x => match x with LInt _ => true | _ => false end) args
  | _ => false
  end.

(** ** Facts about the store *)

Lemma upsertRow_idem n e b rows :
  upsertRow n e b (upsertRow n e b rows) = upsertRow n e b rows.
Proof.
  induction rows as [|r rows IH]; simpl.
  - now rewrite String.eqb_refl.
  - destruct (String.eqb (name r) n) eqn:E; simpl; rewrite E; [done|].
    now rewrite IH.
Qed.

Lemma upsertRow_names n e b rows :
  hasItem n rows = true -> map name (upsertRow n e b rows) = map name rows.
Proof.
  induction rows as [|r rows IH]; simpl; [done|].
  destruct (String.eqb (name r) n) eqn:E; simpl; [done|].
  intros H. now rewrite IH.
Qed.

Lemma upsertRow_others n e b rows :
  filter (fun r => name r ≠ n) (upsertRow n e b rows)
  = filter (fun r => name r ≠ n) rows.
Proof.
  induction rows as [|r rows IH]; simpl.
  - rewrite filter_cons_False; [done|]. simpl. tauto.
  - destruct (String.eqb (name r) n) eqn:E.
    + apply String.eqb_eq in E.
      rewrite !filter_cons_False; simpl; tauto.
    + apply String.eqb_neq in E.
      rewrite !filter_cons_True by done. now rewrite IH.
Qed.

Lemma hasItem_upsertRow n e b rows : hasItem n (upsertRow n e b rows) = true.
Proof.
  induction rows as [|r rows IH]; simpl.
  - now rewrite String.eqb_refl.
  - destruct (String.eqb (name r) n) eqn:E; simpl; rewrite E; simpl; done.
Qed.

Lemma hasItem_upsertRow_mono n e b m rows :
  hasItem m rows = true -> hasItem m (upsertRow n e b rows) = true.
Proof.
  induction rows as [|r rows IH]; simpl; [done|].
  destruct (String.eqb (name r) n) eqn:E; simpl; [done|].
  destruct (String.eqb (name r) m); simpl; auto.
Qed.

Lemma countName_absent n rows :
  hasItem n rows = false -> countName n rows = 0%nat.
Proof.
  unfold countName. induction rows as [|r rows IH]; simpl; [done|].
  destruct (String.eqb (name r) n) eqn:E; simpl; [done|].
  apply String.eqb_neq in E. intros H.
  rewrite filter_cons_False by done. auto.
Qed.

Lemma hasItem_not_in n rows : n ∉ map name rows -> hasItem n rows = false.
Proof.
  induction rows as [|r rows IH]; simpl; [done|].
  rewrite not_elem_of_cons. intros [Hne Hn].
  destruct (String.eqb (name r) n) eqn:E; simpl; auto.
  apply String.eqb_eq in E. congruence.
Qed.

Lemma upsertRow_one_row n e b rows :
  NoDup (map name rows) -> countName n (upsertRow n e b rows) = 1%nat.
Proof.
  induction rows as [|r rows IH]; simpl; intros Hnd.
  - unfold countName. now rewrite filter_cons_True.
  - apply NoDup_cons in Hnd as [Hr Hnd].
    destruct (String.eqb (name r) n) eqn:E.
    + apply String.eqb_eq in E. unfold countName.
      rewrite filter_cons_True by done. simpl. f_equal.
      apply countName_absent, hasItem_not_in. congruence.
    + apply String.eqb_neq in E. unfold countName.
      rewrite filter_cons_False by done. now apply IH.
Qed.


(** ** Running the monad *)

Ltac unfoldM :=
  unfold mbind, M_bind, bindM, mret, M_ret, retM, logrusFatal, logrus,
    timeSleep, emit, exit, panic, outOfFuel in *.

Ltac unfoldW :=
  cbv beta iota delta
    [setDb setCache setRandPos setIterPos setHttpPos setDbPos setFrames addEvent
     db localItemsCache randPos iterPos httpPos dbPos frames peakFrames events] in *.


Section Facts.

Variable envRand : nat -> Z.
Variable envIter : nat -> gmap string string -> list string.
Variable envHttp : nat -> string -> string -> HttpResult.
Variable envFault : nat -> bool.

Lemma insertOrUpdateItem_run n e b w :
  insertOrUpdateItem envFault n e b w =
  let w0 :=
    addEvent
      (EvLog DebugLevel
         [LStr "Inserting or updating item: %s, %s, %t"; LStr n; LStr e; LBool b]) w in
  match localItemsCache w with
  | None => (Panic "assignment to entry in nil map", w0)
  | Some m =>
      let w1 := setDbPos (S (dbPos w)) (setCache (Some (<[n := e]> m)) w0) in
      let fatal er :=
        (Exit 1,
         addEvent
           (EvLog FatalLevel [LStr "Failed to insert or update item: "; LErr er]) w1) in
      if envFault (dbPos w) then fatal (ErrStore IOFailure)
      else
        match items (db w) with
        | None => fatal (ErrStore NoSuchTable)
        | Some rows =>
            let st := mkStore (Some (upsertRow n e b rows)) (combinations (db w)) in
            (Ret tt, addEvent (EvExec (UpsertItem n e b) st) (setDb st w1))
        end
  end.
Proof.
  unfold insertOrUpdateItem, cacheStore, dbExec, storeFault. unfoldM. simpl.
  destruct (localItemsCache w); simpl; [|done].
  destruct (envFault (dbPos w)); simpl; [done|].
  destruct (items (db w)); simpl; done.
Qed.

(** C6: the entry upsert is idempotent and keeps the key.  When a call
    of [insertOrUpdateItem] has returned, the row for [name] is there;
    the rows of other names are as before; when a row for [name] was
    already there the sequence of keys is the same (only [emoji] and
    [isNew] of that row were written), and a table that respected its
    primary key holds one row for [name].  A second call with the same
    arguments leaves the table and the cache exactly as the first left
    them, and returns unless the store fails with an I/O error. *)
Theorem upsert_idempotent (n e : string) (b : bool) (w w1 : World) :
  insertOrUpdateItem envFault n e b w = (Ret tt, w1) ->
  (exists rows0 rows1,
      items (db w) = Some rows0 /\ items (db w1) = Some rows1
      /\ rows1 = upsertRow n e b rows0
      /\ hasItem n rows1 = true
      /\ filter (fun r => name r ≠ n) rows1 = filter (fun r => name r ≠ n) rows0
      /\ (hasItem n rows0 = true -> map name rows1 = map name rows0)
      /\ (NoDup (map name rows0) -> countName n rows1 = 1%nat))
  /\ (forall o w2,
        insertOrUpdateItem envFault n e b w1 = (o, w2) ->
        db w2 = db w1 /\ localItemsCache w2 = localItemsCache w1
        /\ (envFault (dbPos w1) = false -> o = Ret tt)).
Proof.
  rewrite insertOrUpdateItem_run. cbv zeta.
  destruct (localItemsCache w) as [m|] eqn:Hc; [|discriminate].
  destruct (envFault (dbPos w)) eqn:Hf; [discriminate|].
  destruct (items (db w)) as [rows|] eqn:Hi; [|discriminate].
  intros [= <-]. split.
  - exists rows, (upsertRow n e b rows). simpl.
    repeat split; auto using hasItem_upsertRow, upsertRow_others,
      upsertRow_names, upsertRow_one_row.
  - intros o w2. rewrite insertOrUpdateItem_run. cbv zeta. simpl.
    destruct (envFault (S (dbPos w))) eqn:Hf2.
    + intros [= <- <-]. simpl. rewrite insert_insert_eq. done.
    + intros [= <- <-]. simpl.
      rewrite upsertRow_idem, insert_insert_eq. done.
Qed.

(** *** One activation of [callApi] *)

Lemma callApi_step fuel f s w :
  callApi envHttp (S fuel) f s w =
  match envHttp (httpPos w) f s with
  | TransportError => (Ret (Err ErrTransport), left (requested f s w))
  | Response resp =>
      if StatusCode resp =? 429 then
        let r := callApi envHttp fuel f s
                   (addEvent (EvSleep (retryDelay resp)) (requested f s w)) in
        (fst r, unwound (httpPos w) (fst r) (snd r))
      else (decodeOutcome resp, unwound (httpPos w) (decodeOutcome resp) (requested f s w))
  end.
Proof.
  cbn [callApi]. unfold defer, enterFrame, leaveFrame, clientDo, decode. unfoldM.
  cbn -[callApi Z.eqb]. fold (attemptLog f s). fold (requested f s w).
  destruct (envHttp (httpPos w) f s) as [|resp]; [done|].
  destruct (StatusCode resp =? 429).
  - destruct (callApi envHttp fuel f s _) as [[a|c|msg|] w']; done.
  - destruct (decodeOutcome resp); done.
Qed.


(** *** A run of 429 answers followed by another answer *)

Lemma decodeOutcome_cases resp :
  (exists a, decodeOutcome resp = Ret a) \/ (exists m, decodeOutcome resp = Panic m).
Proof.
  unfold decodeOutcome. destruct (400 <=? StatusCode resp); [right; eauto|].
  destruct (Body resp); left; eauto.
Qed.

Lemma finalOutcome_cases r :
  (exists a, finalOutcome r = Ret a) \/ (exists m, finalOutcome r = Panic m).
Proof. destruct r; simpl; [left; eauto | apply decodeOutcome_cases]. Qed.

Lemma callApi_retries k : forall fuel f s w,
  (forall i, (i < k)%nat -> is429 (envHttp (httpPos w + i)%nat f s) = true) ->
  is429 (envHttp (httpPos w + k)%nat f s) = false ->
  (k < fuel)%nat ->
  callApi envHttp fuel f s w =
  (finalOutcome (envHttp (httpPos w + k)%nat f s),
   mkWorld (db w) (localItemsCache w) (randPos w) (iterPos w)
     (httpPos w + k + 1) (dbPos w) (frames w)
     (Nat.max (peakFrames w) (frames w + k + 1))
     (events w
        ++ flat_map (roundEvents envHttp f s) (seq (httpPos w) k)
        ++ [attemptLog f s; EvHttpGet f s]
        ++ closeEvents envHttp f s (httpPos w) k)).
Proof.
  induction k as [|k IH]; intros fuel f s w Hthr Hfin Hfuel;
    (destruct fuel as [|fuel]; [lia|]); rewrite callApi_step.
  - unfold closeEvents. rewrite Nat.add_0_r in *.
    destruct (envHttp (httpPos w) f s) as [|resp] eqn:E; simpl in *.
    + f_equal. destruct w; unfold left, requested; unfoldW.
      f_equal; try lia. now rewrite <- !app_assoc.
    + rewrite Hfin.
      destruct (decodeOutcome_cases resp) as [[a ->]|[m ->]];
        (f_equal; destruct w; unfold unwound, left, requested; unfoldW;
         f_equal; try lia; now rewrite <- !app_assoc).
  - pose proof (Hthr 0%nat ltac:(lia)) as H0. rewrite Nat.add_0_r in H0.
    destruct (envHttp (httpPos w) f s) as [|resp] eqn:E; simpl in H0; [done|].
    rewrite H0. cbv zeta.
    set (w2 := addEvent (EvSleep (retryDelay resp)) (requested f s w)).
    assert (Hp : httpPos w2 = S (httpPos w)) by done.
    rewrite (IH fuel f s w2); try lia.
    + cbn [fst snd]. rewrite Hp.
      replace (S (httpPos w) + k)%nat with (httpPos w + S k)%nat by lia.
      f_equal.
      destruct (finalOutcome_cases (envHttp (httpPos w + S k)%nat f s))
        as [[a ->]|[m ->]];
        (destruct w; unfold unwound, left, requested, closeEvents, roundEvents in *;
         unfoldW; simpl in *; subst w2; unfoldW;
         f_equal; try lia;
         rewrite E, ?Nat.add_succ_r, map_app; simpl;
         rewrite <- ?app_assoc; simpl; now rewrite <- ?app_assoc).
    + intros i Hi. rewrite Hp.
      replace (S (httpPos w) + i)%nat with (httpPos w + S i)%nat by lia.
      apply Hthr. lia.
    + rewrite Hp.
      now replace (S (httpPos w) + k)%nat with (httpPos w + S k)%nat by lia.
Qed.


Lemma requests_rounds f s l :
  requests (flat_map (roundEvents envHttp f s) l) = replicate (length l) (f, s).
Proof. induction l as [|i l IH]; simpl; [done|]. now rewrite <- IH. Qed.

Lemma requests_closes l : requests (map EvBodyClose l) = [].
Proof. induction l; simpl; auto. Qed.

Lemma requests_closeEvents f s p k : requests (closeEvents envHttp f s p k) = [].
Proof.
  unfold closeEvents, requests. rewrite omap_app.
  fold (requests (map EvBodyClose (rev (seq p k)))). rewrite requests_closes.
  destruct (envHttp (p + k)%nat f s); done.
Qed.

Lemma wrap64_id z : minInt64 <= z <= maxInt64 -> wrap64 z = z.
Proof.
  unfold wrap64, minInt64, maxInt64. intros H.
  rewrite Z.mod_small; lia.
Qed.

Lemma retryDelay_exact resp :
  -9223372037 <= retryAfterOf resp <= 9223372035 ->
  retryDelay resp = (retryAfterOf resp + 1) * second.
Proof.
  intros H. unfold retryDelay, second.
  rewrite (wrap64_id (retryAfterOf resp + 1));
    [apply wrap64_id|]; unfold minInt64, maxInt64; lia.
Qed.

(** C4, as amended.  A request that is answered 429 [k] times and then
    otherwise: each round parses Retry-After with [Atoi], taking 60 when
    the header is absent or does not parse, calls [time.Sleep] with
    [retryAfter+1] seconds as a 64-bit duration, which suspends the
    caller for exactly [max 0 (retryAfter+1)] seconds as long as the
    product fits, and sends the same request again; the caller gets the
    outcome of the last answer and nothing of the 429s. *)
Theorem rate_limit_retry (k fuel : nat) (f s : string) (w : World) :
  (forall i, (i < k)%nat -> is429 (envHttp (httpPos w + i)%nat f s) = true) ->
  is429 (envHttp (httpPos w + k)%nat f s) = false ->
  (k < fuel)%nat ->
  let r := callApi envHttp fuel f s w in
  fst r = finalOutcome (envHttp (httpPos w + k)%nat f s)
  /\ httpPos (snd r) = (httpPos w + k + 1)%nat
  /\ (exists evs,
        events (snd r) = events w ++ evs
        /\ evs = flat_map (roundEvents envHttp f s) (seq (httpPos w) k)
                 ++ [attemptLog f s; EvHttpGet f s]
                 ++ closeEvents envHttp f s (httpPos w) k
        /\ requests evs = replicate (S k) (f, s))
  /\ (forall resp,
        delayOf (Response resp) = retryDelay resp
        /\ retryAfterOf resp =
           match RetryAfter resp with
           | Some h => default 60 (Atoi h)
           | None => 60
           end
        /\ (-9223372037 <= retryAfterOf resp <= 9223372035 ->
            slept (retryDelay resp) = Z.max 0 ((retryAfterOf resp + 1) * second))).
Proof.
  intros Hthr Hfin Hfuel r. subst r.
  rewrite (callApi_retries k fuel f s w Hthr Hfin Hfuel). cbn [fst snd httpPos events].
  split; [done|]. split; [done|]. split.
  - eexists. split; [reflexivity|]. split; [reflexivity|].
    unfold requests. rewrite !omap_app.
    fold (requests (flat_map (roundEvents envHttp f s) (seq (httpPos w) k))).
    fold (requests (closeEvents envHttp f s (httpPos w) k)).
    rewrite requests_rounds, requests_closeEvents, length_seq. simpl.
    rewrite ?app_nil_r.
    change ((f, s) :: replicate k (f, s)) with (replicate (S k) (f, s)).
    replace (S k) with (k + 1)%nat by lia.
    now rewrite replicate_add.
  - intros resp. split; [done|]. split.
    + unfold retryAfterOf. destruct (RetryAfter resp) as [h|]; simpl; [|done].
      destruct (Atoi h); done.
    + intros H. now rewrite retryDelay_exact.
Qed.




(** *** [callApi] leaves the store alone *)

Lemma quiet_refl w : quiet w w.
Proof. repeat split; auto. exists []. now rewrite app_nil_r. Qed.

Lemma quiet_trans w1 w2 w3 : quiet w1 w2 -> quiet w2 w3 -> quiet w1 w3.
Proof.
  intros (Hd & Hc & Hp & e1 & He1 & Hx1) (Hd' & Hc' & Hp' & e2 & He2 & Hx2).
  repeat split; try congruence.
  exists (e1 ++ e2). rewrite He2, He1, app_assoc. split; [done|].
  unfold execs in *. now rewrite omap_app, Hx1, Hx2.
Qed.

Lemma quiet_requested f s w : quiet w (requested f s w).
Proof.
  unfold requested. unfoldW. repeat split; auto.
  exists [attemptLog f s; EvHttpGet f s]. now rewrite <- app_assoc.
Qed.

Lemma quiet_sleep d w : quiet w (addEvent (EvSleep d) w).
Proof. unfoldW. repeat split; auto. now exists [EvSleep d]. Qed.

Lemma quiet_log lvl args w : quiet w (addEvent (EvLog lvl args) w).
Proof. unfoldW. repeat split; auto. now exists [EvLog lvl args]. Qed.

Lemma quiet_left w : quiet w (left w).
Proof. unfold left. unfoldW. repeat split; auto. exists []. now rewrite app_nil_r. Qed.

Lemma quiet_unwound {A} call (o : outcome A) w : quiet w (unwound call o w).
Proof.
  assert (quiet w (left (addEvent (EvBodyClose call) w))).
  { eapply quiet_trans; [|apply quiet_left].
    unfoldW. repeat split; auto. now exists [EvBodyClose call]. }
  destruct o; simpl; auto using quiet_refl.
Qed.

Lemma callApi_quiet fuel : forall f s w,
  quiet w (snd (callApi envHttp fuel f s w))
  /\ forall c, fst (callApi envHttp fuel f s w) <> Exit c.
Proof.
  induction fuel as [|fuel IH]; intros f s w.
  - simpl. unfoldM. simpl. split; [apply quiet_refl|done].
  - rewrite callApi_step.
    destruct (envHttp (httpPos w) f s) as [|resp]; simpl.
    + split; [|done]. eapply quiet_trans; [apply quiet_requested|apply quiet_left].
    + destruct (StatusCode resp =? 429); simpl.
      * destruct (IH f s (addEvent (EvSleep (retryDelay resp)) (requested f s w)))
          as [Hq Hx].
        split; [|done].
        eapply quiet_trans; [apply quiet_requested|].
        eapply quiet_trans; [apply quiet_sleep|].
        eapply quiet_trans; [apply Hq|apply quiet_unwound].
      * split.
        -- eapply quiet_trans; [apply quiet_requested|apply quiet_unwound].
        -- destruct (decodeOutcome_cases resp) as [[a ->]|[m ->]]; done.
Qed.

Lemma insertCombination_run f s r w :
  insertCombination envFault f s r w =
  let w1 :=
    setDbPos (S (dbPos w))
      (addEvent
         (EvLog DebugLevel
            [LStr "Inserting combination: %s, %s, %s"; LStr f; LStr s; LStr r]) w) in
  let fatal er :=
    (Exit 1,
     addEvent (EvLog FatalLevel [LStr "Failed to insert combination: "; LErr er]) w1) in
  if envFault (dbPos w) then fatal (ErrStore IOFailure)
  else
    match applyStmt (InsertCombination f s r) (db w) with
    | inl e => fatal (ErrStore e)
    | inr st => (Ret tt, addEvent (EvExec (InsertCombination f s r) st) (setDb st w1))
    end.
Proof.
  unfold insertCombination, dbExec, storeFault. unfoldM. cbn -[applyStmt].
  destruct (envFault (dbPos w)); cbn -[applyStmt]; [done|].
  destruct (applyStmt _ _); done.
Qed.





(** *** Drawing a pair *)

Hypothesis envIter_perm : forall k m, envIter k m ≡ₚ elements (dom m).

Lemma keysOf_length w : length (keysOf envIter w) = cacheSize w.
Proof.
  unfold keysOf, cacheSize. destruct (localItemsCache w) as [m|]; [|done].
  rewrite envIter_perm. rewrite <- size_dom. reflexivity.
Qed.

Lemma keysOf_NoDup w : NoDup (keysOf envIter w).
Proof.
  unfold keysOf. destruct (localItemsCache w) as [m|]; [|constructor].
  rewrite envIter_perm. apply NoDup_elements.
Qed.

Lemma keysOf_dom w a :
  a ∈ keysOf envIter w -> exists m, localItemsCache w = Some m /\ a ∈ dom m.
Proof.
  unfold keysOf. destruct (localItemsCache w) as [m|]; [|by intros ?%elem_of_nil].
  rewrite envIter_perm, elem_of_elements. eauto.
Qed.

Lemma redraw_sound fuel : forall n fi si w o w',
  0 < n ->
  0 <= si < n ->
  redraw envRand fuel n fi si w = (o, w') ->
  w' = setRandPos (randPos w') w
  /\ (o = OutOfFuel \/ exists s', o = Ret s' /\ s' <> fi /\ 0 <= s' < n).
Proof.
  induction fuel as [|fuel IH]; intros n fi si w o w' Hn Hsi; simpl;
    (destruct (si =? fi) eqn:E; [|intros [= <- <-]; split;
       [by destruct w|right; exists si; repeat split; lia]]).
  - unfoldM. intros [= <- <-]. split; [by destruct w|by left].
  - unfoldM. unfold randIntn.
    destruct (n <=? 0) eqn:En; [lia|].
    intros Hr.
    assert (Hs : 0 <= envRand (randPos w) mod n < n) by (apply Z.mod_pos_bound; lia).
    destruct (IH _ _ _ _ _ _ Hn Hs Hr) as [Hw Ho].
    split; [|done]. rewrite Hw. by destruct w.
Qed.

Lemma redraw_terminates k : forall fuel n fi si w,
  0 < n ->
  envRand (randPos w + k)%nat mod n <> fi ->
  (k < fuel)%nat ->
  exists s' w', redraw envRand fuel n fi si w = (Ret s', w').
Proof.
  induction k as [|k IH]; intros fuel n fi si w Hn Hk Hfuel;
    (destruct fuel as [|fuel]; [lia|]); simpl;
    (destruct (si =? fi) eqn:E; [|by eauto]);
    unfoldM; unfold randIntn; (destruct (n <=? 0) eqn:En; [lia|]).
  - rewrite Nat.add_0_r in Hk. destruct fuel; simpl.
    + apply Z.eqb_neq in Hk. rewrite Hk. eauto.
    + apply Z.eqb_neq in Hk. rewrite Hk. eauto.
  - apply IH; try done; [|lia]. unfoldW. destruct w; simpl in *.
    now rewrite Nat.add_succ_r in Hk.
Qed.

Lemma getRandomItems_run fuel w :
  getRandomItems envRand envIter fuel w =
  let keys := keysOf envIter w in
  let n := Z.of_nat (length keys) in
  let w1 := setIterPos (S (iterPos w)) w in
  if n <? 2 then (Ret ("", "", Some ErrNotEnoughItems), w1)
  else
    let fi := envRand (randPos w) mod n in
    match redraw envRand fuel n fi fi (setRandPos (S (randPos w)) w1) with
    | (Ret si, w2) =>
        match keys !! Z.to_nat fi, keys !! Z.to_nat si with
        | Some a, Some b => (Ret (a, b, None), w2)
        | _, _ => (Panic "index out of range", w2)
        end
    | (Exit c, w2) => (Exit c, w2)
    | (Panic msg, w2) => (Panic msg, w2)
    | (OutOfFuel, w2) => (OutOfFuel, w2)
    end.
Proof.
  unfold getRandomItems, cacheKeys, randIntn, index. unfoldM. cbv zeta.
  fold (keysOf envIter w).
  destruct (Z.of_nat (length (keysOf envIter w)) <? 2) eqn:E; [done|].
  apply Z.ltb_ge in E.
  destruct (Z.of_nat (length (keysOf envIter w)) <=? 0) eqn:E0; [lia|].
  cbn [randPos setIterPos].
  set (n := Z.of_nat (length (keysOf envIter w))) in *.
  set (fi := envRand (randPos w) mod n).
  assert (Hfi : 0 <= fi < n) by (apply Z.mod_pos_bound; lia).
  destruct (redraw envRand fuel n fi fi _) as [[si|c|msg|] w2] eqn:Hr; try done.
  apply redraw_sound in Hr as [_ [?|(s' & [= <-] & Hne & Hs')]]; try done; try lia.
  destruct (fi <? 0) eqn:E1; [lia|]. destruct (si <? 0) eqn:E2; [lia|].
  destruct (keysOf envIter w !! Z.to_nat fi) as [a|] eqn:Ha;
    destruct (keysOf envIter w !! Z.to_nat si) as [b|] eqn:Hb; done.
Qed.


Lemma getRandomItems_frame fuel w o w' :
  getRandomItems envRand envIter fuel w = (o, w') ->
  w' = setRandPos (randPos w') (setIterPos (S (iterPos w)) w).
Proof.
  rewrite getRandomItems_run. cbv zeta.
  destruct (_ <? 2) eqn:E; [intros [= <- <-]; by destruct w|].
  apply Z.ltb_ge in E.
  set (n := Z.of_nat (length (keysOf envIter w))) in *.
  destruct (redraw envRand fuel n _ _ _) as [o2 w2] eqn:Hr.
  apply redraw_sound in Hr as [Hw _]; [| lia | apply Z.mod_pos_bound; lia].
  assert (Hw2 : w2 = setRandPos (randPos w2) (setIterPos (S (iterPos w)) w))
    by (rewrite Hw; by destruct w).
  destruct o2 as [si|c|msg|]; try (intros [= <- <-]; exact Hw2).
  destruct (_ !! Z.to_nat _); [destruct (_ !! Z.to_nat si)|];
    intros [= <- <-]; exact Hw2.
Qed.

Lemma getRandomItems_sound (fuel : nat) (w : World) o w' :
  (2 <= cacheSize w)%nat ->
  getRandomItems envRand envIter fuel w = (o, w') ->
  o = OutOfFuel
  \/ exists a b m,
       o = Ret (a, b, None) /\ a <> b
       /\ localItemsCache w = Some m /\ a ∈ dom m /\ b ∈ dom m.
Proof.
  intros H. rewrite getRandomItems_run. cbv zeta. rewrite keysOf_length.
  destruct (_ <? 2) eqn:E; [apply Z.ltb_lt in E; lia|].
  set (n := Z.of_nat (cacheSize w)) in *.
  set (fi := envRand (randPos w) mod n).
  assert (Hfi : 0 <= fi < n) by (apply Z.mod_pos_bound; lia).
  destruct (redraw envRand fuel n fi fi _) as [o2 w2] eqn:Hr.
  apply redraw_sound in Hr as [_ [->|(si & -> & Hne & Hsi)]]; [| |lia|done].
  { intros [= <- <-]. by left. }
  destruct (lookup_lt_is_Some_2 (keysOf envIter w) (Z.to_nat fi)) as [a Ha];
    [rewrite keysOf_length; lia|].
  destruct (lookup_lt_is_Some_2 (keysOf envIter w) (Z.to_nat si)) as [b Hb];
    [rewrite keysOf_length; lia|].
  rewrite Ha, Hb. intros [= <- <-]. right.
  destruct (keysOf_dom w a) as (m & Hm & Hain); [by eapply list_elem_of_lookup_2|].
  destruct (keysOf_dom w b) as (m' & Hm' & Hbin); [by eapply list_elem_of_lookup_2|].
  exists a, b, m. repeat split; auto; [|congruence].
  intros <-.
  pose proof (NoDup_lookup _ _ _ _ (keysOf_NoDup w) Ha Hb). lia.
Qed.

Lemma getRandomItems_terminates (fuel : nat) (w : World) k :
  (2 <= cacheSize w)%nat ->
  envRand (randPos w + 1 + k)%nat mod Z.of_nat (cacheSize w)
    <> envRand (randPos w) mod Z.of_nat (cacheSize w) ->
  (k < fuel)%nat ->
  exists a b w', getRandomItems envRand envIter fuel w = (Ret (a, b, None), w').
Proof.
  intros H Hk Hfuel. rewrite getRandomItems_run. cbv zeta. rewrite keysOf_length.
  destruct (_ <? 2) eqn:E; [apply Z.ltb_lt in E; lia|].
  set (n := Z.of_nat (cacheSize w)) in *.
  set (fi := envRand (randPos w) mod n) in *.
  assert (Hfi : 0 <= fi < n) by (apply Z.mod_pos_bound; lia).
  destruct (redraw_terminates k fuel n fi fi
              (setRandPos (S (randPos w)) (setIterPos (S (iterPos w)) w)))
    as (si & w2 & Hr); [lia| |done|].
  { destruct w; unfoldW.
    now replace (S randPos0 + k)%nat with (randPos0 + 1 + k)%nat by lia. }
  rewrite Hr.
  apply redraw_sound in Hr as [_ [?|(si' & [= <-] & Hne & Hsi)]]; [done| |lia|done].
  destruct (lookup_lt_is_Some_2 (keysOf envIter w) (Z.to_nat fi)) as [a Ha];
    [rewrite keysOf_length; lia|].
  destruct (lookup_lt_is_Some_2 (keysOf envIter w) (Z.to_nat si)) as [b Hb];
    [rewrite keysOf_length; lia|].
  rewrite Ha, Hb. eauto.
Qed.

(** C7: drawing two entries.  With fewer than two keys in the cache
    [getRandomItems] returns the "not enough items" error at once.  With
    two or more it never returns an error and never returns the same key
    twice: a pair it returns consists of two different keys of the
    cache; and it does return as soon as the random source produces an
    index other than the first one drawn. *)
Theorem sampling_guard (fuel : nat) (w : World) :
  ((cacheSize w < 2)%nat ->
   getRandomItems envRand envIter fuel w
   = (Ret ("", "", Some ErrNotEnoughItems), setIterPos (S (iterPos w)) w))
  /\ ((2 <= cacheSize w)%nat ->
      (forall o w',
          getRandomItems envRand envIter fuel w = (o, w') ->
          o = OutOfFuel
          \/ exists a b m,
               o = Ret (a, b, None) /\ a <> b
               /\ localItemsCache w = Some m /\ a ∈ dom m /\ b ∈ dom m)
      /\ (forall k,
             envRand (randPos w + 1 + k)%nat mod Z.of_nat (cacheSize w)
               <> envRand (randPos w) mod Z.of_nat (cacheSize w) ->
             (k < fuel)%nat ->
             exists a b w',
               getRandomItems envRand envIter fuel w = (Ret (a, b, None), w'))).
Proof.
  split.
  - intros H. rewrite getRandomItems_run. cbv zeta. rewrite keysOf_length.
    destruct (_ <? 2) eqn:E; [done|]. apply Z.ltb_ge in E. lia.
  - intros H. split.
    + intros o w'. now apply getRandomItems_sound.
    + intros k. now apply getRandomItems_terminates.
Qed.


(** *** The loop *)

Lemma combinationExists_run f s w :
  combinationExists envFault f s w =
  let w1 := setDbPos (S (dbPos w)) w in
  if envFault (dbPos w) then (Ret (false, Some (ErrStore IOFailure)), w1)
  else
    match combinations (db w) with
    | Some rows => (Ret (0 <? countPair f s rows, None), w1)
    | None => (Ret (false, Some (ErrStore NoSuchTable)), w1)
    end.
Proof.
  unfold combinationExists, dbCountPair, storeFault. unfoldM. cbv zeta.
  destruct (envFault (dbPos w)); [done|].
  destruct w as [[its [cs|]] ? ? ? ? ? ? ? ?]; done.
Qed.

Lemma iteration_run gas c a w :
  iteration envRand envIter envHttp envFault gas c a w =
  match getRandomItems envRand envIter gas w with
  | (Ret (f, s, Some e), w1) => (Ret None, addEvent (samplingFailed e) w1)
  | (Ret (f, s, None), w1) =>
      match combinationExists envFault f s w1 with
      | (Ret (_, Some e), w2) => (Ret None, addEvent (checkFailed e) w2)
      | (Ret (true, None), w2) =>
          (Ret (Some (c, wrap64 (a + 1))), addEvent pacingSleep w2)
      | (Ret (false, None), w2) =>
          match combineElements envHttp envFault gas f s w2 with
          | (Ret _, w3) =>
              (Ret (Some (wrap64 (c + 1), wrap64 (a + 1))), addEvent pacingSleep w3)
          | (Exit x, w3) => (Exit x, w3)
          | (Panic msg, w3) => (Panic msg, w3)
          | (OutOfFuel, w3) => (OutOfFuel, w3)
          end
      | (Exit x, w2) => (Exit x, w2)
      | (Panic msg, w2) => (Panic msg, w2)
      | (OutOfFuel, w2) => (OutOfFuel, w2)
      end
  | (Exit x, w1) => (Exit x, w1)
  | (Panic msg, w1) => (Panic msg, w1)
  | (OutOfFuel, w1) => (OutOfFuel, w1)
  end.
Proof.
  unfold iteration. unfoldM.
  destruct (getRandomItems envRand envIter gas w) as [[[[f s] [e|]]|x|msg|] w1]; try done.
  destruct (combinationExists envFault f s w1) as [[[[|] [e|]]|x|msg|] w2]; try done.
  simpl.
  destruct (combineElements envHttp envFault gas f s w2) as [[[]|x|msg|] w3]; done.
Qed.

Lemma exploreLoop_step fuel gas maxC maxA c a w :
  c < maxC -> a < maxA ->
  exploreLoop envRand envIter envHttp envFault (S fuel) gas maxC maxA c a w =
  match iteration envRand envIter envHttp envFault gas c a w with
  | (Ret (Some (c', a')), w') =>
      exploreLoop envRand envIter envHttp envFault fuel gas maxC maxA c' a' w'
  | (Ret None, w') => (Ret (Aborted, c, a), w')
  | (Exit x, w') => (Exit x, w')
  | (Panic msg, w') => (Panic msg, w')
  | (OutOfFuel, w') => (OutOfFuel, w')
  end.
Proof.
  intros Hc Ha. cbn [exploreLoop].
  apply Z.ltb_lt in Hc, Ha. rewrite Hc, Ha. cbn [andb]. unfoldM.
  destruct (iteration _ _ _ _ _ _ _ _) as [[[[c' a']|]|x|msg|] w']; done.
Qed.

Lemma exploreLoop_done fuel gas maxC maxA c a w :
  ~ (c < maxC /\ a < maxA) ->
  exploreLoop envRand envIter envHttp envFault fuel gas maxC maxA c a w =
  (Ret (Exhausted, c, a), w).
Proof.
  intros H.
  assert (E : (c <? maxC) && (a <? maxA) = false).
  { apply andb_false_iff. rewrite !Z.ltb_ge. lia. }
  destruct fuel; cbn [exploreLoop]; rewrite E; done.
Qed.

Lemma pacingSleep_value : pacingSleep = EvSleep 50000000.
Proof. reflexivity. Qed.

Lemma iteration_seen (gas : nat) (c a : Z) (f s : string) (w w1 w2 : World) :
  getRandomItems envRand envIter gas w = (Ret (f, s, None), w1) ->
  combinationExists envFault f s w1 = (Ret (true, None), w2) ->
  exists w3,
    iteration envRand envIter envHttp envFault gas c a w
    = (Ret (Some (c, wrap64 (a + 1))), w3)
    /\ db w3 = db w
    /\ localItemsCache w3 = localItemsCache w
    /\ httpPos w3 = httpPos w
    /\ events w3 = events w ++ [EvSleep 50000000]
    /\ requests (events w3) = requests (events w)
    /\ execs (events w3) = execs (events w).
Proof.
  intros Hg Hc. rewrite iteration_run, Hg, Hc.
  eexists. split; [reflexivity|].
  apply getRandomItems_frame in Hg.
  rewrite combinationExists_run in Hc. cbv zeta in Hc.
  assert (Hw2 : w2 = setDbPos (S (dbPos w1)) w1).
  { destruct (envFault (dbPos w1)); [done|].
    destruct (combinations (db w1)); inversion Hc; reflexivity. }
  rewrite pacingSleep_value, Hw2, Hg. clear. destruct w, w1. unfoldW.
  repeat split; auto.
  - unfold requests. rewrite omap_app. apply app_nil_r.
  - unfold execs. rewrite omap_app. apply app_nil_r.
Qed.

(** C3: an iteration whose pair is already recorded.  When the pair
    that [getRandomItems] returned is reported as existing by
    [combinationExists], the iteration ends with the count of created
    combinations as it was and the count of attempts one higher; no
    request has gone out, the store and the cache are as before, and
    the only event is the pacing sleep of 50 ms. *)
Theorem seen_pair_is_skipped (gas : nat) (c a : Z) (f s : string) (w w1 w2 : World) :
  getRandomItems envRand envIter gas w = (Ret (f, s, None), w1) ->
  combinationExists envFault f s w1 = (Ret (true, None), w2) ->
  minInt64 <= a < maxInt64 ->
  exists w3,
    iteration envRand envIter envHttp envFault gas c a w = (Ret (Some (c, a + 1)), w3)
    /\ db w3 = db w
    /\ localItemsCache w3 = localItemsCache w
    /\ httpPos w3 = httpPos w
    /\ events w3 = events w ++ [EvSleep 50000000]
    /\ requests (events w3) = requests (events w)
    /\ execs (events w3) = execs (events w).
Proof.
  intros Hg Hc Ha.
  destruct (iteration_seen gas c a f s w w1 w2 Hg Hc) as (w3 & Hit & Hrest).
  rewrite (wrap64_id (a + 1)) in Hit by (unfold minInt64, maxInt64 in *; lia).
  exists w3. split; [exact Hit|exact Hrest].
Qed.


Lemma exploreLoop_zero gas maxC maxA c a w :
  c < maxC -> a < maxA ->
  exploreLoop envRand envIter envHttp envFault 0 gas maxC maxA c a w = (OutOfFuel, w).
Proof.
  intros Hc Ha. cbn [exploreLoop].
  apply Z.ltb_lt in Hc, Ha. rewrite Hc, Ha. done.
Qed.

Lemma iteration_abort_event gas c a w w' :
  iteration envRand envIter envHttp envFault gas c a w = (Ret None, w') ->
  exists pre msg e, events w' = pre ++ [EvLog ErrorLevel [LStr msg; LErr e]].
Proof.
  rewrite iteration_run.
  destruct (getRandomItems envRand envIter gas w) as [[[[f s] [e|]]|x|msg|] w1]; try done.
  { intros [= <-]. destruct w1. unfoldW. eauto. }
  destruct (combinationExists envFault f s w1) as [[[[|] [e|]]|x|msg|] w2]; try done.
  1,2: intros [= <-]; destruct w2; unfoldW; eauto.
  destruct (combineElements envHttp envFault gas f s w2) as [[[]|x|msg|] w3]; done.
Qed.

Lemma exploreLoop_aborted fuel : forall gas maxC maxA c a w c' a' w',
  exploreLoop envRand envIter envHttp envFault fuel gas maxC maxA c a w
  = (Ret (Aborted, c', a'), w') ->
  exists pre msg e, events w' = pre ++ [EvLog ErrorLevel [LStr msg; LErr e]].
Proof.
  induction fuel as [|fuel IH]; intros gas maxC maxA c a w c' a' w';
    (destruct (decide (c < maxC /\ a < maxA)) as [[Hc Ha]|Hn];
     [|rewrite exploreLoop_done by done; done]).
  - rewrite exploreLoop_zero by done. done.
  - rewrite exploreLoop_step by done.
    destruct (iteration _ _ _ _ _ _ _ _) as [[[[c1 a1]|]|x|msg|] w1] eqn:Hit; try done.
    + apply IH.
    + intros [= <- <- <-]. eapply iteration_abort_event, Hit.
Qed.

(** C8, as amended.  When drawing the pair fails, or the check for an
    existing combination returns an error, the loop stops there with
    its counters as they were, having logged the error at level Error;
    nothing is written and the process does not exit.  A run of
    [exploreCombinations] that is ended this way returns to its caller,
    and the last line it has logged is that error line: the line with
    the totals is only logged when the loop ends on its condition. *)
Theorem abort_is_clean (fuel gas : nat) (maxC maxA c a : Z) (w : World) :
  c < maxC -> a < maxA ->
  (forall f s e w1,
      getRandomItems envRand envIter gas w = (Ret (f, s, Some e), w1) ->
      exploreLoop envRand envIter envHttp envFault (S fuel) gas maxC maxA c a w
      = (Ret (Aborted, c, a), addEvent (samplingFailed e) w1)
      /\ db w1 = db w)
  /\ (forall f s b e w1 w2,
         getRandomItems envRand envIter gas w = (Ret (f, s, None), w1) ->
         combinationExists envFault f s w1 = (Ret (b, Some e), w2) ->
         exploreLoop envRand envIter envHttp envFault (S fuel) gas maxC maxA c a w
         = (Ret (Aborted, c, a), addEvent (checkFailed e) w2)
         /\ db w2 = db w)
  /\ (forall c' a' w',
         exploreLoop envRand envIter envHttp envFault fuel fuel maxC maxA 0 0 w
         = (Ret (Aborted, c', a'), w') ->
         exploreCombinations envRand envIter envHttp envFault fuel maxC maxA w
         = (Ret tt, w')
         /\ exists pre msg e,
              events w' = pre ++ [EvLog ErrorLevel [LStr msg; LErr e]]
              /\ reportsCount (EvLog ErrorLevel [LStr msg; LErr e]) = false).
Proof.
  intros Hc Ha. split; [|split].
  - intros f s e w1 Hg. rewrite exploreLoop_step, iteration_run, Hg by done.
    split; [done|]. apply getRandomItems_frame in Hg. rewrite Hg. by destruct w.
  - intros f s b e w1 w2 Hg Hx.
    rewrite exploreLoop_step, iteration_run, Hg, Hx by done.
    split; [by destruct b|]. apply getRandomItems_frame in Hg.
    rewrite combinationExists_run in Hx. cbv zeta in Hx.
    assert (Hw2 : w2 = setDbPos (S (dbPos w1)) w1).
    { destruct (envFault (dbPos w1)); [inversion Hx; reflexivity|].
      destruct (combinations (db w1)); inversion Hx; reflexivity. }
    rewrite Hw2, Hg. by destruct w.
  - intros c' a' w' Hl. unfold exploreCombinations. unfoldM. rewrite Hl.
    split; [done|].
    destruct (exploreLoop_aborted _ _ _ _ _ _ _ _ _ _ Hl) as (pre & msg & e & He).
    exists pre, msg, e. done.
Qed.


(** *** More fuel changes nothing once a draw has returned *)

Lemma redraw_mono fuel : forall fuel' n fi si w s' w',
  redraw envRand fuel n fi si w = (Ret s', w') ->
  (fuel <= fuel')%nat ->
  redraw envRand fuel' n fi si w = (Ret s', w').
Proof.
  induction fuel as [|fuel IH]; intros fuel' n fi si w s' w'; simpl;
    destruct (si =? fi) eqn:E; try done.
  - intros H _. destruct fuel'; simpl; rewrite E; done.
  - destruct fuel' as [|fuel']; [lia|]. simpl. rewrite E.
    unfoldM. unfold randIntn. destruct (n <=? 0); [done|].
    intros H Hle. apply IH; [done|lia].
  - intros H _. destruct fuel'; simpl; rewrite E; done.
Qed.

Lemma getRandomItems_mono fuel fuel' w r w' :
  getRandomItems envRand envIter fuel w = (Ret r, w') ->
  (fuel <= fuel')%nat ->
  getRandomItems envRand envIter fuel' w = (Ret r, w').
Proof.
  rewrite !getRandomItems_run. cbv zeta.
  destruct (_ <? 2); [done|].
  destruct (redraw envRand fuel _ _ _ _) as [[si|x|msg|] w2] eqn:Hr; try done.
  intros H Hle. now rewrite (redraw_mono _ _ _ _ _ _ _ _ Hr Hle).
Qed.

(** *** The counters stay within the budgets *)

Lemma iteration_counters gas c a w c' a' w' :
  iteration envRand envIter envHttp envFault gas c a w = (Ret (Some (c', a')), w') ->
  (c' = c \/ c' = wrap64 (c + 1)) /\ a' = wrap64 (a + 1).
Proof.
  rewrite iteration_run.
  destruct (getRandomItems envRand envIter gas w) as [[[[f s] [e|]]|x|msg|] w1]; try done.
  destruct (combinationExists envFault f s w1) as [[[[|] [e|]]|x|msg|] w2]; try done.
  { intros [= <- <- <-]. auto. }
  destruct (combineElements envHttp envFault gas f s w2) as [[[]|x|msg|] w3]; try done.
  intros [= <- <- <-]. auto.
Qed.

Lemma exploreLoop_bounds fuel : forall gas maxC maxA c a w how c' a' w',
  maxC <= maxInt64 -> maxA <= maxInt64 ->
  0 <= c <= maxC -> 0 <= a <= maxA ->
  exploreLoop envRand envIter envHttp envFault fuel gas maxC maxA c a w
  = (Ret (how, c', a'), w') ->
  0 <= c' <= maxC /\ 0 <= a' <= maxA
  /\ (how = Exhausted -> c' = maxC \/ a' = maxA).
Proof.
  induction fuel as [|fuel IH]; intros gas maxC maxA c a w how c' a' w' HC HA Hc Ha;
    (destruct (decide (c < maxC /\ a < maxA)) as [[Hc' Ha']|Hn];
     [|rewrite exploreLoop_done by done; intros [= <- <- <- <-];
       repeat split; try lia]).
  - rewrite exploreLoop_zero by done. done.
  - rewrite exploreLoop_step by done.
    destruct (iteration _ _ _ _ _ _ _ _) as [[[[c1 a1]|]|x|msg|] w1] eqn:Hit; try done.
    + apply iteration_counters in Hit as [Hc1 ->].
      rewrite (wrap64_id (a + 1)) by (unfold minInt64, maxInt64 in *; lia).
      rewrite (wrap64_id (c + 1)) in Hc1 by (unfold minInt64, maxInt64 in *; lia).
      apply IH; try done; lia.
    + intros [= <- <- <- <-]. repeat split; try lia. done.
Qed.

(** *** A store in which every pair is explored *)

Lemma allExplored_spec keys rows a b :
  allExplored keys rows = true ->
  a ∈ keys -> b ∈ keys -> a <> b ->
  (0 <? countPair a b rows) = true.
Proof.
  unfold allExplored. rewrite forallb_forall. intros H Ha Hb Hne.
  apply list_elem_of_In in Ha, Hb.
  specialize (H a Ha). rewrite forallb_forall in H. specialize (H b Hb).
  apply orb_true_iff in H as [H|H]; [|done].
  apply String.eqb_eq in H. done.
Qed.

Lemma explored_iteration (c a : Z) (w : World) m rows :
  localItemsCache w = Some m ->
  (2 <= size m)%nat ->
  combinations (db w) = Some rows ->
  allExplored (elements (dom m)) rows = true ->
  (forall k, envFault k = false) ->
  (forall p, exists k,
      envRand (p + 1 + k)%nat mod Z.of_nat (size m)
      <> envRand p mod Z.of_nat (size m)) ->
  minInt64 <= a < maxInt64 ->
  exists gas0 w3,
    (forall gas, (gas0 <= gas)%nat ->
       iteration envRand envIter envHttp envFault gas c a w
       = (Ret (Some (c, a + 1)), w3))
    /\ db w3 = db w
    /\ localItemsCache w3 = localItemsCache w
    /\ httpPos w3 = httpPos w
    /\ requests (events w3) = requests (events w)
    /\ execs (events w3) = execs (events w)
    /\ events w3 = events w ++ [pacingSleep]
    /\ iterPos w3 = S (iterPos w)
    /\ dbPos w3 = S (dbPos w).
Proof.
  intros Hm Hsz Hrows Hall Hnf Hfair Ha.
  assert (Hcs : cacheSize w = size m) by (unfold cacheSize; now rewrite Hm).
  destruct (Hfair (randPos w)) as [k Hk].
  destruct (getRandomItems_terminates (S k) w k) as (x & y & w1 & Hg);
    [lia|now rewrite Hcs|lia|].
  assert (Hsz' : (2 <= cacheSize w)%nat) by lia.
  destruct (getRandomItems_sound _ _ _ _ Hsz' Hg)
    as [?|(x' & y' & m' & [= <- <-] & Hne & Hm' & Hx & Hy)]; [done|].
  assert (m' = m) as -> by congruence.
  pose proof (getRandomItems_frame _ _ _ _ Hg) as Hw1.
  assert (Hce : combinationExists envFault x y w1
                = (Ret (true, None), setDbPos (S (dbPos w1)) w1)).
  { rewrite combinationExists_run. cbv zeta. rewrite Hnf.
    replace (combinations (db w1)) with (Some rows)
      by (rewrite Hw1, <- Hrows; by destruct w).
    rewrite (allExplored_spec _ _ x y Hall); auto; by apply elem_of_elements. }
  destruct (iteration_seen (S k) c a x y w w1 _ Hg Hce)
    as (w3 & Hit & Hdb & Hca & Hhp & Hev & Hrq & Hex).
  rewrite (wrap64_id (a + 1)) in Hit by (unfold minInt64, maxInt64 in *; lia).
  rewrite iteration_run, Hg, Hce in Hit.
  assert (Hw3 : w3 = addEvent pacingSleep (setDbPos (S (dbPos w1)) w1))
    by (by injection Hit).
  exists (S k), w3.
  split; [|split; [done|split; [done|split; [done|split; [done|split; [done|]]]]]].
  - intros gas Hgas.
    pose proof (getRandomItems_mono _ _ _ _ _ Hg Hgas) as Hg'.
    rewrite iteration_run, Hg', Hce. exact Hit.
  - split; [by rewrite pacingSleep_value|].
    rewrite Hw3, Hw1. clear. destruct w, w1. unfoldW. done.
Qed.

Lemma explored_loop n : forall (maxC maxA c a : Z) (w : World) m rows,
  localItemsCache w = Some m ->
  (2 <= size m)%nat ->
  combinations (db w) = Some rows ->
  allExplored (elements (dom m)) rows = true ->
  (forall k, envFault k = false) ->
  (forall p, exists k,
      envRand (p + 1 + k)%nat mod Z.of_nat (size m)
      <> envRand p mod Z.of_nat (size m)) ->
  c < maxC -> 0 <= a <= maxA -> maxA <= maxInt64 ->
  Z.to_nat (maxA - a) = n ->
  exists fuel0 w',
    (forall fuel gas, (fuel0 <= fuel)%nat -> (fuel0 <= gas)%nat ->
       exploreLoop envRand envIter envHttp envFault fuel gas maxC maxA c a w
       = (Ret (Exhausted, c, maxA), w'))
    /\ db w' = db w
    /\ localItemsCache w' = localItemsCache w
    /\ httpPos w' = httpPos w
    /\ requests (events w') = requests (events w)
    /\ execs (events w') = execs (events w)
    /\ events w' = events w ++ replicate n pacingSleep
    /\ iterPos w' = (iterPos w + n)%nat
    /\ dbPos w' = (dbPos w + n)%nat.
Proof.
  induction n as [|n IH];
    intros maxC maxA c a w m rows Hm Hsz Hrows Hall Hnf Hfair Hc Ha HA Hn.
  - exists 0%nat, w.
    split; [|by rewrite app_nil_r, !Nat.add_0_r].
    intros fuel gas _ _. rewrite exploreLoop_done by lia.
    repeat f_equal. lia.
  - destruct (explored_iteration c a w m rows)
      as (gas0 & w3 & Hit & Hdb & Hca & Hhp & Hrq & Hex & Hev & Hip & Hdp); auto.
    { unfold minInt64, maxInt64 in *. lia. }
    destruct (IH maxC maxA c (a + 1) w3 m rows)
      as (fuel0 & w' & Hloop & Hdb' & Hca' & Hhp' & Hrq' & Hex' & Hev' & Hip' & Hdp');
      auto; try congruence; try lia.
    exists (S (Nat.max gas0 fuel0)), w'.
    split; [|split; [congruence|split; [congruence|split; [congruence|
             split; [congruence|split; [congruence|]]]]]].
    + intros fuel gas Hfuel Hgas. destruct fuel as [|fuel]; [lia|].
      rewrite exploreLoop_step by lia. rewrite Hit by lia. apply Hloop; lia.
    + rewrite Hev', Hev, Hip', Hip, Hdp', Hdp, <- app_assoc.
      split; [done|]. lia.
Qed.

(** C2, as amended.  With budgets that are not negative, the loop runs
    an iteration only while both counters are below their budgets and
    ends as soon as one of them is reached: from counters of which one
    has reached its budget it returns at once and leaves the world as
    it is, and an iteration that brings a counter to its budget is the
    last.  A loop that ends on its condition has one of the two
    counters equal to its budget and neither beyond it.  On a store in
    which every ordered pair of different cached keys has a combination
    row, when at least one success is allowed, the run makes exactly
    [maxAttempts] iterations and no success: [maxAttempts] draws,
    [maxAttempts] existence checks and [maxAttempts] pacing sleeps, no
    request and no write, and the totals logged are (0, maxAttempts).
    With [maxCombinations = 0] the loop is not entered. *)
Theorem attempt_ceiling (maxC maxA : Z) (w : World) m rows :
  0 <= maxC <= maxInt64 -> 0 <= maxA <= maxInt64 ->
  (forall fuel gas c a w0,
      maxC <= c \/ maxA <= a ->
      exploreLoop envRand envIter envHttp envFault fuel gas maxC maxA c a w0
      = (Ret (Exhausted, c, a), w0))
  /\ (forall fuel gas c a w0 c1 a1 w1,
        c < maxC -> a < maxA ->
        iteration envRand envIter envHttp envFault gas c a w0
        = (Ret (Some (c1, a1)), w1) ->
        exploreLoop envRand envIter envHttp envFault (S fuel) gas maxC maxA c a w0
        = exploreLoop envRand envIter envHttp envFault fuel gas maxC maxA c1 a1 w1
        /\ (maxC <= c1 \/ maxA <= a1 ->
            exploreLoop envRand envIter envHttp envFault (S fuel) gas maxC maxA c a w0
            = (Ret (Exhausted, c1, a1), w1)))
  /\ (forall fuel gas how c' a' w',
        exploreLoop envRand envIter envHttp envFault fuel gas maxC maxA 0 0 w
        = (Ret (how, c', a'), w') ->
        0 <= c' <= maxC /\ 0 <= a' <= maxA
        /\ (how = Exhausted -> c' = maxC \/ a' = maxA))
  /\ (maxC = 0 ->
      forall fuel,
        exploreCombinations envRand envIter envHttp envFault fuel maxC maxA w
        = (Ret tt, addEvent (finished 0 0) w))
  /\ (0 < maxC ->
      localItemsCache w = Some m ->
      (2 <= size m)%nat ->
      combinations (db w) = Some rows ->
      allExplored (elements (dom m)) rows = true ->
      (forall k, envFault k = false) ->
      (forall p, exists k,
          envRand (p + 1 + k)%nat mod Z.of_nat (size m)
          <> envRand p mod Z.of_nat (size m)) ->
      exists fuel0 w',
        (forall fuel, (fuel0 <= fuel)%nat ->
           exploreCombinations envRand envIter envHttp envFault fuel maxC maxA w
           = (Ret tt, addEvent (finished 0 maxA) w'))
        /\ db w' = db w
        /\ localItemsCache w' = localItemsCache w
        /\ httpPos w' = httpPos w
        /\ requests (events w') = requests (events w)
        /\ execs (events w') = execs (events w)
        /\ events w' = events w ++ replicate (Z.to_nat maxA) pacingSleep
        /\ iterPos w' = (iterPos w + Z.to_nat maxA)%nat
        /\ dbPos w' = (dbPos w + Z.to_nat maxA)%nat).
Proof.
  intros HC HA. split; [|split; [|split; [|split]]].
  - intros fuel gas c a w0 Hend. apply exploreLoop_done. lia.
  - intros fuel gas c a w0 c1 a1 w1 Hc Ha Hit.
    rewrite exploreLoop_step, Hit by done. split; [done|].
    intros Hend. apply exploreLoop_done. lia.
  - intros fuel gas how c' a' w' Hl.
    eapply exploreLoop_bounds; [| | | |apply Hl]; lia.
  - intros -> fuel. unfold exploreCombinations. unfoldM.
    rewrite exploreLoop_done by lia. done.
  - intros Hpos Hm Hsz Hrows Hall Hnf Hfair.
    destruct (explored_loop (Z.to_nat (maxA - 0)) maxC maxA 0 0 w m rows)
      as (fuel0 & w' & Hloop & Hrest); auto; try lia.
    rewrite Z.sub_0_r in Hrest.
    exists fuel0, w'. split; [|done].
    intros fuel Hfuel. unfold exploreCombinations. unfoldM.
    rewrite Hloop by done. done.
Qed.


(** *** Start-up *)

Lemma dbExec_ok stmt w st' :
  envFault (dbPos w) = false ->
  applyStmt stmt (db w) = inr st' ->
  dbExec envFault stmt w
  = (Ret None, addEvent (EvExec stmt st') (setDb st' (setDbPos (S (dbPos w)) w))).
Proof.
  intros Hf Hap. unfold dbExec, storeFault. unfoldM. rewrite Hf.
  cbn [db setDbPos]. rewrite Hap. done.
Qed.

Lemma bootstrap_fresh w :
  (forall k, envFault k = false) ->
  db w = mkStore None None ->
  let r := (createTables envFault;; insertInitialItems envFault) w in
  fst r = Ret tt /\ db (snd r) = mkStore (Some seedRows) (Some []).
Proof.
  intros Hnf Hdb. destruct w as [st c rp ip hp dp fr pk ev]. cbn [db] in Hdb. subst st.
  unfold createTables, insertInitialItems, initialItems. cbn [foldr fst snd].
  unfoldM.
  repeat (erewrite dbExec_ok; [|apply Hnf|reflexivity]; unfoldW).
  split; reflexivity.
Qed.

(** C10: the check for a fresh store.  [checkDatabaseExists] answers
    false only when [os.Stat] fails with not-exist.  For every other
    result of [os.Stat], any other error included, [initializeDatabase]
    logs that the database exists and returns without a single call to
    the store: no table is created and no seed inserted, whatever the
    store holds, be it nothing.  When the error is not-exist it runs
    [createTables] and then [insertInitialItems], which on a store
    without tables leave the four seed entries and no combination. *)
Theorem fresh_store_check (st : option OsError) (w : World) :
  (st <> Some ErrNotExist ->
   checkDatabaseExists st = true
   /\ initializeDatabase envFault st w
      = (Ret tt, addEvent (EvLog DebugLevel [LStr "Database exists: "; LBool true]) w))
  /\ (st = Some ErrNotExist ->
      checkDatabaseExists st = false
      /\ initializeDatabase envFault st w
         = (createTables envFault;; insertInitialItems envFault)
             (addEvent (EvLog DebugLevel [LStr "Database exists: "; LBool false]) w)
      /\ ((forall k, envFault k = false) ->
          db w = mkStore None None ->
          fst (initializeDatabase envFault st w) = Ret tt
          /\ db (snd (initializeDatabase envFault st w))
             = mkStore (Some seedRows) (Some []))).
Proof.
  split.
  - intros Hst.
    assert (Hc : checkDatabaseExists st = true)
      by (destruct st as [[]|]; done).
    split; [done|]. unfold initializeDatabase. rewrite Hc. done.
  - intros ->. split; [done|].
    assert (Hrun : initializeDatabase envFault (Some ErrNotExist) w
              = (createTables envFault;; insertInitialItems envFault)
                  (addEvent (EvLog DebugLevel [LStr "Database exists: "; LBool false]) w))
      by done.
    split; [done|]. intros Hnf Hdb. rewrite Hrun.
    apply bootstrap_fresh; [done|]. by destruct w.
Qed.

End Facts.


(** ** The statements on concrete runs *)

Lemma sortedIter_perm k (m : gmap string string) : sortedIter k m ≡ₚ elements (dom m).
Proof. reflexivity. Qed.

Lemma countingRand_fair (n : nat) :
  (2 <= n)%nat ->
  forall p, exists k,
    countingRand (p + 1 + k)%nat mod Z.of_nat n <> countingRand p mod Z.of_nat n.
Proof.
  intros Hn p. exists 0%nat. unfold countingRand.
  replace (Z.of_nat (p + 1 + 0)) with (Z.of_nat p + 1) by lia.
  intros H.
  assert (H1 : (Z.of_nat p + 1 - Z.of_nat p) mod Z.of_nat n = 0).
  { rewrite Zminus_mod, H, Z.sub_diag. apply Z.mod_0_l. lia. }
  replace (Z.of_nat p + 1 - Z.of_nat p) with 1 in H1 by lia.
  rewrite Z.mod_1_l in H1; lia.
Qed.



(** On the explored store three attempts are three pacing sleeps and
    nothing else; on the seeded store with a budget of one success the
    first iteration, which records Steam, is the last. *)
Lemma attempt_ceiling_witness :
  (exists fuel0 w',
     (forall fuel, (fuel0 <= fuel)%nat ->
        exploreCombinations countingRand sortedIter alwaysThrottled noFault fuel 7 3
          exploredWorld
        = (Ret tt, addEvent (finished 0 3) w'))
     /\ db w' = db exploredWorld
     /\ events w' = [pacingSleep; pacingSleep; pacingSleep])
  /\ (let w1 :=
        snd (iteration countingRand sortedIter (throttledTimes 0 None) noFault 9 0 0
               seededWorld) in
      exploreLoop countingRand sortedIter (throttledTimes 0 None) noFault 9 9 1 10 0 0
        seededWorld
      = (Ret (Exhausted, 1, 1), w1)
      /\ httpPos w1 = 1%nat).
Proof.
  split.
  - destruct (attempt_ceiling countingRand sortedIter alwaysThrottled noFault
                sortedIter_perm 7 3 exploredWorld exploredCache exploredRows)
      as (_ & _ & _ & _ & H).
    + unfold maxInt64. lia.
    + unfold maxInt64. lia.
    + destruct H as (fuel0 & w' & Hrun & Hdb & _ & _ & _ & _ & Hev & _).
      * lia.
      * reflexivity.
      * vm_compute. lia.
      * reflexivity.
      * vm_compute. reflexivity.
      * intros k. reflexivity.
      * apply countingRand_fair. vm_compute. lia.
      * exists fuel0, w'. split; [exact Hrun|]. split; [exact Hdb|exact Hev].
  - intros w1.
    destruct (attempt_ceiling countingRand sortedIter (throttledTimes 0 None) noFault
                sortedIter_perm 1 10 seededWorld exploredCache exploredRows)
      as (_ & H & _).
    + unfold maxInt64. lia.
    + unfold maxInt64. lia.
    + destruct (H 8%nat 9%nat 0 0 seededWorld 1 1 w1) as [_ Hend].
      * lia.
      * lia.
      * vm_compute. reflexivity.
      * split; [apply Hend; lia|]. vm_compute. reflexivity.
Defined.

(** C2 as stated fails for [maxCombinations = 0]: on a store in which
    every pair is explored, with [maxAttempts = 3], the loop is not
    entered and the totals logged are (0, 0), not (0, 3). *)
Lemma attempt_ceiling_counterexample :
  localItemsCache exploredWorld = Some exploredCache
  /\ combinations (db exploredWorld) = Some exploredRows
  /\ allExplored (elements (dom exploredCache)) exploredRows = true
  /\ exploreCombinations countingRand sortedIter alwaysThrottled noFault 9 0 3
       exploredWorld
     = (Ret tt, addEvent (finished 0 0) exploredWorld)
  /\ finished 0 0 <> finished 0 3.
Proof.
  split; [reflexivity|]. split; [reflexivity|].
  split; [vm_compute; reflexivity|]. split; [vm_compute; reflexivity|].
  discriminate.
Qed.

Lemma seen_pair_is_skipped_witness :
  exists w3,
    iteration countingRand sortedIter alwaysThrottled noFault 3 0 0 exploredWorld
    = (Ret (Some (0, 0 + 1)), w3)
    /\ db w3 = db exploredWorld
    /\ events w3 = events exploredWorld ++ [EvSleep 50000000].
Proof.
  destruct (seen_pair_is_skipped countingRand sortedIter alwaysThrottled noFault
              3 0 0 "Water" "Fire" exploredWorld
              (setRandPos 2 (setIterPos 1 exploredWorld))
              (setDbPos 1 (setRandPos 2 (setIterPos 1 exploredWorld))))
    as (w3 & Hit & Hdb & _ & _ & Hev & _).
  - vm_compute. reflexivity.
  - vm_compute. reflexivity.
  - unfold minInt64, maxInt64. lia.
  - exists w3. split; [exact Hit|]. split; [exact Hdb|exact Hev].
Defined.

(** Scenario B of the specification: a 429 with [Retry-After: 1], then a
    200 with a valid body. *)
Lemma rate_limit_retry_witness :
  let r := callApi (throttledTimes 1 (Some "1")) 5 "Water" "Fire" emptyWorld in
  fst r = Ret (Ok steam)
  /\ httpPos (snd r) = 2%nat
  /\ requests (events (snd r)) = [("Water", "Fire"); ("Water", "Fire")]
  /\ sleepTotal (events (snd r)) = 2 * second.
Proof.
  intros r.
  destruct (rate_limit_retry (throttledTimes 1 (Some "1")) 1 5 "Water" "Fire" emptyWorld)
    as (Ho & Hp & (evs & He & _ & Hrq) & _).
  - intros i Hi. assert (i = 0%nat) as -> by lia. reflexivity.
  - reflexivity.
  - lia.
  - split; [exact Ho|]. split; [exact Hp|]. split.
    + fold r in He. rewrite He. exact Hrq.
    + vm_compute. reflexivity.
Defined.

(** C4 as stated fails on the duration.  For [Retry-After: -5] the call
    is [time.Sleep(-4s)], which returns at once: the caller is suspended
    for 0 seconds, not for Retry-After + 1.  For [Retry-After: 9223372036]
    the product overflows the 64-bit duration and the caller is not
    suspended either. *)
Lemma rate_limit_retry_counterexample :
  let neg := mkHttpResponse 429 (Some "-5") BodyUnreadable in
  let big := mkHttpResponse 429 (Some "9223372036") BodyUnreadable in
  let r := callApi (throttledTimes 1 (Some "-5")) 5 "Water" "Fire" emptyWorld in
  (retryAfterOf neg = -5
   /\ fst r = Ret (Ok steam)
   /\ sleepTotal (events (snd r)) = 0
   /\ sleepTotal (events (snd r)) <> (retryAfterOf neg + 1) * second)
  /\ (retryAfterOf big = 9223372036
      /\ retryDelay big = -9223372036709551616
      /\ slept (retryDelay big) <> (retryAfterOf big + 1) * second).
Proof.
  vm_compute. repeat split; discriminate.
Qed.




Lemma upsert_idempotent_witness :
  let w1 := snd (insertOrUpdateItem noFault "Steam" "s" true seededWorld) in
  let r2 := insertOrUpdateItem noFault "Steam" "s" true w1 in
  fst r2 = Ret tt
  /\ db (snd r2) = db w1
  /\ localItemsCache (snd r2) = localItemsCache w1.
Proof.
  intros w1 r2.
  destruct (upsert_idempotent noFault "Steam" "s" true seededWorld w1) as [_ H].
  - vm_compute. reflexivity.
  - destruct (H (fst r2) (snd r2) (surjective_pairing r2)) as (Hdb & Hc & Ho).
    split; [apply Ho; reflexivity|]. split; [exact Hdb|exact Hc].
Defined.

Lemma sampling_guard_witness :
  getRandomItems countingRand sortedIter 3 lonelyWorld
  = (Ret ("", "", Some ErrNotEnoughItems), setIterPos 1 lonelyWorld)
  /\ exists a b w',
       getRandomItems countingRand sortedIter 3 seededWorld = (Ret (a, b, None), w')
       /\ a <> b.
Proof.
  split.
  - destruct (sampling_guard countingRand sortedIter sortedIter_perm 3 lonelyWorld)
      as [H _].
    apply H. vm_compute. lia.
  - destruct (sampling_guard countingRand sortedIter sortedIter_perm 3 seededWorld)
      as [_ H].
    destruct H as [Hsound Hterm]; [vm_compute; lia|].
    destruct (Hterm 0%nat) as (a & b & w' & Hg); [vm_compute; discriminate|lia|].
    exists a, b, w'. split; [exact Hg|].
    destruct (Hsound _ _ Hg) as [Hx|(a' & b' & m & Heq & Hne & _)]; [discriminate|].
    injection Heq as -> ->. exact Hne.
Defined.

Lemma abort_is_clean_witness :
  exploreLoop countingRand sortedIter alwaysThrottled noFault 3 2 5 5 0 0 lonelyWorld
  = (Ret (Aborted, 0, 0),
     addEvent (samplingFailed ErrNotEnoughItems) (setIterPos 1 lonelyWorld))
  /\ exploreLoop countingRand sortedIter alwaysThrottled noFault 3 2 5 5 0 0 brokenWorld
     = (Ret (Aborted, 0, 0),
        addEvent (checkFailed (ErrStore NoSuchTable))
          (setDbPos 1 (setRandPos 2 (setIterPos 1 brokenWorld)))).
Proof.
  split.
  - destruct (abort_is_clean countingRand sortedIter alwaysThrottled noFault
                2 2 5 5 0 0 lonelyWorld) as (H & _ & _); [lia|lia|].
    apply (H "" ""). vm_compute. reflexivity.
  - destruct (abort_is_clean countingRand sortedIter alwaysThrottled noFault
                2 2 5 5 0 0 brokenWorld) as (_ & H & _); [lia|lia|].
    apply (H "Water" "Fire" false _ (setRandPos 2 (setIterPos 1 brokenWorld))).
    + vm_compute. reflexivity.
    + vm_compute. reflexivity.
Defined.

(** C8 as stated fails on the log line: a run that is ended because the
    cache holds a single entry returns normally, and all it has logged is
    the error; no line reports the totals. *)
Lemma abort_log_counterexample :
  let r := exploreCombinations countingRand sortedIter alwaysThrottled noFault 5 3 3
             lonelyWorld in
  cacheSize lonelyWorld = 1%nat
  /\ fst r = Ret tt
  /\ events (snd r) = [samplingFailed ErrNotEnoughItems]
  /\ existsb reportsCount (events (snd r)) = false.
Proof.
  vm_compute. repeat split.
Qed.

Lemma fresh_store_check_witness :
  initializeDatabase noFault (Some ErrPermission) emptyWorld
  = (Ret tt,
     addEvent (EvLog DebugLevel [LStr "Database exists: "; LBool true]) emptyWorld)
  /\ db (snd (initializeDatabase noFault (Some ErrNotExist) emptyWorld))
     = mkStore (Some seedRows) (Some []).
Proof.
  split.
  - destruct (fresh_store_check noFault (Some ErrPermission) emptyWorld) as [H _].
    apply H. discriminate.
  - destruct (fresh_store_check noFault (Some ErrNotExist) emptyWorld) as [_ H].
    destruct H as (_ & _ & H); [reflexivity|].
    apply H; [intros k; reflexivity|reflexivity].
Defined.


(** ** Further properties of the engine *)

(** The ordered pair a combination row is about. *)
Definition pairOf (c : Combination) : string * string :=
  (firstItem c, secondItem c).

(** The map that [initializeLocalCache] builds from the rows it scans,
    starting from [m]. *)
Definition hydrated (rows : list Item) (m : gmap string string) : gmap string string :=
  foldl (fun acc r => <[name r := emoji r]> acc) m rows.

(** Some row has this name and this emoji. *)
Definition hasEntry (n e : string) (rows : list Item) : bool :=
  existsb (fun r => String.eqb (name r) n && String.eqb (emoji r) e) rows.

(** What the schema of [createTables] declares, on the rows themselves:
    both tables exist, names are unique, ordered pairs are unique, and the
    three item columns of every combination name an item. *)
Definition storeOk (st : Store) : Prop :=
  match items st, combinations st with
  | Some rows, Some cs =>
      NoDup (map name rows)
      /\ NoDup (map pairOf cs)
      /\ Forall
           (fun c =>
              hasItem (firstItem c) rows = true
              /\ hasItem (secondItem c) rows = true
              /\ hasItem (resultItem c) rows = true)
           cs
  | _, _ => False
  end.

(** The store is in order and every entry of the cache is the name and
    emoji of an item row. *)
Definition wellFormed (w : World) : Prop :=
  storeOk (db w)
  /\ match localItemsCache w, items (db w) with
     | Some m, Some rows => map_Forall (fun n e => hasEntry n e rows = true) m
     | _, _ => False
     end.

Section Upkeep.

Variable envRand : nat -> Z.
Variable envIter : nat -> gmap string string -> list string.
Variable envHttp : nat -> string -> string -> HttpResult.
Variable envFault : nat -> bool.

(** *** Statements sent to the store *)

Lemma dbExec_run stmt w :
  dbExec envFault stmt w =
  let w1 := setDbPos (S (dbPos w)) w in
  if envFault (dbPos w) then (Ret (Some (ErrStore IOFailure)), w1)
  else
    match applyStmt stmt (db w) with
    | inl e => (Ret (Some (ErrStore e)), w1)
    | inr st' => (Ret None, addEvent (EvExec stmt st') (setDb st' w1))
    end.
Proof.
  unfold dbExec, storeFault. unfoldM. cbv zeta.
  destruct (envFault (dbPos w)); [done|].
  cbn [db setDbPos]. destruct (applyStmt stmt (db w)); done.
Qed.

(** *** Loading the cache *)

Variable envScan : nat -> nat -> RowRead.

(** The number of rows, from the i-th on, that the loop of
    [initializeLocalCache] scans before it ends. *)
Fixpoint scannedRows (q i : nat) (pending : list Item) : nat :=
  match pending with
  | [] => 0
  | _ :: rest =>
      match envScan q i with
      | RowScanned => S (scannedRows q (S i) rest)
      | _ => 0
      end
  end.

Definition scanFailsAt (q i : nat) : bool :=
  match envScan q i with ScanFails => true | _ => false end.

Lemma scannedRows_le q rows : forall i, (scannedRows q i rows <= length rows)%nat.
Proof.
  induction rows as [|r rows IH]; intros i; simpl; [lia|].
  destruct (envScan q i); [specialize (IH (S i))|..]; lia.
Qed.

Lemma scannedRows_scanned q rows : forall i j,
  (j < scannedRows q i rows)%nat -> envScan q (i + j) = RowScanned.
Proof.
  induction rows as [|r rows IH]; intros i j; simpl; [lia|].
  destruct (envScan q i) eqn:E; try lia.
  destruct j as [|j]; [by rewrite Nat.add_0_r|].
  intros H. replace (i + S j)%nat with (S i + j)%nat by lia. apply IH. lia.
Qed.

Lemma scannedRows_stop q rows : forall i,
  (scannedRows q i rows < length rows)%nat ->
  envScan q (i + scannedRows q i rows) <> RowScanned.
Proof.
  induction rows as [|r rows IH]; intros i; simpl; [lia|].
  destruct (envScan q i) eqn:E.
  - intros H. replace (i + S _)%nat with (S i + scannedRows q (S i) rows)%nat by lia.
    apply IH. lia.
  - rewrite Nat.add_0_r, E. done.
  - rewrite Nat.add_0_r, E. done.
Qed.

Lemma scannedRows_first q rows : forall i k,
  (k <= length rows)%nat ->
  (forall j, (j < k)%nat -> envScan q (i + j) = RowScanned) ->
  ((k < length rows)%nat -> envScan q (i + k) <> RowScanned) ->
  scannedRows q i rows = k.
Proof.
  induction rows as [|r rows IH]; intros i k Hle Hall Hstop; simpl in *; [lia|].
  destruct k as [|k].
  - rewrite Nat.add_0_r in Hstop. destruct (envScan q i); [|done..].
    exfalso. apply Hstop; [lia|done].
  - pose proof (Hall 0%nat ltac:(lia)) as H0. rewrite Nat.add_0_r in H0. rewrite H0.
    f_equal. apply IH; [lia| |].
    + intros j Hj. replace (S i + j)%nat with (i + S j)%nat by lia. apply Hall. lia.
    + intros Hk. replace (S i + k)%nat with (i + S k)%nat by lia. apply Hstop. lia.
Qed.

Lemma hydrated_cons r rows m :
  hydrated (r :: rows) m = hydrated rows (<[name r := emoji r]> m).
Proof. reflexivity. Qed.

Lemma cacheFill_run rows : forall q i w m,
  localItemsCache w = Some m ->
  cacheFill envScan q i rows w =
  let k := scannedRows q i rows in
  let w1 := setCache (Some (hydrated (take k rows) m)) w in
  if (k <? length rows)%nat && scanFailsAt q (i + k) then
    (Exit 1,
     addEvent
       (EvLog FatalLevel [LStr "Failed to read item for local cache: "; LErr ErrScan]) w1)
  else (Ret tt, w1).
Proof.
  unfold scanFailsAt.
  induction rows as [|r rows IH]; intros q i w m Hm; cbn [cacheFill scannedRows].
  - cbv zeta. cbn. f_equal. destruct w. unfoldW. simpl in Hm. by subst.
  - destruct (envScan q i) eqn:E; cbv zeta.
    + unfoldM. unfold cacheStore at 1. rewrite Hm.
      rewrite (IH q (S i) _ (<[name r := emoji r]> m)) by done. cbv zeta.
      cbn [length take]. rewrite hydrated_cons.
      replace (i + S (scannedRows q (S i) rows))%nat
        with (S i + scannedRows q (S i) rows)%nat by lia.
      change (S (scannedRows q (S i) rows) <? S (length rows))%nat
        with (scannedRows q (S i) rows <? length rows)%nat.
      destruct (_ && _); f_equal.
    + rewrite Nat.add_0_r, E. cbn. unfold logrusFatal, emit, exit. unfoldM.
      f_equal. destruct w. unfoldW. simpl in Hm. by subst.
    + rewrite Nat.add_0_r, E. cbn. f_equal. destruct w. unfoldW. simpl in Hm. by subst.
Qed.

Lemma initializeLocalCache_run w :
  initializeLocalCache envFault envScan w =
  let q := dbPos w in
  let w0 := setDbPos (S q) (setCache (Some ∅) w) in
  let fatal e :=
    (Exit 1,
     addEvent (EvLog FatalLevel [LStr "Failed to initialize local cache: "; LErr e]) w0) in
  if envFault q then fatal (ErrStore IOFailure)
  else
    match items (db w) with
    | None => fatal (ErrStore NoSuchTable)
    | Some rows =>
        let k := scannedRows q 0 rows in
        let w1 := setCache (Some (hydrated (take k rows) ∅)) w0 in
        if (k <? length rows)%nat && scanFailsAt q k then
          (Exit 1,
           addEvent
             (EvLog FatalLevel [LStr "Failed to read item for local cache: "; LErr ErrScan])
             w1)
        else
          (Ret tt,
           addEvent
             (EvLog InfoLevel [LStr "Local cache initialized with items from database"])
             w1)
    end.
Proof.
  unfold initializeLocalCache, dbQueryItems. unfoldM. cbv zeta.
  cbn [dbPos setCache db].
  destruct (envFault (dbPos w)); [done|].
  destruct (items (db w)) as [rows|] eqn:Hi; [|done].
  cbn [call found].
  rewrite (cacheFill_run rows _ _ _ ∅) by done. cbv zeta. cbn [Nat.add].
  destruct (_ && _); reflexivity.
Qed.

Lemma hydrated_lookup_other rows : forall m n,
  hasItem n rows = false -> hydrated rows m !! n = m !! n.
Proof.
  induction rows as [|r rows IH]; intros m n; [done|].
  rewrite hydrated_cons. simpl.
  destruct (String.eqb (name r) n) eqn:E; simpl; [done|].
  intros H. rewrite IH by done.
  apply String.eqb_neq in E. by rewrite lookup_insert_ne.
Qed.

Lemma hydrated_dom rows : forall m n,
  n ∈ dom (hydrated rows m) <-> n ∈ dom m \/ hasItem n rows = true.
Proof.
  induction rows as [|r rows IH]; intros m n.
  - simpl. split; [auto|]. intros [?|?]; done.
  - rewrite hydrated_cons, IH, dom_insert, elem_of_union, elem_of_singleton.
    simpl. rewrite orb_true_iff, String.eqb_eq. split; intros H; intuition auto.
Qed.

Lemma hydrated_entry rows : forall m n e,
  hydrated rows m !! n = Some e -> m !! n = Some e \/ hasEntry n e rows = true.
Proof.
  induction rows as [|r rows IH]; intros m n e; [simpl; auto|].
  rewrite hydrated_cons. intros H. apply IH in H as [H|H].
  - destruct (decide (name r = n)) as [<-|Hne].
    + rewrite lookup_insert_eq in H. injection H as <-.
      right. simpl. by rewrite !String.eqb_refl.
    + rewrite lookup_insert_ne in H by done. by left.
  - right. simpl. rewrite H. apply orb_true_r.
Qed.

Lemma hydrated_row rows : forall m r,
  NoDup (map name rows) -> r ∈ rows -> hydrated rows m !! name r = Some (emoji r).
Proof.
  induction rows as [|r0 rows IH]; intros m r Hnd Hin; [by apply elem_of_nil in Hin|].
  simpl in Hnd. apply NoDup_cons in Hnd as [Hr0 Hnd].
  rewrite hydrated_cons.
  apply elem_of_cons in Hin as [->|Hin].
  - rewrite (hydrated_lookup_other rows) by (by apply hasItem_not_in).
    apply lookup_insert_eq.
  - by apply IH.
Qed.

Lemma hydrated_size rows :
  NoDup (map name rows) -> size (hydrated rows ∅) = length rows.
Proof.
  assert (H : forall m, NoDup (map name rows) ->
                (forall r, r ∈ rows -> m !! name r = None) ->
                size (hydrated rows m) = (size m + length rows)%nat).
  { induction rows as [|r rows IH]; intros m Hnd Hfresh; [simpl; lia|].
    simpl in Hnd. apply NoDup_cons in Hnd as [Hr Hnd].
    rewrite hydrated_cons, IH; [| done |].
    - rewrite map_size_insert_None; [simpl; lia|]. apply Hfresh. by left.
    - intros r' Hr'. rewrite lookup_insert_ne; [apply Hfresh; by right|].
      intros Heq. apply Hr. rewrite Heq. by apply list_elem_of_fmap_2. }
  intros Hnd. rewrite H; [by rewrite map_size_empty| done |done].
Qed.

Lemma hasItem_take k n rows : hasItem n (take k rows) = true -> hasItem n rows = true.
Proof.
  unfold hasItem. rewrite <- (take_drop k rows) at 2. rewrite existsb_app. by intros ->.
Qed.

Lemma hasEntry_take k n e rows :
  hasEntry n e (take k rows) = true -> hasEntry n e rows = true.
Proof.
  unfold hasEntry. rewrite <- (take_drop k rows) at 2. rewrite existsb_app. by intros ->.
Qed.

Lemma NoDup_names_take k rows :
  NoDup (map name rows) -> NoDup (map name (take k rows)).
Proof.
  intros H. rewrite <- firstn_map. eapply sublist_NoDup; [exact H|]. apply sublist_take.
Qed.

Lemma initializeLocalCache_returns w w' :
  initializeLocalCache envFault envScan w = (Ret tt, w') ->
  exists rows,
    envFault (dbPos w) = false
    /\ items (db w) = Some rows
    /\ db w' = db w
    /\ localItemsCache w'
       = Some (hydrated (take (scannedRows (dbPos w) 0 rows) rows) ∅)
    /\ ((scannedRows (dbPos w) 0 rows < length rows)%nat ->
        envScan (dbPos w) (scannedRows (dbPos w) 0 rows) = NextFails).
Proof.
  rewrite initializeLocalCache_run. cbv zeta.
  destruct (envFault (dbPos w)); [done|].
  destruct (items (db w)) as [rows|] eqn:Hi; [|done].
  set (k := scannedRows (dbPos w) 0 rows).
  destruct ((k <? length rows)%nat && scanFailsAt (dbPos w) k) eqn:E; [done|].
  intros [= <-]. exists rows. split; [done|]. split; [done|].
  split; [by destruct w|]. split; [by destruct w|].
  intros Hk. apply andb_false_iff in E as [E|E]; [apply Nat.ltb_ge in E; lia|].
  pose proof (scannedRows_stop (dbPos w) rows 0 Hk) as Hs. cbn [Nat.add] in Hs. fold k in Hs.
  unfold scanFailsAt in E. fold k.
  destruct (envScan (dbPos w) k); [by destruct Hs|done|done].
Qed.

(** X1: loading the cache.  When [initializeLocalCache] returns, the
    store is as it was and the cache, whatever it held before, holds
    the rows that were scanned and nothing else: the first [k] rows of
    the items table, the loop having ended at the end of the table or
    at the first failure of [rows.Next()], which the function does not
    tell from the end since it never looks at [rows.Err()].  The keys of
    the cache are the names of these rows and every entry is the name
    and emoji of one of them; when names are unique, as the primary
    key makes them, every scanned row is found under its name with its
    emoji and the cache has [k] keys.  When every row can be read the
    scanned rows are the whole table. *)
Theorem cache_hydration (w w' : World) :
  initializeLocalCache envFault envScan w = (Ret tt, w') ->
  exists rows k m,
    items (db w) = Some rows
    /\ db w' = db w
    /\ localItemsCache w' = Some m
    /\ (k <= length rows)%nat
    /\ (forall j, (j < k)%nat -> envScan (dbPos w) j = RowScanned)
    /\ ((k < length rows)%nat -> envScan (dbPos w) k = NextFails)
    /\ (forall n, n ∈ dom m <-> hasItem n (take k rows) = true)
    /\ (forall n e, m !! n = Some e -> hasEntry n e (take k rows) = true)
    /\ (NoDup (map name rows) ->
        (forall r, r ∈ take k rows -> m !! name r = Some (emoji r))
        /\ size m = k)
    /\ ((forall j, (j < length rows)%nat -> envScan (dbPos w) j = RowScanned) ->
        take k rows = rows).
Proof.
  clear envRand envIter envHttp. intros Hrun.
  apply initializeLocalCache_returns in Hrun as (rows & _ & Hi & Hdb & Hm & Hcut).
  set (k := scannedRows (dbPos w) 0 rows) in *.
  pose proof (scannedRows_le (dbPos w) rows 0) as Hle. fold k in Hle.
  exists rows, k, (hydrated (take k rows) ∅).
  split; [done|]. split; [done|]. split; [done|]. split; [done|].
  split; [intros j Hj; by apply (scannedRows_scanned (dbPos w) rows 0 j)|].
  split; [done|]. split; [|split; [|split]].
  - intros n. rewrite hydrated_dom, dom_empty, elem_of_empty. tauto.
  - intros n e H. apply hydrated_entry in H as [H|H]; [|done].
    by rewrite lookup_empty in H.
  - intros Hnd. apply (NoDup_names_take k) in Hnd. split.
    + intros r Hr. by apply hydrated_row.
    + rewrite hydrated_size by done. rewrite length_take. lia.
  - intros Hall. apply take_ge.
    destruct (decide (k < length rows)%nat) as [Hk|]; [|lia].
    rewrite Hall in Hcut by done. by specialize (Hcut Hk).
Qed.

(** X2: when loading the cache fails.  [initializeLocalCache] returns
    exactly when the store answers the query, the items table exists
    and [rows.Scan] fails on no row that the loop reaches; otherwise
    the process exits with status 1 and the store is untouched.  When
    it is the query that failed, the cache is left as the empty map
    that replaced it; when it is a scan, the cache is left holding the
    rows scanned before. *)
Theorem cache_hydration_fatal (w : World) :
  let r := initializeLocalCache envFault envScan w in
  let q := dbPos w in
  (fst r = Ret tt <->
   envFault q = false
   /\ exists rows,
        items (db w) = Some rows
        /\ forall k,
             (k < length rows)%nat ->
             (forall j, (j < k)%nat -> envScan q j = RowScanned) ->
             envScan q k <> ScanFails)
  /\ (fst r <> Ret tt ->
      fst r = Exit 1
      /\ db (snd r) = db w
      /\ (envFault q = true \/ items (db w) = None ->
          localItemsCache (snd r) = Some ∅)
      /\ (forall rows,
            envFault q = false -> items (db w) = Some rows ->
            exists k,
              (k < length rows)%nat
              /\ (forall j, (j < k)%nat -> envScan q j = RowScanned)
              /\ envScan q k = ScanFails
              /\ localItemsCache (snd r) = Some (hydrated (take k rows) ∅))).
Proof.
  cbv zeta. rewrite initializeLocalCache_run. cbv zeta.
  destruct (envFault (dbPos w)) eqn:Hf; [|destruct (items (db w)) as [rows|] eqn:Hi];
    cbn [fst snd].
  - split; [split; [done|intros []; done]|]. intros _.
    split; [done|]. split; [by destruct w|]. split; [by destruct w|done].
  - set (k := scannedRows (dbPos w) 0 rows).
    pose proof (scannedRows_le (dbPos w) rows 0) as Hle. fold k in Hle.
    assert (Hall : forall j, (j < k)%nat -> envScan (dbPos w) j = RowScanned)
      by (intros j Hj; by apply (scannedRows_scanned (dbPos w) rows 0 j)).
    destruct ((k <? length rows)%nat && scanFailsAt (dbPos w) k) eqn:E; cbn [fst snd].
    + apply andb_true_iff in E as [Hk E]. apply Nat.ltb_lt in Hk.
      assert (Hsf : envScan (dbPos w) k = ScanFails)
        by (unfold scanFailsAt in E; destruct (envScan (dbPos w) k); done).
      split.
      * split; [done|]. intros (_ & rows' & [= <-] & H). by destruct (H k Hk Hall).
      * intros _. split; [done|]. split; [by destruct w|].
        split; [intros [|]; done|].
        intros rows' _ [= <-]. exists k. split; [done|]. split; [done|].
        split; [done|by destruct w].
    + split; [|done]. split; [|done]. intros _. split; [done|].
      exists rows. split; [done|]. intros k' Hk' Hall' Hsf.
      assert (k = k') as <-.
      { apply (scannedRows_first (dbPos w) rows 0 k'); [lia|done|].
        intros _. cbn [Nat.add]. by rewrite Hsf. }
      apply andb_false_iff in E as [E|E]; [apply Nat.ltb_ge in E; lia|].
      unfold scanFailsAt in E. by rewrite Hsf in E.
  - split; [split; [done|intros (_ & rows & ? & _); done]|]. intros _.
    split; [done|]. split; [by destruct w|]. split; [by destruct w|done].
Qed.

(** *** Creating and seeding the tables *)

(** X3: creating the tables.  [createTables] returns exactly when
    neither table existed and the store accepted both statements, and
    then both tables are there and empty; in every other case the
    process exits with status 1.  If the items table already existed
    nothing is changed; if only the combinations table was in the way,
    the new items table stays behind. *)
Theorem createTables_once (w : World) :
  let r := createTables envFault w in
  (fst r = Ret tt <->
   items (db w) = None /\ combinations (db w) = None
   /\ envFault (dbPos w) = false /\ envFault (S (dbPos w)) = false)
  /\ (fst r = Ret tt -> db (snd r) = mkStore (Some []) (Some []))
  /\ (fst r <> Ret tt -> fst r = Exit 1)
  /\ (items (db w) <> None -> db (snd r) = db w)
  /\ (items (db w) = None -> envFault (dbPos w) = false -> fst r <> Ret tt ->
      db (snd r) = mkStore (Some []) (combinations (db w))).
Proof.
  clear envRand envIter envHttp envScan.
  cbv zeta. unfold createTables. unfoldM. rewrite dbExec_run. cbv zeta.
  destruct w as [[its cs] c rp ip hp dp fr pk ev]. unfoldW. cbn [items combinations].
  destruct (envFault dp) eqn:Hf1.
  { cbn. repeat split; try done; intros; intuition congruence. }
  destruct its as [rows|].
  { cbn. repeat split; try done; intros; intuition congruence. }
  cbn -[dbExec]. rewrite dbExec_run. cbv zeta. unfoldW. cbn [items combinations].
  destruct (envFault (S dp)) eqn:Hf2.
  { cbn. repeat split; try done; intros; intuition congruence. }
  destruct cs as [cs|]; cbn; repeat split; try done; intros; intuition congruence.
Qed.

(** The loop of [insertInitialItems], over any list of names and emoji. *)
Definition insertItems (l : list (string * string)) : M unit :=
  foldr
    (fun item k =>
       err ← dbExec envFault (InsertItem (fst item) (snd item) false);
       match err with
       | Some e => logrusFatal [LStr "Failed to insert initial items: "; LErr e]
       | None => k
       end)
    (logrus InfoLevel [LStr "Inserted initial items"])
    l.

Lemma hasItem_app n a b : hasItem n (a ++ b) = hasItem n a || hasItem n b.
Proof. unfold hasItem. apply existsb_app. Qed.

Lemma insertItems_ok l : forall w rows,
  items (db w) = Some rows ->
  NoDup (map fst l) ->
  (forall p, p ∈ l -> hasItem (fst p) rows = false) ->
  (forall k, (k < length l)%nat -> envFault (dbPos w + k)%nat = false) ->
  exists w',
    insertItems l w = (Ret tt, w')
    /\ items (db w') = Some (rows ++ map (fun p => mkItem (fst p) (snd p) false) l)
    /\ combinations (db w') = combinations (db w)
    /\ localItemsCache w' = localItemsCache w.
Proof.
  induction l as [|p l IH]; intros w rows Hi Hnd Hfresh Hnf.
  - eexists. split; [reflexivity|]. destruct w. unfoldW. simpl.
    rewrite app_nil_r. done.
  - simpl in Hnd. apply NoDup_cons in Hnd as [Hp Hnd].
    cbn [insertItems foldr]. unfoldM. rewrite dbExec_run. cbv zeta.
    pose proof (Hnf 0%nat ltac:(simpl; lia)) as H0. rewrite Nat.add_0_r in H0.
    rewrite H0. cbn [applyStmt]. rewrite Hi, (Hfresh p) by (by left).
    set (st' := mkStore _ _). set (w1 := addEvent _ _).
    destruct (IH w1 (rows ++ [mkItem (fst p) (snd p) false]))
      as (w' & Hrun & Hit & Hcs & Hc); try done.
    + intros q Hq. rewrite hasItem_app, (Hfresh q) by (by right). simpl.
      rewrite orb_false_r. apply String.eqb_neq. intros Heq. apply Hp.
      rewrite Heq. by apply list_elem_of_fmap_2.
    + intros k Hk. replace (dbPos w1 + k)%nat with (dbPos w + S k)%nat
        by (subst w1; destruct w; unfoldW; lia).
      apply Hnf. simpl. lia.
    + exists w'. split; [exact Hrun|]. rewrite Hit, Hcs, Hc.
      simpl. rewrite <- app_assoc. subst w1 st'. by destruct w.
Qed.

Lemma insertItems_clash l : forall w rows,
  items (db w) = Some rows ->
  (exists p, p ∈ l /\ hasItem (fst p) rows = true) ->
  fst (insertItems l w) = Exit 1.
Proof.
  induction l as [|p l IH]; intros w rows Hi (q & Hq & Hhas);
    [by apply elem_of_nil in Hq|].
  cbn [insertItems foldr]. unfoldM. rewrite dbExec_run. cbv zeta.
  destruct (envFault (dbPos w)); [done|].
  cbn [applyStmt]. rewrite Hi.
  destruct (hasItem (fst p) rows) eqn:Hp; [done|].
  set (st' := mkStore _ _). set (w1 := addEvent _ _).
  apply (IH w1 (rows ++ [mkItem (fst p) (snd p) false])); [by destruct w|].
  exists q. apply elem_of_cons in Hq as [->|Hq]; [congruence|].
  split; [done|]. rewrite hasItem_app, Hhas. done.
Qed.

Lemma initialItems_NoDup : NoDup (map fst initialItems).
Proof.
  simpl. repeat (apply NoDup_cons; split;
    [rewrite ?elem_of_cons, elem_of_nil; intros H; intuition discriminate|]).
  apply NoDup_nil_2.
Qed.

(** X4: seeding.  On an items table that holds none of the four seed
    names, [insertInitialItems] appends the four seeds in their order,
    none marked as new, unless the store fails; it touches neither the
    combinations nor the cache.  On a table that already holds one of
    the names it never returns: the process exits with status 1. *)
Theorem seeding (w : World) (rows : list Item) :
  items (db w) = Some rows ->
  ((forall p, p ∈ initialItems -> hasItem (fst p) rows = false) ->
   (forall k, (k < 4)%nat -> envFault (dbPos w + k)%nat = false) ->
   exists w',
     insertInitialItems envFault w = (Ret tt, w')
     /\ items (db w') = Some (rows ++ seedRows)
     /\ combinations (db w') = combinations (db w)
     /\ localItemsCache w' = localItemsCache w)
  /\ ((exists p, p ∈ initialItems /\ hasItem (fst p) rows = true) ->
      fst (insertInitialItems envFault w) = Exit 1).
Proof.
  intros Hi. split.
  - intros Hfresh Hnf.
    apply (insertItems_ok initialItems w rows Hi initialItems_NoDup Hfresh Hnf).
  - intros Hclash. apply (insertItems_clash initialItems w rows Hi Hclash).
Qed.

(** *** Recording a combination *)

Lemma isPair_true f s c : isPair f s c = true <-> pairOf c = (f, s).
Proof.
  unfold isPair, pairOf. rewrite andb_true_iff, !String.eqb_eq.
  split; [intros [-> ->]; done|intros [= -> ->]; done].
Qed.

Lemma countPair_app f s a b :
  countPair f s (a ++ b) = countPair f s a + countPair f s b.
Proof. unfold countPair. rewrite filter_app, length_app. lia. Qed.

Lemma countPair_one f s c :
  countPair f s [c] = if isPair f s c then 1 else 0.
Proof.
  unfold countPair. destruct (isPair f s c) eqn:E.
  - by rewrite filter_cons_True.
  - rewrite filter_cons_False; [done|]. by rewrite E.
Qed.

Lemma countPair_nonneg f s cs : 0 <= countPair f s cs.
Proof. unfold countPair. lia. Qed.

Lemma countPair_zero f s cs : countPair f s cs = 0 <-> (f, s) ∉ map pairOf cs.
Proof.
  induction cs as [|c cs IH].
  - split; [intros _ H; by apply elem_of_nil in H|done].
  - change (c :: cs) with ([c] ++ cs). rewrite countPair_app, countPair_one.
    simpl. rewrite not_elem_of_cons, <- IH.
    pose proof (countPair_nonneg f s cs).
    destruct (isPair f s c) eqn:E.
    + apply isPair_true in E. split; [lia|]. intros [Hne _]. congruence.
    + split; [intros H0; split; [|lia]|intros [_ H0]; lia].
      intros Heq. symmetry in Heq. apply isPair_true in Heq. congruence.
Qed.

Lemma insertCombination_returns f s r w w1 :
  insertCombination envFault f s r w = (Ret tt, w1) ->
  exists cs,
    combinations (db w) = Some cs
    /\ countPair f s cs = 0
    /\ db w1 = mkStore (items (db w))
                 (Some (cs ++ [mkCombination f s r]))
    /\ localItemsCache w1 = localItemsCache w
    /\ dbPos w1 = S (dbPos w).
Proof.
  rewrite insertCombination_run. cbv zeta.
  destruct (envFault (dbPos w)); [done|].
  cbn [applyStmt]. destruct (combinations (db w)) as [cs|] eqn:Hcs; [|done].
  destruct (0 <? countPair f s cs) eqn:E; [done|].
  intros [= <-]. exists cs. split; [done|]. split.
  - apply Z.ltb_ge in E. pose proof (countPair_nonneg f s cs). lia.
  - by destruct w.
Qed.

(** X5: a recorded combination is found again.  When
    [insertCombination] returns, the ordered pair had no row before,
    the new row is the last of the table, items and
    cache are untouched, [combinationExists] now answers true for the
    pair (unless the store fails), and the count of every other
    ordered pair, the reversed one included, is what it was. *)
Theorem combination_roundtrip (f s r : string) (w w1 : World) :
  insertCombination envFault f s r w = (Ret tt, w1) ->
  exists cs cs1,
    combinations (db w) = Some cs
    /\ countPair f s cs = 0
    /\ combinations (db w1) = Some cs1
    /\ cs1 = cs ++ [mkCombination f s r]
    /\ items (db w1) = items (db w)
    /\ localItemsCache w1 = localItemsCache w
    /\ (envFault (dbPos w1) = false ->
        fst (combinationExists envFault f s w1) = Ret (true, None))
    /\ (forall f' s', (f', s') <> (f, s) -> countPair f' s' cs1 = countPair f' s' cs).
Proof.
  intros Hrun.
  destruct (insertCombination_returns f s r w w1 Hrun) as (cs & Hcs & H0 & Hdb & Hc & _).
  exists cs, (cs ++ [mkCombination f s r]).
  rewrite Hdb. cbn [items combinations].
  repeat split; auto.
  - intros Hnf. rewrite combinationExists_run. cbv zeta. rewrite Hnf, Hdb.
    cbn [combinations fst]. rewrite countPair_app, countPair_one, H0.
    unfold isPair. cbn [firstItem secondItem]. by rewrite !String.eqb_refl.
  - intros f' s' Hne. rewrite countPair_app, countPair_one.
    destruct (isPair f' s' _) eqn:E; [|lia].
    apply isPair_true in E. unfold pairOf in E. cbn in E. congruence.
Qed.

(** X6: one row per ordered pair.  [insertCombination] for a pair that
    already has a row does not return: the process exits with status 1
    and the store is as it was.  The reversed pair is another key:
    after (f, s) has been recorded, (s, f) with f and s different and
    no row of its own is recorded by the next call. *)
Theorem duplicate_pair_is_fatal (f s r r' : string) (w : World) (cs : list Combination) :
  combinations (db w) = Some cs ->
  (0 < countPair f s cs ->
   fst (insertCombination envFault f s r w) = Exit 1
   /\ db (snd (insertCombination envFault f s r w)) = db w)
  /\ (forall w1,
        insertCombination envFault f s r w = (Ret tt, w1) ->
        f <> s -> countPair s f cs = 0 -> envFault (dbPos w1) = false ->
        fst (insertCombination envFault s f r' w1) = Ret tt).
Proof.
  intros Hcs. split.
  - intros Hdup. rewrite insertCombination_run. cbv zeta.
    destruct (envFault (dbPos w)); [split; [done|by destruct w]|].
    cbn [applyStmt]. rewrite Hcs.
    apply Z.ltb_lt in Hdup. rewrite Hdup. split; [done|by destruct w].
  - intros w1 Hrun Hne H0 Hnf.
    destruct (insertCombination_returns f s r w w1 Hrun)
      as (cs' & Hcs' & _ & Hdb & _ & _).
    assert (cs' = cs) as -> by congruence.
    rewrite insertCombination_run. cbv zeta. rewrite Hnf.
    cbn [applyStmt]. rewrite Hdb. cbn [combinations].
    rewrite countPair_app, countPair_one, H0.
    destruct (isPair s f _) eqn:E; [|done].
    apply isPair_true in E. unfold pairOf in E. cbn in E. congruence.
Qed.

(** *** What a call of [combineElements] leaves behind *)

Lemma upsertRow_elem n e b rows : mkItem n e b ∈ upsertRow n e b rows.
Proof.
  induction rows as [|r rows IH]; simpl; [by left|].
  destruct (String.eqb (name r) n) eqn:E; [|by right].
  apply String.eqb_eq in E. rewrite E. by left.
Qed.

Lemma insertOrUpdateItem_returns n e b w w1 :
  insertOrUpdateItem envFault n e b w = (Ret tt, w1) ->
  exists m rows,
    localItemsCache w = Some m
    /\ items (db w) = Some rows
    /\ localItemsCache w1 = Some (<[n := e]> m)
    /\ db w1 = mkStore (Some (upsertRow n e b rows)) (combinations (db w))
    /\ dbPos w1 = S (dbPos w).
Proof.
  rewrite insertOrUpdateItem_run. cbv zeta.
  destruct (localItemsCache w) as [m|] eqn:Hm; [|done].
  destruct (envFault (dbPos w)); [done|].
  destruct (items (db w)) as [rows|] eqn:Hi; [|done].
  intros [= <-]. exists m, rows. by destruct w.
Qed.

Lemma insertOrUpdateItem_db n e b w o w1 :
  insertOrUpdateItem envFault n e b w = (o, w1) ->
  o <> Ret tt -> db w1 = db w.
Proof.
  rewrite insertOrUpdateItem_run. cbv zeta.
  destruct (localItemsCache w) as [m|]; [|intros [= <- <-]; by destruct w].
  destruct (envFault (dbPos w)); [intros [= <- <-]; by destruct w|].
  destruct (items (db w)) as [rows|]; [|intros [= <- <-]; by destruct w].
  intros [= <- <-]. done.
Qed.

Lemma insertCombination_db f s r w o w1 :
  insertCombination envFault f s r w = (o, w1) ->
  o <> Ret tt -> db w1 = db w.
Proof.
  rewrite insertCombination_run. cbv zeta.
  destruct (envFault (dbPos w)); [intros [= <- <-]; by destruct w|].
  destruct (applyStmt _ _); [intros [= <- <-]; by destruct w|].
  intros [= <- <-]. done.
Qed.

Lemma combineElements_returns fuel f s w w' :
  combineElements envHttp envFault fuel f s w = (Ret tt, w') ->
  exists resp m rows cs,
    fst (callApi envHttp fuel f s w) = Ret (Ok resp)
    /\ localItemsCache w = Some m
    /\ items (db w) = Some rows
    /\ combinations (db w) = Some cs
    /\ countPair f s cs = 0
    /\ localItemsCache w' = Some (<[Result resp := Emoji resp]> m)
    /\ db w' = mkStore
                 (Some (upsertRow (Result resp) (Emoji resp) (IsNew resp) rows))
                 (Some (cs ++ [mkCombination f s (Result resp)])).
Proof.
  unfold combineElements. unfoldM.
  destruct (callApi_quiet envHttp fuel f s w) as [(Hd & Hc & Hp & _) _].
  destruct (callApi envHttp fuel f s w) as [[[resp|err]|c|msg|] w0]; try done.
  cbn [fst snd] in *.
  destruct (insertOrUpdateItem envFault _ _ _ w0) as [[[]|c|msg|] w1] eqn:Hup; try done.
  intros Hins.
  apply insertOrUpdateItem_returns in Hup as (m & rows & Hm & Hi & Hm1 & Hdb1 & _).
  apply insertCombination_returns in Hins as (cs & Hcs & H0 & Hdb' & Hc' & _).
  rewrite Hdb1 in Hcs, Hdb'. cbn [combinations items] in Hcs, Hdb'.
  exists resp, m, rows, cs. rewrite <- Hd, <- Hc. repeat split; auto; congruence.
Qed.

Lemma combineElements_db fuel f s w o w' :
  combineElements envHttp envFault fuel f s w = (o, w') ->
  o <> Ret tt ->
  db w' = db w
  \/ exists resp rows,
       items (db w) = Some rows
       /\ db w' = mkStore
                    (Some (upsertRow (Result resp) (Emoji resp) (IsNew resp) rows))
                    (combinations (db w)).
Proof.
  unfold combineElements. unfoldM.
  destruct (callApi_quiet envHttp fuel f s w) as [(Hd & Hc & Hp & _) _].
  destruct (callApi envHttp fuel f s w) as [[[resp|err]|c|msg|] w0];
    cbn [fst snd] in *; try (intros [= <- <-] _; by left).
  destruct (insertOrUpdateItem envFault _ _ _ w0) as [[[]|c|msg|] w1] eqn:Hup;
    try (intros [= <- <-] _; left; rewrite <- Hd;
         eapply insertOrUpdateItem_db; [apply Hup|done]).
  intros Hins Hne. right.
    apply insertOrUpdateItem_returns in Hup as (m & rows & Hm & Hi & Hm1 & Hdb1 & _).
  exists resp, rows. rewrite <- Hd. split; [done|].
  rewrite (insertCombination_db _ _ _ _ _ _ Hins Hne). done.
Qed.

(** X7: an answer that is not a result.  When the eventual answer to a
    request is no decodable result, [combineElements] writes nothing:
    store and cache are as before and the store has not been called.
    A status of 400 or more panics; a failed transport, an unreadable
    body or a body that is not JSON is fatal (exit with status 1). *)
Theorem hard_failure_aborts (k fuel : nat) (f s : string) (w : World) :
  (forall i, (i < k)%nat -> is429 (envHttp (httpPos w + i)%nat f s) = true) ->
  is429 (envHttp (httpPos w + k)%nat f s) = false ->
  (k < fuel)%nat ->
  (forall resp, finalOutcome (envHttp (httpPos w + k)%nat f s) <> Ret (Ok resp)) ->
  let r := combineElements envHttp envFault fuel f s w in
  db (snd r) = db w
  /\ localItemsCache (snd r) = localItemsCache w
  /\ dbPos (snd r) = dbPos w
  /\ (fst r = Exit 1 \/ exists msg, fst r = Panic msg)
  /\ (envHttp (httpPos w + k)%nat f s = TransportError -> fst r = Exit 1)
  /\ (forall resp,
        envHttp (httpPos w + k)%nat f s = Response resp ->
        (400 <= StatusCode resp -> exists msg, fst r = Panic msg)
        /\ (StatusCode resp < 400 -> fst r = Exit 1)).
Proof.
  intros Hthr Hfin Hfuel Hbad. cbv zeta.
  unfold combineElements. unfoldM.
  rewrite (callApi_retries envHttp k fuel f s w Hthr Hfin Hfuel).
  set (W := mkWorld _ _ _ _ _ _ _ _ _).
  assert (HW : db W = db w /\ localItemsCache W = localItemsCache w
               /\ dbPos W = dbPos w) by done.
  clearbody W. destruct HW as (Hd & Hc & Hp).
  destruct (envHttp (httpPos w + k)%nat f s) as [|resp] eqn:E; cbn [finalOutcome] in *.
  - cbn [fst snd]. destruct W. unfoldW.
    split; [done|]. split; [done|]. split; [done|]. split; [by left|].
    split; [done|]. intros resp [=].
  - unfold decodeOutcome in *.
    destruct (400 <=? StatusCode resp) eqn:E4.
    + apply Z.leb_le in E4. cbn [fst snd].
      split; [done|]. split; [done|]. split; [done|]. split; [right; eauto|].
      split; [done|]. intros resp' [= <-]. split; [eauto|lia].
    + apply Z.leb_gt in E4.
      destruct (Body resp) as [| |a]; [| |by destruct (Hbad a)];
        cbn [fst snd]; destruct W; unfoldW;
        (split; [done|]; split; [done|]; split; [done|]; split; [by left|];
         split; [done|]; intros resp' [= <-]; split; [lia|done]).
Qed.

(** X8: a discovery is recorded in the cache and in the store alike.
    When [combineElements] returns, the API answered with a result; the
    cache is the old one with the result's name mapped to its emoji;
    the items table has the result's row, with that emoji and the
    answer's isNew flag, all other rows being as before; and the
    combinations table has gained, as its last row, the pair with that
    result, a pair that had no row before. *)
Theorem discovery_is_recorded (fuel : nat) (f s : string) (w w' : World) :
  combineElements envHttp envFault fuel f s w = (Ret tt, w') ->
  exists resp m rows cs rows' cs',
    fst (callApi envHttp fuel f s w) = Ret (Ok resp)
    /\ localItemsCache w = Some m /\ items (db w) = Some rows
    /\ combinations (db w) = Some cs
    /\ localItemsCache w' = Some (<[Result resp := Emoji resp]> m)
    /\ items (db w') = Some rows' /\ combinations (db w') = Some cs'
    /\ mkItem (Result resp) (Emoji resp) (IsNew resp) ∈ rows'
    /\ filter (fun r => name r ≠ Result resp) rows'
       = filter (fun r => name r ≠ Result resp) rows
    /\ countPair f s cs = 0
    /\ cs' = cs ++ [mkCombination f s (Result resp)].
Proof.
  intros Hrun.
  destruct (combineElements_returns fuel f s w w' Hrun)
    as (resp & m & rows & cs & Hcall & Hm & Hi & Hcs & H0 & Hm' & Hdb').
  exists resp, m, rows, cs. eexists. eexists.
  rewrite Hdb'. cbn [items combinations].
  repeat split; auto using upsertRow_elem, upsertRow_others.
Qed.

(** *** The schema is kept over a whole run *)

Hypothesis envIter_perm : forall k m, envIter k m ≡ₚ elements (dom m).

Lemma hasItem_true n rows : hasItem n rows = true <-> n ∈ map name rows.
Proof.
  induction rows as [|r rows IH]; simpl.
  - split; [done|by intros ?%elem_of_nil].
  - rewrite orb_true_iff, String.eqb_eq, IH, elem_of_cons. intuition auto.
Qed.

Lemma upsertRow_fresh n e b rows :
  hasItem n rows = false -> upsertRow n e b rows = rows ++ [mkItem n e b].
Proof.
  induction rows as [|r rows IH]; simpl; [done|].
  destruct (String.eqb (name r) n); simpl; [done|].
  intros H. by rewrite IH.
Qed.

Lemma upsertRow_NoDup n e b rows :
  NoDup (map name rows) -> NoDup (map name (upsertRow n e b rows)).
Proof.
  intros Hnd. destruct (hasItem n rows) eqn:E.
  - by rewrite upsertRow_names.
  - rewrite upsertRow_fresh, map_app by done. simpl.
    apply NoDup_app. split; [done|]. split; [|apply NoDup_singleton].
    intros x Hx ->%list_elem_of_singleton.
    apply hasItem_true in Hx. congruence.
Qed.

Lemma hasEntry_hasItem n e rows : hasEntry n e rows = true -> hasItem n rows = true.
Proof.
  unfold hasEntry, hasItem. rewrite !existsb_exists.
  intros (r & Hr & H). exists r. split; [done|].
  by apply andb_true_iff in H as [H _].
Qed.

Lemma hasEntry_upsert_same n e b rows : hasEntry n e (upsertRow n e b rows) = true.
Proof.
  induction rows as [|r rows IH]; simpl.
  - by rewrite !String.eqb_refl.
  - destruct (String.eqb (name r) n) eqn:E; simpl.
    + by rewrite E, String.eqb_refl.
    + rewrite IH. apply orb_true_r.
Qed.

Lemma hasEntry_upsert_other n e n' e' b rows :
  n' <> n -> hasEntry n' e' (upsertRow n e b rows) = hasEntry n' e' rows.
Proof.
  intros Hne. induction rows as [|r rows IH]; simpl.
  - apply String.eqb_neq in Hne. rewrite String.eqb_sym in Hne. by rewrite Hne.
  - destruct (String.eqb (name r) n) eqn:E; simpl; [|by rewrite IH].
    apply String.eqb_eq in E. rewrite E.
    assert (Hn : String.eqb n n' = false)
      by (apply String.eqb_neq; congruence).
    by rewrite Hn.
Qed.

Lemma storeOk_upsert n e b rows cs :
  storeOk (mkStore (Some rows) (Some cs)) ->
  storeOk (mkStore (Some (upsertRow n e b rows)) (Some cs)).
Proof.
  unfold storeOk. cbn [items combinations]. intros (Hn & Hp & Hf).
  split; [by apply upsertRow_NoDup|]. split; [done|].
  eapply Forall_impl; [apply Hf|]. cbn beta.
  intros c (H1 & H2 & H3). auto using hasItem_upsertRow_mono.
Qed.

Lemma storeOk_insert f s r rows cs :
  storeOk (mkStore (Some rows) (Some cs)) ->
  countPair f s cs = 0 ->
  hasItem f rows = true -> hasItem s rows = true -> hasItem r rows = true ->
  storeOk (mkStore (Some rows) (Some (cs ++ [mkCombination f s r]))).
Proof.
  unfold storeOk. cbn [items combinations]. intros (Hn & Hp & Hf) H0 Hf' Hs' Hr'.
  split; [done|]. split.
  - rewrite map_app. apply NoDup_app. split; [done|].
    split; [|apply NoDup_singleton].
    intros x Hx ->%list_elem_of_singleton. by apply countPair_zero in H0.
  - apply Forall_app. split; [done|]. by repeat constructor.
Qed.

Lemma wellFormed_same w w' :
  db w' = db w -> localItemsCache w' = localItemsCache w ->
  wellFormed w -> wellFormed w'.
Proof. unfold wellFormed. by intros -> ->. Qed.

Lemma getRandomItems_members fuel f s w w1 :
  getRandomItems envRand envIter fuel w = (Ret (f, s, None), w1) ->
  f ∈ keysOf envIter w /\ s ∈ keysOf envIter w.
Proof.
  rewrite getRandomItems_run. cbv zeta.
  destruct (_ <? 2); [done|].
  destruct (redraw _ _ _ _ _ _) as [[si|x|msg|] w2]; try done.
  destruct (_ !! Z.to_nat _) as [a|] eqn:Ha; [|done].
  destruct (_ !! Z.to_nat si) as [b|] eqn:Hb; [|done].
  intros [= <- <- <-]. split; by eapply list_elem_of_lookup_2.
Qed.

Lemma combineElements_keeps fuel f s w o w' :
  wellFormed w ->
  (exists m, localItemsCache w = Some m /\ f ∈ dom m /\ s ∈ dom m) ->
  combineElements envHttp envFault fuel f s w = (o, w') ->
  storeOk (db w') /\ (o = Ret tt -> wellFormed w').
Proof.
  intros [Hst Hmir] (m & Hm & Hf & Hs) Hrun.
  rewrite Hm in Hmir.
  destruct (db w) as [[rows|] [cs|]] eqn:Hdb; try done. cbn [items] in Hmir.
  assert (Hin : forall n, n ∈ dom m -> hasItem n rows = true).
  { intros n [e He]%elem_of_dom. eapply hasEntry_hasItem, (Hmir n e He). }
  assert (Hcase : o = Ret tt \/ o <> Ret tt)
    by (destruct o as [[]| | |]; [by left|by right..]).
  destruct Hcase as [->|Hne].
  - apply combineElements_returns in Hrun
      as (resp & m' & rows' & cs' & _ & Hm' & Hi & Hcs & H0 & Hc' & Hdb').
    rewrite Hdb in Hi, Hcs. cbn in Hi, Hcs.
    injection Hi as <-. injection Hcs as <-. assert (m' = m) as -> by congruence.
    assert (Hok : storeOk (db w')).
    { rewrite Hdb'. apply storeOk_insert; auto using hasItem_upsertRow_mono,
        hasItem_upsertRow. by apply storeOk_upsert. }
    split; [done|]. intros _. split; [done|].
    rewrite Hc', Hdb'. cbn [items].
    intros n e. destruct (decide (n = Result resp)) as [->|Hn].
    + rewrite lookup_insert_eq. intros [= <-]. apply hasEntry_upsert_same.
    + rewrite lookup_insert_ne by done. intros He.
      rewrite hasEntry_upsert_other by done. by apply (Hmir n e).
  - split; [|done].
    destruct (combineElements_db _ _ _ _ _ _ Hrun Hne)
      as [->|(resp & rows' & Hi & ->)]; [by rewrite Hdb|].
    rewrite Hdb in Hi |- *. cbn in Hi |- *. injection Hi as <-.
    by apply storeOk_upsert.
Qed.

Lemma combinationExists_ret f s w :
  exists b oe,
    combinationExists envFault f s w = (Ret (b, oe), setDbPos (S (dbPos w)) w).
Proof.
  rewrite combinationExists_run. cbv zeta.
  destruct (envFault (dbPos w)); [eauto|].
  destruct (combinations (db w)); eauto.
Qed.

Lemma iteration_keeps gas c a w o w' :
  wellFormed w ->
  iteration envRand envIter envHttp envFault gas c a w = (o, w') ->
  storeOk (db w') /\ ((exists x, o = Ret x) -> wellFormed w').
Proof.
  intros Hwf. rewrite iteration_run.
  destruct (getRandomItems envRand envIter gas w) as [o1 w1] eqn:Hg.
  pose proof (getRandomItems_frame _ _ _ _ _ _ Hg) as Hw1.
  assert (Hwf1 : wellFormed w1).
  { apply (wellFormed_same w); [| |done]; rewrite Hw1; by destruct w. }
  assert (Hlog : forall e, wellFormed (addEvent e w1)).
  { intros e. apply (wellFormed_same w1); [by destruct w1|by destruct w1|done]. }
  destruct o1 as [[[f s] [e|]]|x|msg|];
    try (intros [= <- <-]; split; [apply Hwf1 || apply (Hlog _)|]; intros _;
         apply Hwf1 || apply (Hlog _)).
  apply getRandomItems_members in Hg as [Hf Hs].
  apply (keysOf_dom envIter envIter_perm) in Hf as (m & Hm & Hf).
  apply (keysOf_dom envIter envIter_perm) in Hs as (m' & Hm' & Hs).
  assert (m' = m) as -> by congruence. clear Hm'.
  destruct (combinationExists_ret f s w1) as (b & oe & Hce). rewrite Hce.
  set (w2 := setDbPos (S (dbPos w1)) w1) in *.
  assert (Hwf2 : wellFormed w2).
  { apply (wellFormed_same w1); [by destruct w1|by destruct w1|done]. }
  assert (Hlog2 : forall e, wellFormed (addEvent e w2)).
  { intros e. apply (wellFormed_same w2); [by destruct w1|by destruct w1|done]. }
  destruct oe as [e|].
  { destruct b; intros [= <- <-]; (split; [apply (Hlog2 _)|intros _; apply (Hlog2 _)]). }
  destruct b.
  { intros [= <- <-]. split; [apply (Hlog2 _)|intros _; apply (Hlog2 _)]. }
  destruct (combineElements envHttp envFault gas f s w2) as [o3 w3] eqn:Hcomb.
  destruct (combineElements_keeps gas f s w2 o3 w3 Hwf2) as [Hok Hwf3]; [|done|].
  { exists m. split; [|done]. subst w2. rewrite Hw1. destruct w. exact Hm. }
  destruct o3 as [[]|x|msg|]; intros [= <- <-];
    try (split; [done|]; intros [x' Hx']; done).
  specialize (Hwf3 eq_refl).
  assert (Hfin : wellFormed (addEvent pacingSleep w3))
    by (apply (wellFormed_same w3); [by destruct w3|by destruct w3|done]).
  split; [apply Hfin|intros _; apply Hfin].
Qed.

Lemma exploreLoop_keeps fuel : forall gas maxC maxA c a w o w',
  wellFormed w ->
  exploreLoop envRand envIter envHttp envFault fuel gas maxC maxA c a w = (o, w') ->
  storeOk (db w') /\ ((exists x, o = Ret x) -> wellFormed w').
Proof.
  induction fuel as [|fuel IH]; intros gas maxC maxA c a w o w' Hwf;
    (destruct (decide (c < maxC /\ a < maxA)) as [[Hc Ha]|Hn];
     [|rewrite exploreLoop_done by done; intros [= <- <-]; split; [apply Hwf|done]]).
  - rewrite exploreLoop_zero by done. intros [= <- <-]. split; [apply Hwf|done].
  - rewrite exploreLoop_step by done.
    destruct (iteration _ _ _ _ _ _ _ _) as [o1 w1] eqn:Hit.
    destruct (iteration_keeps _ _ _ _ _ _ Hwf Hit) as [Hok Hwf1].
    destruct o1 as [[[c1 a1]|]|x|msg|];
      try (intros [= <- <-]; split; [done|]; intros [x' Hx']; done).
    + apply IH, Hwf1. eauto.
    + intros [= <- <-]. split; [done|]. intros _. apply Hwf1. eauto.
Qed.

(** X9: the schema is kept over a whole run.  Started in a state in
    which the store satisfies what its schema declares (unique names,
    unique ordered pairs, every combination naming three existing
    items, which SQLite itself does not check here) and every cache
    entry is backed by an item row, [exploreCombinations] leaves the
    store in such a state however it ends, a fatal exit or a panic
    included; and when it returns the cache is again backed by the
    store. *)
Theorem run_keeps_schema (fuel : nat) (maxC maxA : Z) (w w' : World) (o : outcome unit) :
  wellFormed w ->
  exploreCombinations envRand envIter envHttp envFault fuel maxC maxA w = (o, w') ->
  storeOk (db w') /\ (o = Ret tt -> wellFormed w').
Proof.
  intros Hwf. unfold exploreCombinations. unfoldM.
  destruct (exploreLoop _ _ _ _ _ _ _ _ _ _ _) as [o1 w1] eqn:Hl.
  destruct (exploreLoop_keeps _ _ _ _ _ _ _ _ _ Hwf Hl) as [Hok Hwf1].
  destruct o1 as [[[how c'] a']|x|msg|]; try (intros [= <- <-]; split; done).
  specialize (Hwf1 ltac:(eauto)).
  destruct how; intros [= <- <-]; [|split; done].
  assert (wellFormed
            (addEvent
               (EvLog InfoLevel
                  [LStr "Finished creating combinations. Total created: "; LInt c';
                   LStr ", Total attempts: "; LInt a']) w1))
    by (apply (wellFormed_same w1); [by destruct w1|by destruct w1|done]).
  split; [by destruct H|done].
Qed.

(** *** Successes are rows *)

Lemma iteration_rows gas c a w x w' cs :
  iteration envRand envIter envHttp envFault gas c a w = (Ret x, w') ->
  combinations (db w) = Some cs ->
  match x with
  | None => db w' = db w
  | Some (c', a') =>
      a' = wrap64 (a + 1)
      /\ ((c' = c /\ db w' = db w)
          \/ (c' = wrap64 (c + 1)
              /\ exists row, combinations (db w') = Some (cs ++ [row])))
  end.
Proof.
  rewrite iteration_run. intros Hrun Hcs.
  destruct (getRandomItems envRand envIter gas w) as [o1 w1] eqn:Hg.
  pose proof (getRandomItems_frame _ _ _ _ _ _ Hg) as Hw1.
  assert (Hdb1 : db w1 = db w) by (rewrite Hw1; by destruct w).
  destruct o1 as [[[f s] [e|]]|?|?|]; try done.
  { injection Hrun as <- <-. by destruct w1. }
  destruct (combinationExists_ret f s w1) as (b & oe & Hce). rewrite Hce in Hrun.
  set (w2 := setDbPos (S (dbPos w1)) w1) in *.
  assert (Hdb2 : db w2 = db w) by (rewrite <- Hdb1; by destruct w1).
  destruct oe as [e|].
  { destruct b; injection Hrun as <- <-; rewrite <- Hdb2; by destruct w1. }
  destruct b.
  { injection Hrun as <- <-. split; [done|]. left. split; [done|].
    rewrite <- Hdb2. by destruct w1. }
  destruct (combineElements envHttp envFault gas f s w2) as [[[]|?|?|] w3] eqn:Hcomb;
    try done.
  injection Hrun as <- <-. split; [done|]. right. split; [done|].
  apply combineElements_returns in Hcomb
    as (resp & m & rows & cs' & _ & _ & _ & Hcs' & _ & _ & Hdb3).
  rewrite Hdb2, Hcs in Hcs'. injection Hcs' as <-.
  eexists. destruct w3. unfoldW. cbn in Hdb3. rewrite Hdb3. reflexivity.
Qed.

Lemma exploreLoop_rows fuel : forall gas maxC maxA c a w how c' a' w' cs,
  maxC <= maxInt64 -> maxA <= maxInt64 ->
  0 <= c <= maxC -> 0 <= a <= maxA ->
  exploreLoop envRand envIter envHttp envFault fuel gas maxC maxA c a w
  = (Ret (how, c', a'), w') ->
  combinations (db w) = Some cs ->
  exists added,
    combinations (db w') = Some (cs ++ added)
    /\ Z.of_nat (length added) = c' - c
    /\ c' - c <= a' - a.
Proof.
  induction fuel as [|fuel IH];
    intros gas maxC maxA c a w how c' a' w' cs HC HA Hc Ha;
    (destruct (decide (c < maxC /\ a < maxA)) as [[Hc' Ha']|Hn];
     [|rewrite exploreLoop_done by done; intros [= <- <- <- <-] Hcs;
       exists []; rewrite app_nil_r; simpl; repeat split; [done|lia..]]).
  - rewrite exploreLoop_zero by done. done.
  - rewrite exploreLoop_step by done.
    destruct (iteration _ _ _ _ _ _ _ _) as [[x|?|?|] w1] eqn:Hit; try done.
    intros Hl Hcs. pose proof (iteration_rows _ _ _ _ _ _ _ Hit Hcs) as Hx.
    destruct x as [[c1 a1]|].
    + destruct Hx as [-> Hx].
      rewrite (wrap64_id (a + 1)) in Hl by (unfold minInt64, maxInt64 in *; lia).
      destruct Hx as [[-> Hdb]|[-> (row & Hrow)]].
      * destruct (IH gas maxC maxA c (a + 1) w1 how c' a' w' cs)
          as (added & H1 & H2 & H3); [done|done|lia|lia|done|by rewrite Hdb|].
        exists added. repeat split; [done|lia..].
      * rewrite (wrap64_id (c + 1)) in Hl by (unfold minInt64, maxInt64 in *; lia).
        destruct (IH gas maxC maxA (c + 1) (a + 1) w1 how c' a' w' (cs ++ [row]))
          as (added & H1 & H2 & H3); [done|done|lia|lia|done|done|].
        exists (row :: added). rewrite H1, <- app_assoc.
        split; [reflexivity|]. cbn [length]. lia.
    + injection Hl as <- <- <- <-.
      exists []. rewrite app_nil_r, Hx. simpl. repeat split; [done|lia..].
Qed.

(** X10: the count of created combinations is the number of rows
    written.  When the loop ends, on its condition or by an abort, the
    combinations table is the one it started with followed by exactly
    as many new rows as the counter of created combinations says, and
    that counter is never ahead of the counter of attempts. *)
Theorem successes_are_rows (fuel gas : nat) (maxC maxA c' a' : Z) (how : LoopExit)
    (w w' : World) (cs : list Combination) :
  0 <= maxC <= maxInt64 -> 0 <= maxA <= maxInt64 ->
  exploreLoop envRand envIter envHttp envFault fuel gas maxC maxA 0 0 w
  = (Ret (how, c', a'), w') ->
  combinations (db w) = Some cs ->
  exists added,
    combinations (db w') = Some (cs ++ added)
    /\ Z.of_nat (length added) = c'
    /\ c' <= a'.
Proof.
  intros HC HA Hl Hcs.
  destruct (exploreLoop_rows fuel gas maxC maxA 0 0 w how c' a' w' cs)
    as (added & H1 & H2 & H3); try done; try lia.
  exists added. repeat split; [done|lia..].
Qed.

(** *** The whole program *)

Variable envStat : option OsError.

Lemma createTables_returns w w' :
  createTables envFault w = (Ret tt, w') ->
  db w' = mkStore (Some []) (Some []) /\ localItemsCache w' = localItemsCache w.
Proof.
  unfold createTables. unfoldM. rewrite dbExec_run. cbv zeta.
  destruct w as [[its cs] c rp ip hp dp fr pk ev]. unfoldW. cbn [items combinations].
  destruct (envFault dp); [done|].
  destruct its as [rows|]; [done|].
  cbn -[dbExec]. rewrite dbExec_run. cbv zeta. unfoldW. cbn [items combinations].
  destruct (envFault (S dp)); [done|].
  destruct cs as [cs|]; [done|]. cbn. by intros [= <-].
Qed.

Lemma insertItems_returns l : forall w w' rows,
  insertItems l w = (Ret tt, w') ->
  items (db w) = Some rows ->
  items (db w') = Some (rows ++ map (fun p => mkItem (fst p) (snd p) false) l)
  /\ combinations (db w') = combinations (db w)
  /\ (forall p, p ∈ l -> hasItem (fst p) rows = false).
Proof.
  induction l as [|p l IH]; intros w w' rows.
  - intros [= <-] Hi. destruct w. unfoldW. simpl. rewrite app_nil_r.
    repeat split; [done|]. by intros p ?%elem_of_nil.
  - cbn [insertItems foldr]. unfoldM. rewrite dbExec_run. cbv zeta.
    destruct (envFault (dbPos w)); [done|].
    intros Hrun Hi. cbn [applyStmt] in Hrun. rewrite Hi in Hrun.
    destruct (hasItem (fst p) rows) eqn:Hp; [done|].
    apply (IH _ _ (rows ++ [mkItem (fst p) (snd p) false])) in Hrun
      as (Hi' & Hcs' & Hfresh); [|by destruct w].
    rewrite Hi', Hcs'. simpl. rewrite <- app_assoc.
    split; [done|]. split; [by destruct w|].
    intros q [->|Hq]%elem_of_cons; [done|].
    specialize (Hfresh q Hq). rewrite hasItem_app in Hfresh.
    by apply orb_false_iff in Hfresh as [? _].
Qed.

Lemma seedRows_ok : storeOk (mkStore (Some seedRows) (Some [])).
Proof.
  unfold storeOk. cbn [items combinations].
  split; [apply initialItems_NoDup|]. split; [apply NoDup_nil_2|constructor].
Qed.

(** X11: the whole program keeps the schema.  When [main] returns, the
    store satisfies what its schema declares and every cache entry is
    backed by an item row, provided that a store that was found to
    exist at start-up was already in order; a store that is created by
    this run needs no assumption. *)
Theorem main_keeps_schema (fuel : nat) (w w' : World) :
  main envRand envIter envHttp envFault envScan envStat fuel w = (Ret tt, w') ->
  (envStat <> Some ErrNotExist -> storeOk (db w)) ->
  wellFormed w'.
Proof.
  unfold main, initializeDatabase. unfoldM. intros Hrun Hold.
  set (w0 := addEvent _ w) in Hrun.
  assert (Hinit : exists w1,
             (if negb (checkDatabaseExists envStat)
              then createTables envFault;; insertInitialItems envFault
              else mret tt) w0 = (Ret tt, w1)
             /\ storeOk (db w1)).
  { destruct (negb (checkDatabaseExists envStat)) eqn:Hchk.
    - unfoldM.
      destruct (createTables envFault w0) as [[[]|?|?|] wa] eqn:Hct; try done.
      destruct (insertInitialItems envFault wa) as [[[]|?|?|] wb] eqn:Hsd; try done.
      exists wb. split; [done|].
      apply createTables_returns in Hct as [Hdba _].
      apply (insertItems_returns initialItems wa wb []) in Hsd as (Hi & Hcs & _);
        [|by rewrite Hdba].
      rewrite Hdba in Hcs. simpl in Hi, Hcs.
      pose proof seedRows_ok as Hok. unfold storeOk in *.
      rewrite Hi, Hcs. exact Hok.
    - exists w0. split; [done|].
      replace (db w0) with (db w) by (by destruct w). apply Hold.
      unfold checkDatabaseExists in Hchk.
      destruct envStat as [[]|]; done. }
  destruct Hinit as (w1 & Hinit & Hok1). unfoldM. rewrite Hinit in Hrun.
  destruct (initializeLocalCache envFault envScan w1) as [[[]|?|?|] w2] eqn:Hload;
    try done.
  apply initializeLocalCache_returns in Hload as (rows & _ & Hrows & Hdb2 & Hm2 & _).
  assert (Hwf2 : wellFormed w2).
  { split; [by rewrite Hdb2|].
    rewrite Hm2, Hdb2, Hrows.
    intros n e He. apply hydrated_entry in He as [He|He].
    - by rewrite lookup_empty in He.
    - by apply hasEntry_take in He. }
  unfold exploreCombinations in Hrun. unfoldM.
  destruct (exploreLoop _ _ _ _ _ _ _ _ _ _ _) as [o3 w3] eqn:Hl.
  destruct (exploreLoop_keeps _ _ _ _ _ _ _ _ _ Hwf2 Hl) as [_ Hwf3].
  destruct o3 as [[[how c'] a']|?|?|]; try done.
  specialize (Hwf3 ltac:(eauto)).
  destruct how; injection Hrun as <-; [|done].
  apply (wellFormed_same w3); [by destruct w3|by destruct w3|done].
Qed.

End Upkeep.

(** ** The further properties on concrete runs *)

(** The seeded store before the cache is loaded. *)
Definition coldWorld : World :=
  mkWorld (mkStore (Some seedRows) (Some [])) None 0 0 0 0 0 0 [].

(** Both tables created, nothing in them. *)
Definition blankWorld : World :=
  mkWorld (mkStore (Some []) (Some [])) None 0 0 0 0 0 0 [].

(** A store with a single item, not yet loaded. *)
Definition lonelyCold : World :=
  mkWorld (mkStore (Some [mkItem "Water" "w" false]) (Some [])) None 0 0 0 0 0 0 [].

(** Every request is answered 500. *)
Definition serverError (k : nat) (f s : string) : HttpResult :=
  Response (mkHttpResponse 500 None BodyUnreadable).

(** Every row of every result set can be read. *)
Definition allScanned (q i : nat) : RowRead := RowScanned.

(** [rows.Next()] fails at the n-th row. *)
Definition cutAt (n q i : nat) : RowRead :=
  if (i =? n)%nat then NextFails else RowScanned.

(** [rows.Scan] fails at the n-th row. *)
Definition unscannable (n q i : nat) : RowRead :=
  if (i =? n)%nat then ScanFails else RowScanned.

(** The n-th call to the store fails. *)
Definition faultAt (n k : nat) : bool := (k =? n)%nat.

(** The whole table is loaded when every row can be read; a result set
    cut short after two rows leaves two keys, and the call returns all
    the same. *)
Lemma cache_hydration_witness :
  (exists m,
     localItemsCache (snd (initializeLocalCache noFault allScanned coldWorld)) = Some m
     /\ size m = 4%nat
     /\ forall r, r ∈ seedRows -> m !! name r = Some (emoji r))
  /\ (exists m,
        initializeLocalCache noFault (cutAt 2) coldWorld
        = (Ret tt, snd (initializeLocalCache noFault (cutAt 2) coldWorld))
        /\ localItemsCache (snd (initializeLocalCache noFault (cutAt 2) coldWorld))
           = Some m
        /\ size m = 2%nat).
Proof.
  split.
  - destruct (cache_hydration noFault allScanned coldWorld
                (snd (initializeLocalCache noFault allScanned coldWorld)))
      as (rows & k & m & Hrows & _ & Hm & Hle & _ & _ & _ & _ & Hnd & Hall).
    + vm_compute. reflexivity.
    + injection Hrows as <-. change (length seedRows) with 4%nat in Hle.
      destruct Hnd as [Hrow Hsize]; [apply initialItems_NoDup|].
      rewrite Hall in Hrow by reflexivity.
      assert (Hk : length (take k seedRows) = 4%nat) by (by rewrite Hall).
      rewrite length_take in Hk. change (length seedRows) with 4%nat in Hk.
      exists m. split; [exact Hm|]. split; [lia|exact Hrow].
  - assert (Hrun : initializeLocalCache noFault (cutAt 2) coldWorld
                   = (Ret tt, snd (initializeLocalCache noFault (cutAt 2) coldWorld)))
      by (vm_compute; reflexivity).
    destruct (cache_hydration noFault (cutAt 2) coldWorld _ Hrun)
      as (rows & k & m & Hrows & _ & Hm & Hle & Hsc & Hcut & _ & _ & Hnd & _).
    injection Hrows as <-.
    destruct Hnd as [_ Hsize]; [apply initialItems_NoDup|].
    exists m. split; [exact Hrun|]. split; [exact Hm|].
    destruct k as [|[|[|k]]].
    + specialize (Hcut ltac:(vm_compute; lia)). discriminate Hcut.
    + specialize (Hcut ltac:(vm_compute; lia)). discriminate Hcut.
    + exact Hsize.
    + specialize (Hsc 2%nat ltac:(lia)). discriminate Hsc.
Defined.

(** A missing table is fatal with the cache left empty; a row that
    cannot be scanned is fatal too; a readable table is loaded. *)
Lemma cache_hydration_fatal_witness :
  (fst (initializeLocalCache noFault allScanned emptyWorld) = Exit 1
   /\ localItemsCache (snd (initializeLocalCache noFault allScanned emptyWorld)) = Some ∅)
  /\ fst (initializeLocalCache noFault (unscannable 1) coldWorld) = Exit 1
  /\ fst (initializeLocalCache noFault allScanned coldWorld) = Ret tt.
Proof.
  split; [|split].
  - destruct (cache_hydration_fatal noFault allScanned emptyWorld) as [_ H].
    destruct H as (Ho & _ & Hc & _); [vm_compute; discriminate|].
    split; [exact Ho|]. apply Hc. right. reflexivity.
  - destruct (cache_hydration_fatal noFault (unscannable 1) coldWorld) as [_ H].
    destruct H as (Ho & _); [vm_compute; discriminate|]. exact Ho.
  - destruct (cache_hydration_fatal noFault allScanned coldWorld) as [H _].
    apply H. split; [reflexivity|]. exists seedRows. split; [reflexivity|].
    intros k _ _. discriminate.
Defined.

Lemma createTables_once_witness :
  db (snd (createTables noFault emptyWorld)) = mkStore (Some []) (Some [])
  /\ fst (createTables noFault blankWorld) = Exit 1.
Proof.
  split.
  - destruct (createTables_once noFault emptyWorld) as (Hiff & Hdb & _).
    apply Hdb, Hiff. repeat split.
  - destruct (createTables_once noFault blankWorld) as (_ & _ & Hex & _).
    apply Hex. vm_compute. discriminate.
Defined.

Lemma seeding_witness :
  (exists w',
      insertInitialItems noFault blankWorld = (Ret tt, w')
      /\ items (db w') = Some ([] ++ seedRows))
  /\ fst (insertInitialItems noFault coldWorld) = Exit 1.
Proof.
  split.
  - destruct (seeding noFault blankWorld [] eq_refl) as [H _].
    destruct H as (w' & Hrun & Hi & _).
    + intros p Hp. reflexivity.
    + intros k Hk. reflexivity.
    + exists w'. split; [exact Hrun|exact Hi].
  - destruct (seeding noFault coldWorld seedRows eq_refl) as [_ H].
    apply H. unfold initialItems. eexists. split; [apply list_elem_of_here|reflexivity].
Defined.

Lemma combination_roundtrip_witness :
  let w1 := snd (insertCombination noFault "Water" "Fire" "Steam" seededWorld) in
  fst (combinationExists noFault "Water" "Fire" w1) = Ret (true, None)
  /\ fst (combinationExists noFault "Fire" "Water" w1) = Ret (false, None).
Proof.
  intros w1.
  destruct (combination_roundtrip noFault "Water" "Fire" "Steam" seededWorld w1)
    as (cs & cs1 & _ & _ & _ & _ & _ & _ & Hyes & _).
  - vm_compute. reflexivity.
  - split; [apply Hyes; reflexivity|vm_compute; reflexivity].
Defined.

Lemma duplicate_pair_is_fatal_witness :
  fst (insertCombination noFault "Water" "Fire" "Mud" exploredWorld) = Exit 1
  /\ db (snd (insertCombination noFault "Water" "Fire" "Mud" exploredWorld))
     = db exploredWorld
  /\ fst (insertCombination noFault "Fire" "Water" "Steam"
            (snd (insertCombination noFault "Water" "Fire" "Steam" seededWorld)))
     = Ret tt.
Proof.
  split; [|split].
  - destruct (duplicate_pair_is_fatal noFault "Water" "Fire" "Mud" "Mud"
                exploredWorld exploredRows eq_refl) as [H _].
    apply H. vm_compute. reflexivity.
  - destruct (duplicate_pair_is_fatal noFault "Water" "Fire" "Mud" "Mud"
                exploredWorld exploredRows eq_refl) as [H _].
    apply H. vm_compute. reflexivity.
  - destruct (duplicate_pair_is_fatal noFault "Water" "Fire" "Steam" "Steam"
                seededWorld [] eq_refl) as [_ H].
    apply H.
    + vm_compute. reflexivity.
    + discriminate.
    + reflexivity.
    + reflexivity.
Defined.

(** Scenario D of the specification: the endpoint answers 500. *)
Lemma hard_failure_aborts_witness :
  let r := combineElements serverError noFault 3 "Water" "Fire" seededWorld in
  db (snd r) = db seededWorld
  /\ localItemsCache (snd r) = localItemsCache seededWorld
  /\ exists msg, fst r = Panic msg.
Proof.
  intros r.
  destruct (hard_failure_aborts serverError noFault 0 3 "Water" "Fire" seededWorld)
    as (Hdb & Hc & _ & _ & _ & Hresp).
  - intros i Hi. lia.
  - reflexivity.
  - lia.
  - intros resp. vm_compute. discriminate.
  - split; [exact Hdb|]. split; [exact Hc|].
    destruct (Hresp (mkHttpResponse 500 None BodyUnreadable) eq_refl) as [Hp _].
    apply Hp. simpl. lia.
Defined.

(** Scenario A of the specification: (Water, Fire) gives Steam. *)
Lemma discovery_is_recorded_witness :
  let w' :=
    snd (combineElements (throttledTimes 0 None) noFault 3 "Water" "Fire" seededWorld) in
  exists m rows' cs',
    localItemsCache w' = Some m /\ m !! "Steam" = Some "💨"
    /\ items (db w') = Some rows' /\ mkItem "Steam" "💨" true ∈ rows'
    /\ combinations (db w') = Some cs'
    /\ cs' = [mkCombination "Water" "Fire" "Steam"].
Proof.
  intros w'.
  destruct (discovery_is_recorded (throttledTimes 0 None) noFault 3 "Water" "Fire"
              seededWorld w')
    as (resp & m & rows & cs & rows' & cs' & Hcall & Hm & _ & Hcs & Hm' & Hi' & Hcs'
        & Hin & _ & _ & Heq).
  - vm_compute. reflexivity.
  - vm_compute in Hcall. injection Hcall as <-.
    vm_compute in Hcs. injection Hcs as <-.
    exists (<["Steam" := "💨"]> m), rows', cs'.
    split; [exact Hm'|]. split; [apply lookup_insert_eq|].
    split; [exact Hi'|]. split; [exact Hin|]. split; [exact Hcs'|exact Heq].
Defined.

Lemma seededWorld_wellFormed : wellFormed seededWorld.
Proof.
  split; [apply seedRows_ok|].
  cbn [localItemsCache seededWorld db items].
  intros n e. unfold initialItems. cbn [list_to_map foldr uncurry fst snd].
  intros H.
  repeat (apply lookup_insert_Some in H as [[<- <-]|[_ H]]; [reflexivity|]).
  by rewrite lookup_empty in H.
Qed.

Lemma run_keeps_schema_witness :
  let r :=
    exploreCombinations countingRand sortedIter (throttledTimes 0 None) noFault 6 2 10
      seededWorld in
  fst r = Ret tt /\ wellFormed (snd r).
Proof.
  intros r.
  assert (Ho : fst r = Ret tt) by (vm_compute; reflexivity).
  split; [exact Ho|].
  destruct (run_keeps_schema countingRand sortedIter (throttledTimes 0 None) noFault
              sortedIter_perm 6 2 10 seededWorld (snd r) (fst r)
              seededWorld_wellFormed (surjective_pairing r)) as [_ H].
  apply H, Ho.
Defined.

Lemma successes_are_rows_witness :
  let r :=
    exploreLoop countingRand sortedIter (throttledTimes 0 None) noFault 6 6 2 10 0 0
      seededWorld in
  exists added,
    combinations (db (snd r)) = Some ([] ++ added)
    /\ Z.of_nat (length added) = 2.
Proof.
  intros r.
  assert (Hr : fst r = Ret (Exhausted, 2, 2)) by (vm_compute; reflexivity).
  destruct (successes_are_rows countingRand sortedIter (throttledTimes 0 None) noFault
              6 6 2 10 2 2 Exhausted seededWorld (snd r) [])
    as (added & H1 & H2 & _).
  - unfold maxInt64. lia.
  - unfold maxInt64. lia.
  - rewrite <- Hr. apply surjective_pairing.
  - reflexivity.
  - exists added. split; [exact H1|exact H2].
Defined.

(** A run of the whole program on a machine without a store: the
    tables are created and seeded, the cache is loaded, the first pair
    drawn is combined into Steam and recorded, and the existence check
    of the second iteration meets a store failure, on which
    [exploreCombinations], and with it [main], returns. *)
Lemma main_keeps_schema_witness :
  let r :=
    main countingRand sortedIter (throttledTimes 0 None) (faultAt 10) allScanned
      (Some ErrNotExist) 5 emptyWorld in
  fst r = Ret tt
  /\ wellFormed (snd r)
  /\ (exists rows f s,
        items (db (snd r)) = Some rows /\ length rows = 5%nat
        /\ combinations (db (snd r)) = Some [mkCombination f s "Steam"])
  /\ httpPos (snd r) = 1%nat.
Proof.
  intros r.
  assert (Ho : fst r = Ret tt) by (vm_compute; reflexivity).
  split; [exact Ho|]. split.
  - apply (main_keeps_schema countingRand sortedIter (throttledTimes 0 None) (faultAt 10)
             allScanned sortedIter_perm (Some ErrNotExist) 5 emptyWorld (snd r)).
    + rewrite <- Ho. apply surjective_pairing.
    + intros H. by destruct H.
  - split; [|vm_compute; reflexivity].
    eexists. eexists. eexists. vm_compute. split; [reflexivity|]. split; reflexivity.
Defined.

End Collect.

(** * json.go *)

Module JsonExport.

Record Item := mkItem {
  Text : string;          (* `json:"text"` *)
  Emoji : string;         (* `json:"emoji"` *)
  Discovered : bool       (* `json:"discovered"` *)
}.

(** [Elements] is a slice: the empty list stands for the nil slice that
    [var itemsList ItemsList] starts with, and [append] never produces an
    empty one. *)
Record ItemsList := mkItemsList {
  Elements : list Item    (* `json:"elements"` *)
}.

(** The document that [json.Marshal] produces, as a tree; object fields
    in the order they are written.  A [JString] holds the string that
    the written text denotes, whatever escapes it is written with. *)
#[local] Unset Elimination Schemes.
Inductive json :=
| JNull
| JBool (b : bool)
| JString (s : string)
| JArray (l : list json)
| JObject (fields : list (string * json)).
#[local] Set Elimination Schemes.

(** *** Strings

    [encoding/json] writes a Go string rune by rune as
    [utf8.DecodeRuneInString] finds them, and writes U+FFFD for every
    byte at which no valid encoding starts. *)

Definition byteOf (a : ascii) : Z := Z.of_N (N_of_ascii a).

Definition within (lo hi : Z) (a : ascii) : bool :=
  (lo <=? byteOf a) && (byteOf a <=? hi).

(** A continuation byte, 0x80 to 0xBF. *)
Definition continuation : ascii -> bool := within 128 191.

(** The size of the encoding that starts the string, [None] where
    [utf8.DecodeRuneInString] returns [(RuneError, 1)]: a byte that
    cannot start an encoding, an encoding that is cut short, overlong,
    of a surrogate or beyond U+10FFFF. *)
Definition runeLen (s : string) : option nat :=
  match s with
  | EmptyString => None
  | String a rest =>
      let x := byteOf a in
      if x <? 128 then Some 1%nat
      else if x <? 194 then None
      else if x <? 224 then
        match rest with
        | String b _ => if continuation b then Some 2%nat else None
        | _ => None
        end
      else if x <? 240 then
        match rest with
        | String b (String c _) =>
            if within (if x =? 224 then 160 else 128) (if x =? 237 then 159 else 191) b
               && continuation c
            then Some 3%nat else None
        | _ => None
        end
      else if x <? 245 then
        match rest with
        | String b (String c (String d _)) =>
            if within (if x =? 240 then 144 else 128) (if x =? 244 then 143 else 191) b
               && continuation c && continuation d
            then Some 4%nat else None
        | _ => None
        end
      else None
  end.

(** U+FFFD, the bytes EF BF BD. *)
Definition replacementChar : string :=
  String (ascii_of_N 239) (String (ascii_of_N 191) (String (ascii_of_N 189) EmptyString)).

(** The string a written string denotes; [skip] bytes of an encoding
    already found are still to be copied. *)
Fixpoint coerce (skip : nat) (s : string) : string :=
  match s with
  | EmptyString => EmptyString
  | String a rest =>
      match skip with
      | S k => String a (coerce k rest)
      | O =>
          match runeLen s with
          | None => String.append replacementChar (coerce 0 rest)
          | Some n => String a (coerce (n - 1) rest)
          end
      end
  end.

Definition toValidUTF8 (s : string) : string := coerce 0 s.

(** [utf8.ValidString] *)
Fixpoint validFrom (skip : nat) (s : string) : bool :=
  match s with
  | EmptyString => true
  | String a rest =>
      match skip with
      | S k => validFrom k rest
      | O =>
          match runeLen s with
          | None => false
          | Some n => validFrom (n - 1) rest
          end
      end
  end.

Definition validString (s : string) : bool := validFrom 0 s.

Definition marshalItem (it : Item) : json :=
  JObject [("text", JString (toValidUTF8 (Text it)));
           ("emoji", JString (toValidUTF8 (Emoji it)));
           ("discovered", JBool (Discovered it))].

(** A nil slice is marshalled as [null]. *)
Definition marshalItemsList (l : ItemsList) : json :=
  JObject [("elements",
            match Elements l with
            | [] => JNull
            | its => JArray (map marshalItem its)
            end)].


(** [rows.Scan(&item.Text, &item.Emoji, &item.Discovered)] on a row of
    [SELECT name, emoji, isNew FROM items] *)
Definition scan (r : Collect.Item) : Item :=
  mkItem (Collect.name r) (Collect.emoji r) (Collect.isNew r).

Inductive Outcome :=
| Fatal                                 (* log.Fatal *)
| Saved (file : json) (found : Z).      (* localStorage.json written, count printed *)

(** [for rows.Next() { ... rows.Scan ... append ... }] followed by the
    check of [rows.Err()], from the i-th row on: [None] is [log.Fatal],
    in the loop when [rows.Scan] fails and after it when [rows.Next()]
    has failed. *)
Fixpoint scanRows (read : nat -> Collect.RowRead) (i : nat)
    (pending : list Collect.Item) (itemsList : ItemsList) : option ItemsList :=
  match pending with
  | [] => Some itemsList
  | r :: rest =>
      match read i with
      | Collect.RowScanned =>
          scanRows read (S i) rest (mkItemsList (Elements itemsList ++ [scan r]))
      | Collect.ScanFails => None
      | Collect.NextFails => None
      end
  end.

(** [main]: the store as the items.db file holds it, whether [db.Query]
    fails, what reading the i-th row comes to, and whether
    [os.WriteFile] succeeds. *)
Definition main (st : Collect.Store) (queryFails : bool)
    (read : nat -> Collect.RowRead) (writable : bool) : Outcome :=
  if queryFails then Fatal
  else
    match Collect.items st with
    | None => Fatal
    | Some rows =>
        match scanRows read 0 rows (mkItemsList []) with
        | None => Fatal
        | Some itemsList =>
            let jsonData := marshalItemsList itemsList in
            if writable then Saved jsonData (Z.of_nat (length (Elements itemsList)))
            else Fatal
        end
    end.


Lemma scan_all read rows : forall i acc,
  (forall j, (j < length rows)%nat -> read (i + j)%nat = Collect.RowScanned) ->
  scanRows read i rows acc = Some (mkItemsList (Elements acc ++ map scan rows)).
Proof.
  induction rows as [|r rows IH]; intros i acc Hall; simpl.
  - rewrite app_nil_r. by destruct acc.
  - pose proof (Hall 0%nat ltac:(simpl; lia)) as H0. rewrite Nat.add_0_r in H0.
    rewrite H0, IH; [simpl; by rewrite <- app_assoc|].
    intros j Hj. replace (S i + j)%nat with (i + S j)%nat by lia.
    apply Hall. simpl. lia.
Qed.


Lemma coerce_valid s : forall skip, validFrom skip s = true -> coerce skip s = s.
Proof.
  induction s as [|a rest IH]; intros skip; [done|].
  cbn [validFrom coerce]. destruct skip as [|k].
  - destruct (runeLen (String a rest)) as [n|]; [|done].
    intros H. by rewrite IH.
  - intros H. by rewrite IH.
Qed.


(** Every row of every result set can be read. *)
Definition allScanned (i : nat) : Collect.RowRead := Collect.RowScanned.



Lemma name_unique rows r1 r2 :
  NoDup (map Collect.name rows) -> r1 ∈ rows -> r2 ∈ rows ->
  Collect.name r1 = Collect.name r2 -> r1 = r2.
Proof.
  induction rows as [|r rows IH]; intros Hnd H1 H2 Heq.
  - by apply elem_of_nil in H1.
  - apply NoDup_cons in Hnd as [Hn Hnd].
    apply elem_of_cons in H1 as [->|H1]; apply elem_of_cons in H2 as [->|H2].
    + done.
    + exfalso. apply Hn. rewrite Heq. apply list_elem_of_fmap. by exists r2.
    + exfalso. apply Hn. rewrite <- Heq. apply list_elem_of_fmap. by exists r1.
    + by apply IH.
Qed.

Lemma main_saved rows cs read :
  rows <> [] ->
  (forall i, (i < length rows)%nat -> read i = Collect.RowScanned) ->
  main (Collect.mkStore (Some rows) cs) false read true
  = Saved (JObject [("elements", JArray (map marshalItem (map scan rows)))])
      (Z.of_nat (length (map marshalItem (map scan rows)))).
Proof.
  intros Hne Hall. unfold main, marshalItemsList. cbn [Collect.items].
  rewrite (scan_all read rows 0) by done. cbn [Elements app]. rewrite !length_map.
  destruct rows as [|r rows]; [done|]. reflexivity.
Qed.

Lemma upsertRow_in n e b rows r :
  r ∈ Collect.upsertRow n e b rows -> Collect.name r = n \/ r ∈ rows.
Proof.
  induction rows as [|r0 rows IH]; simpl.
  - intros ->%list_elem_of_singleton. by left.
  - destruct (String.eqb (Collect.name r0) n) eqn:E.
    + apply String.eqb_eq in E.
      intros [->|H]%elem_of_cons; [by left|right; by right].
    + intros [->|H]%elem_of_cons; [right; by left|].
      destruct (IH H) as [?|?]; [by left|right; by right].
Qed.

(** X18: a discovery is exported.  When the engine, in a state where the
    store is in order and the cache is backed by it, has combined two
    cached names and [combineElements] has returned, the export of the
    resulting store writes an array that contains the object made of
    the name, emoji and isNew flag the service answered, and the number
    it prints is the length of the array.  When the names in the items
    table and the name answered are valid UTF-8, no other object of the
    array has that name as its text; names that are not can be written
    under the same text. *)
Theorem discovery_is_exported
    (envHttp : nat -> string -> string -> Collect.HttpResult) (envFault : nat -> bool)
    (fuel : nat) (f s : string) (w w' : Collect.World) (m : gmap string string)
    (read : nat -> Collect.RowRead) :
  Collect.wellFormed w ->
  Collect.localItemsCache w = Some m -> f ∈ dom m -> s ∈ dom m ->
  Collect.combineElements envHttp envFault fuel f s w = (Collect.Ret tt, w') ->
  (forall i, read i = Collect.RowScanned) ->
  exists resp docs,
    fst (Collect.callApi envHttp fuel f s w) = Collect.Ret (Collect.Ok resp)
    /\ main (Collect.db w') false read true
       = Saved (JObject [("elements", JArray docs)]) (Z.of_nat (length docs))
    /\ marshalItem
         (mkItem (Collect.Result resp) (Collect.Emoji resp) (Collect.IsNew resp))
       ∈ docs
    /\ (forall rows,
          Collect.items (Collect.db w) = Some rows ->
          Forall (fun r => validString (Collect.name r) = true) rows ->
          validString (Collect.Result resp) = true ->
          forall e b,
            JObject [("text", JString (Collect.Result resp)); ("emoji", JString e);
                     ("discovered", JBool b)] ∈ docs ->
            e = toValidUTF8 (Collect.Emoji resp) /\ b = Collect.IsNew resp).
Proof.
  intros Hwf Hm Hf Hs Hrun Hread.
  destruct (Collect.combineElements_keeps envHttp envFault fuel f s w (Collect.Ret tt) w' Hwf)
    as [Hok _]; [by exists m|exact Hrun|].
  apply Collect.combineElements_returns in Hrun
    as (resp & m' & rows & cs & Hcall & _ & Hi & Hcs & _ & _ & Hdb').
  pose proof (Collect.upsertRow_elem (Collect.Result resp) (Collect.Emoji resp)
                (Collect.IsNew resp) rows) as Hin.
  set (rows' := Collect.upsertRow _ _ _ rows) in *.
  unfold Collect.storeOk in Hok. rewrite Hdb' in Hok |- *.
  cbn [Collect.items Collect.combinations] in Hok. destruct Hok as (Hnd & _).
  exists resp, (map marshalItem (map scan rows')).
  split; [done|]. split.
  { apply main_saved; [|done]. intros E. rewrite E in Hin. by apply elem_of_nil in Hin. }
  split.
  - apply list_elem_of_fmap. eexists. split; [|apply list_elem_of_fmap; eauto].
    reflexivity.
  - intros rows0 Hi0 Hvalid HvalidR e b
      (it & Heq & (r & -> & Hr)%list_elem_of_fmap)%list_elem_of_fmap.
    assert (rows0 = rows) as -> by congruence.
    injection Heq as Hn -> ->. cbn [scan Text Emoji Discovered] in *.
    assert (Hvr : validString (Collect.name r) = true).
    { destruct (upsertRow_in _ _ _ _ _ Hr) as [->|Hr0]; [done|].
      by apply (proj1 (Forall_forall _ _) Hvalid). }
    unfold toValidUTF8 in Hn. rewrite (coerce_valid _ 0%nat Hvr) in Hn.
    assert (r = Collect.mkItem (Collect.Result resp) (Collect.Emoji resp)
                  (Collect.IsNew resp)) as ->
      by (apply (name_unique rows'); done).
    done.
Qed.

(** The export after the run that discovers Steam. *)
Lemma discovery_is_exported_witness :
  let w' :=
    snd (Collect.combineElements (Collect.throttledTimes 0 None) Collect.noFault 3
           "Water" "Fire" Collect.seededWorld) in
  exists docs,
    main (Collect.db w') false allScanned true
    = Saved (JObject [("elements", JArray docs)]) (Z.of_nat (length docs))
    /\ marshalItem (mkItem "Steam" "💨" true) ∈ docs
    /\ forall e b,
         JObject [("text", JString "Steam"); ("emoji", JString e);
                  ("discovered", JBool b)] ∈ docs ->
         e = "💨" /\ b = true.
Proof.
  intros w'.
  destruct (discovery_is_exported (Collect.throttledTimes 0 None) Collect.noFault 3
              "Water" "Fire" Collect.seededWorld w' _ allScanned
              Collect.seededWorld_wellFormed eq_refl)
    as (resp & docs & Hcall & Hmain & Hin & Hone).
  - apply elem_of_dom. eexists. vm_compute. reflexivity.
  - apply elem_of_dom. eexists. vm_compute. reflexivity.
  - vm_compute. reflexivity.
  - reflexivity.
  - vm_compute in Hcall. injection Hcall as <-.
    exists docs. split; [exact Hmain|]. split; [exact Hin|].
    intros e b Hd.
    destruct (Hone Collect.seedRows eq_refl) with (e := e) (b := b) as [-> ->].
    + repeat constructor.
    + vm_compute. reflexivity.
    + exact Hd.
    + split; [vm_compute|]; reflexivity.
Defined.

End JsonExport.

(** * main.go

    The search front end, over the store that the engine writes.  A
    handler is modelled by the calls it makes on its [ResponseWriter]
    and on the logger, in order.  What the handlers cannot decide is
    taken from the environment: whether the store fails a query,
    SQLite's [LIKE], and what executing a template produces. *)

Module Web.

Record Item := mkItem {
  Name : string;
  Emoji : string;
  IsNew : bool
}.

(** The three fields are pointers in the source; [Result] is the item
    the page is about. *)
Record Combination := mkCombination {
  Item1 : Item;
  Item2 : Item;
  Result : Item
}.

Inductive dbError :=
| ErrNoRows            (* sql.ErrNoRows *)
| ErrNoSuchTable
| ErrIO.

(** The four queries of the front end. *)
Inductive Query :=
| QItem (name : string)
| QParents (name : string)
| QSearch (pattern : string) (limit : Z)
| QCount.

(** The data handed to a template. *)
Inductive PageData :=
| StartPage (title : string) (totalItems : Z) (maybeItem : string) (asHTML : bool)
| ItemPage (item : Item) (combinations : list Combination).

Inductive Act :=
| Logf (format : string) (args : list string)
| HttpError (msg : option string) (code : Z)   (* None: the text of a template error *)
| WriteBody (body : string)                    (* what a template wrote to w *)
| WriteInt (n : Z).                            (* fmt.Fprintf(w, "%d", n) *)

Definition scan (r : Collect.Item) : Item :=
  mkItem (Collect.name r) (Collect.emoji r) (Collect.isNew r).

Section Handlers.

Variable storeFails : Query -> bool.
Variable like : string -> string -> bool.              (* pattern, value *)
Variable render : string -> PageData -> option string. (* template, data *)

(** [getItem]: the pointer and the error it returns. *)
Definition getItem (st : Collect.Store) (name : string) : option Item * option dbError :=
  if storeFails (QItem name) then (None, Some ErrIO)
  else
    match Collect.items st with
    | None => (None, Some ErrNoSuchTable)
    | Some rows =>
        match find (fun r => String.eqb (Collect.name r) name) rows with
        | Some r => (Some (scan r), None)
        | None => (None, Some ErrNoRows)
        end
    end.

(** The rows of the join of [getCombinations], in the order of a scan of
    [combinations] with the two item lookups nested in it: only name and
    emoji of the two parents are selected. *)
Definition parentRows (rows : list Collect.Item) (cs : list Collect.Combination)
    (name : string) : list (Item * Item) :=
  flat_map
    (fun c =>
       if String.eqb (Collect.resultItem c) name then
         flat_map
           (fun a =>
              if String.eqb (Collect.firstItem c) (Collect.name a) then
                flat_map
                  (fun b =>
                     if String.eqb (Collect.secondItem c) (Collect.name b) then
                       [(mkItem (Collect.name a) (Collect.emoji a) false,
                         mkItem (Collect.name b) (Collect.emoji b) false)]
                     else [])
                  rows
              else [])
           rows
       else [])
    cs.

(** [getCombinations]: the lines it logs and what it returns. *)
Definition getCombinations (st : Collect.Store) (item : Item)
  : list Act * (option (list Combination) * option dbError) :=
  if storeFails (QParents (Name item)) then ([], (None, Some ErrIO))
  else
    match Collect.items st, Collect.combinations st with
    | Some rows, Some cs =>
        let combinations :=
          map (fun p => mkCombination (fst p) (snd p) item)
            (parentRows rows cs (Name item)) in
        (map (fun _ => Logf "Combination: %v" []) combinations,
         (Some combinations, None))
    | _, _ => ([], (None, Some ErrNoSuchTable))
    end.

Definition limit : Z := 1000.

(** [searchItems]: the items, whether the limit was reached, the error. *)
Definition searchItems (st : Collect.Store) (query : string)
  : list Item * bool * option dbError :=
  let pattern := String.append "%" (String.append query "%") in
  if storeFails (QSearch pattern limit) then ([], false, Some ErrIO)
  else
    match Collect.items st with
    | None => ([], false, Some ErrNoSuchTable)
    | Some rows =>
        let found :=
          take (Z.to_nat limit)
            (filter (fun r => like pattern (Collect.name r) = true) rows) in
        let items := map scan found in
        (items, Z.of_nat (length items) =? limit, None)
    end.

Definition getTotalItemCount (st : Collect.Store) : Z * option dbError :=
  if storeFails QCount then (0, Some ErrIO)
  else
    match Collect.items st with
    | None => (0, Some ErrNoSuchTable)
    | Some rows => (Z.of_nat (length rows), None)
    end.

Definition serveStartPage (st : Collect.Store) : list Act :=
  let '(totalItems, _) := getTotalItemCount st in
  Logf "Serving start page" []
  :: match render "start.html" (StartPage "Infinite Craft Search" totalItems "" false) with
     | Some body => [WriteBody body]
     | None => [HttpError None 500]
     end.

Definition handleItemCount (st : Collect.Store) : list Act :=
  match getTotalItemCount st with
  | (_, Some _) => [HttpError (Some "Failed to get item count") 500]
  | (count, None) => [WriteInt count]
  end.

(** [handleItem], with [name] the path value of the request. *)
Definition handleItem (st : Collect.Store) (name : string) : list Act :=
  match getItem st name with
  | (_, Some _) =>
      [Logf "Error fetching item: %v" []; HttpError (Some "Internal Server Error") 500]
  | (None, None) =>
      [Logf "Item not found: %s" [name]; HttpError (Some "Not Found") 404]
  | (Some item, None) =>
      match getCombinations st item with
      | (logs, (_, Some _)) =>
          logs ++ [Logf "Error fetching combinations: %v" [];
                   HttpError (Some "Internal Server Error") 500]
      | (logs, (None, None)) =>
          logs ++
          match render "item.html" (ItemPage item []) with
          | None => [Logf "Error executing template: %v" [];
                     HttpError (Some "Internal Server Error") 500]
          | Some itemHTML =>
              let '(totalItems, _) := getTotalItemCount st in
              match render "start.html"
                      (StartPage (String.append (Name item) " | Infinite Craft Search")
                         totalItems itemHTML true) with
              | Some body => [WriteBody body]
              | None => []
              end
          end
      | (logs, (Some combinations, None)) =>
          logs ++
          match render "item.html" (ItemPage item combinations) with
          | None => [Logf "Error executing template: %v" [];
                     HttpError (Some "Internal Server Error") 500]
          | Some itemHTML =>
              let '(totalItems, _) := getTotalItemCount st in
              match render "start.html"
                      (StartPage (String.append (Name item) " | Infinite Craft Search")
                         totalItems itemHTML true) with
              | Some body => [WriteBody body]
              | None => []
              end
          end
      end
  end.

(** ** Properties of the front end *)

Lemma find_upsertRow n e b rows :
  find (fun r => String.eqb (Collect.name r) n) (Collect.upsertRow n e b rows)
  = Some (Collect.mkItem n e b).
Proof.
  induction rows as [|r rows IH]; simpl.
  - by rewrite String.eqb_refl.
  - destruct (String.eqb (Collect.name r) n) eqn:E; simpl; rewrite E; [|done].
    apply String.eqb_eq in E. by rewrite E.
Qed.

Lemma find_upsertRow_other n e b n' rows :
  n' <> n ->
  find (fun r => String.eqb (Collect.name r) n') (Collect.upsertRow n e b rows)
  = find (fun r => String.eqb (Collect.name r) n') rows.
Proof.
  intros Hne. induction rows as [|r rows IH]; simpl.
  - apply String.eqb_neq in Hne. rewrite String.eqb_sym in Hne. by rewrite Hne.
  - destruct (String.eqb (Collect.name r) n) eqn:E; simpl.
    + apply String.eqb_eq in E.
      assert (Hn : String.eqb (Collect.name r) n' = false)
        by (apply String.eqb_neq; congruence).
      by rewrite Hn.
    + by rewrite IH.
Qed.

Lemma find_absent n rows :
  Collect.hasItem n rows = false ->
  find (fun r => String.eqb (Collect.name r) n) rows = None.
Proof.
  induction rows as [|r rows IH]; simpl; [done|].
  destruct (String.eqb (Collect.name r) n); simpl; [done|auto].
Qed.

Variable envFault : nat -> bool.
Variable envHttp : nat -> string -> string -> Collect.HttpResult.

(** X12: what the engine upserts, the item page finds.  After
    [insertOrUpdateItem] has returned, [getItem] for that name returns
    the item with the emoji and the isNew flag just written, and for
    every other name what it returned before. *)
Theorem item_roundtrip (n e : string) (b : bool) (w w1 : Collect.World) :
  Collect.insertOrUpdateItem envFault n e b w = (Collect.Ret tt, w1) ->
  (storeFails (QItem n) = false ->
   getItem (Collect.db w1) n = (Some (mkItem n e b), None))
  /\ (forall n', n' <> n -> getItem (Collect.db w1) n' = getItem (Collect.db w) n').
Proof.
  intros Hrun.
  apply Collect.insertOrUpdateItem_returns in Hrun
    as (m & rows & _ & Hi & _ & Hdb & _).
  unfold getItem. rewrite Hdb, Hi. cbn [Collect.items]. split.
  - intros ->. by rewrite find_upsertRow.
  - intros n' Hne. by rewrite find_upsertRow_other.
Qed.

Definition is404 (a : Act) : bool :=
  match a with
  | HttpError _ code => code =? 404
  | _ => false
  end.

Lemma handleItem_acts st name :
  forallb (fun a => negb (is404 a)) (handleItem st name) = true.
Proof.
  unfold handleItem.
  assert (Hget : forall it, getItem st name <> (it, None) \/ it <> None).
  { intros [it|]; [by right|left]. unfold getItem.
    destruct (storeFails _); [done|]. destruct (Collect.items st); [|done].
    destruct (find _ _); done. }
  destruct (getItem st name) as [[item|] [err|]] eqn:Hg; try done.
  2: { destruct (Hget None); done. }
  assert (Hlogs : forall l : list Combination,
             forallb (fun a => negb (is404 a))
               (map (fun _ => Logf "Combination: %v" []) l) = true)
    by (induction l; simpl; auto).
  unfold getCombinations. destruct (storeFails _); [done|].
  destruct (Collect.items st) as [rows|]; [|done].
  destruct (Collect.combinations st) as [cs|]; [|done].
  rewrite forallb_app, Hlogs. simpl.
  destruct (render "item.html" _); [|done].
  destruct (getTotalItemCount st) as [total ?].
  destruct (render "start.html" _); done.
Qed.

(** X13: the item page never answers 404.  [getItem] returns an error,
    not a nil item, when no row has the name, so the Not Found branch
    of [handleItem] cannot be taken: for a name without a row the
    answer is 500 Internal Server Error, and no call of [handleItem]
    sends a 404. *)
Theorem handleItem_never_404 (st : Collect.Store) (name : string) :
  (forall msg, HttpError msg 404 ∉ handleItem st name)
  /\ (forall rows,
        Collect.items st = Some rows -> Collect.hasItem name rows = false ->
        handleItem st name
        = [Logf "Error fetching item: %v" [];
           HttpError (Some "Internal Server Error") 500]).
Proof.
  split.
  - intros msg Hin. pose proof (handleItem_acts st name) as H.
    rewrite forallb_forall in H. apply list_elem_of_In in Hin.
    specialize (H _ Hin). done.
  - intros rows Hi Hno. unfold handleItem, getItem. rewrite Hi.
    destruct (storeFails _); [done|]. by rewrite find_absent.
Qed.

(** The emoji under which the items table knows a name. *)
Definition emojiOf (rows : list Collect.Item) (n : string) : string :=
  match find (fun r => String.eqb (Collect.name r) n) rows with
  | Some r => Collect.emoji r
  | None => ""
  end.

Definition parentsOf (rows : list Collect.Item) (c : Collect.Combination) : Item * Item :=
  (mkItem (Collect.firstItem c) (emojiOf rows (Collect.firstItem c)) false,
   mkItem (Collect.secondItem c) (emojiOf rows (Collect.secondItem c)) false).

Lemma lookup_none {A} x (g : Collect.Item -> list A) rows :
  Collect.hasItem x rows = false ->
  flat_map (fun a => if String.eqb x (Collect.name a) then g a else []) rows = [].
Proof.
  induction rows as [|r rows IH]; simpl; [done|].
  rewrite (String.eqb_sym x). destruct (String.eqb (Collect.name r) x); simpl; [done|auto].
Qed.

Lemma lookup_unique {A} x (g : Collect.Item -> list A) rows :
  NoDup (map Collect.name rows) ->
  Collect.hasItem x rows = true ->
  exists a,
    find (fun r => String.eqb (Collect.name r) x) rows = Some a
    /\ Collect.name a = x
    /\ flat_map (fun a => if String.eqb x (Collect.name a) then g a else []) rows = g a.
Proof.
  induction rows as [|r rows IH]; simpl; [done|].
  intros [Hr Hnd]%NoDup_cons. rewrite (String.eqb_sym x).
  destruct (String.eqb (Collect.name r) x) eqn:E; simpl.
  - intros _. apply String.eqb_eq in E. exists r. repeat split; [done|].
    rewrite lookup_none, app_nil_r; [done|].
    apply Collect.hasItem_not_in. by rewrite <- E.
  - intros H. destruct (IH Hnd H) as (a & Hfind & Hname & Hflat). eauto.
Qed.

Lemma parentRows_ok rows cs name :
  NoDup (map Collect.name rows) ->
  Forall
    (fun c =>
       Collect.hasItem (Collect.firstItem c) rows = true
       /\ Collect.hasItem (Collect.secondItem c) rows = true
       /\ Collect.hasItem (Collect.resultItem c) rows = true)
    cs ->
  parentRows rows cs name
  = map (parentsOf rows) (filter (fun c => Collect.resultItem c = name) cs).
Proof.
  intros Hnd Hf. induction Hf as [|c cs (H1 & H2 & _) Hf IH]; [done|].
  cbn [parentRows flat_map]. fold (parentRows rows cs name). rewrite IH.
  destruct (String.eqb (Collect.resultItem c) name) eqn:E.
  - apply String.eqb_eq in E. rewrite filter_cons_True by done. simpl. f_equal.
    destruct (lookup_unique (Collect.firstItem c)
                (fun a =>
                   flat_map
                     (fun b =>
                        if String.eqb (Collect.secondItem c) (Collect.name b) then
                          [(mkItem (Collect.name a) (Collect.emoji a) false,
                            mkItem (Collect.name b) (Collect.emoji b) false)]
                        else [])
                     rows)
                rows Hnd H1) as (a & Ha & Hna & ->).
    destruct (lookup_unique (Collect.secondItem c)
                (fun b =>
                   [(mkItem (Collect.name a) (Collect.emoji a) false,
                     mkItem (Collect.name b) (Collect.emoji b) false)])
                rows Hnd H2) as (b & Hb & Hnb & ->).
    unfold parentsOf, emojiOf. by rewrite Ha, Hb, Hna, Hnb.
  - apply String.eqb_neq in E. by rewrite filter_cons_False.
Qed.

Lemma emojiOf_entry rows n :
  Collect.hasItem n rows = true -> Collect.hasEntry n (emojiOf rows n) rows = true.
Proof.
  unfold emojiOf. induction rows as [|r rows IH]; simpl; [done|].
  destruct (String.eqb (Collect.name r) n) eqn:E; simpl.
  - intros _. by rewrite String.eqb_refl.
  - intros H. exact (IH H).
Qed.

(** X14: the recipes of an item.  On a store that satisfies its schema,
    [getCombinations] returns one combination for every row of the
    combinations table whose result is the item, with the names of that
    row's two parents; each parent carries the emoji of its own item row
    and is never marked as new, whatever its row says; the result of
    each is the item asked for; and one line is logged per
    combination. *)
Theorem recipes_listed (st : Collect.Store) (item : Item)
    (rows : list Collect.Item) (cs : list Collect.Combination) :
  Collect.items st = Some rows -> Collect.combinations st = Some cs ->
  Collect.storeOk st ->
  storeFails (QParents (Name item)) = false ->
  exists l,
    getCombinations st item
    = (map (fun _ => Logf "Combination: %v" []) l, (Some l, None))
    /\ map (fun c => (Name (Item1 c), Name (Item2 c))) l
       ≡ₚ map Collect.pairOf (filter (fun c => Collect.resultItem c = Name item) cs)
    /\ Forall
         (fun c =>
            Result c = item
            /\ IsNew (Item1 c) = false /\ IsNew (Item2 c) = false
            /\ Collect.hasEntry (Name (Item1 c)) (Emoji (Item1 c)) rows = true
            /\ Collect.hasEntry (Name (Item2 c)) (Emoji (Item2 c)) rows = true)
         l.
Proof.
  intros Hi Hcs Hok Hnf. unfold Collect.storeOk in Hok. rewrite Hi, Hcs in Hok.
  destruct Hok as (Hnd & _ & Hrefs).
  unfold getCombinations. rewrite Hnf, Hi, Hcs. cbv zeta.
  rewrite (parentRows_ok rows cs (Name item) Hnd Hrefs).
  eexists. split; [reflexivity|]. split.
  - by rewrite !map_map.
  - apply Forall_fmap, Forall_fmap, Forall_forall. intros row Hrow.
    apply list_elem_of_filter in Hrow as [_ Hrow].
    destruct (proj1 (Forall_forall _ _) Hrefs row Hrow) as (H1 & H2 & _).
    cbn. repeat split; by apply emojiOf_entry.
Qed.

(** X15: a discovery shows on the page of its result.  When the engine,
    in a state where the store is in order and the cache is backed by
    it, has combined two cached names and [combineElements] has
    returned, [getCombinations] for the result lists the pair among its
    recipes. *)
Theorem discovery_is_listed (fuel : nat) (f s : string) (w w' : Collect.World)
    (m : gmap string string) :
  Collect.wellFormed w ->
  Collect.localItemsCache w = Some m -> f ∈ dom m -> s ∈ dom m ->
  Collect.combineElements envHttp envFault fuel f s w = (Collect.Ret tt, w') ->
  exists resp l,
    fst (Collect.callApi envHttp fuel f s w) = Collect.Ret (Collect.Ok resp)
    /\ (storeFails (QParents (Collect.Result resp)) = false ->
        snd (getCombinations (Collect.db w')
               (mkItem (Collect.Result resp) (Collect.Emoji resp) (Collect.IsNew resp)))
        = (Some l, None)
        /\ (f, s) ∈ map (fun c => (Name (Item1 c), Name (Item2 c))) l).
Proof.
  intros Hwf Hm Hf Hs Hrun.
  destruct (Collect.combineElements_keeps envHttp envFault fuel f s w (Collect.Ret tt) w' Hwf)
    as [Hok _];
    [by exists m|exact Hrun|].
  apply Collect.combineElements_returns in Hrun
    as (resp & m' & rows & cs & Hcall & _ & Hi & Hcs & _ & _ & Hdb').
  set (item := mkItem (Collect.Result resp) (Collect.Emoji resp) (Collect.IsNew resp)).
  set (rows' := Collect.upsertRow _ _ _ rows) in *.
  set (cs' := cs ++ _) in *.
  unfold Collect.storeOk in Hok. rewrite Hdb' in Hok |- *.
  cbn [Collect.items Collect.combinations] in Hok.
  destruct Hok as (Hnd & _ & Hrefs).
  exists resp, (map (fun p => mkCombination (fst p) (snd p) item)
                  (parentRows rows' cs' (Name item))).
  split; [done|]. intros Hnf. unfold getCombinations.
  cbn [Name]. rewrite Hnf.
  cbn [Collect.items Collect.combinations snd]. split; [done|].
  rewrite (parentRows_ok rows' cs' (Name item) Hnd Hrefs), !map_map. cbn.
  apply list_elem_of_fmap.
  exists (Collect.mkCombination f s (Collect.Result resp)).
  split; [done|]. apply list_elem_of_filter. split; [done|].
  subst cs'. apply elem_of_app. right. by left.
Qed.

Lemma take_all {A} n (l : list A) : (length l <= n)%nat -> take n l = l.
Proof. intros H. by apply take_ge. Qed.

(** X16: the search limit.  [searchItems] returns rows of the items
    table whose name matches the pattern made of the query between two
    percent signs, as many as there are matches but no more than 1000;
    it returns every match when there are at most 1000; and it reports
    the result as limited exactly when there are 1000 matches or more,
    so also when there are exactly 1000 and none was left out. *)
Theorem search_limit (st : Collect.Store) (query : string) (rows : list Collect.Item) :
  Collect.items st = Some rows ->
  let pattern := String.append "%" (String.append query "%") in
  let matches := filter (fun r => like pattern (Collect.name r) = true) rows in
  storeFails (QSearch pattern 1000) = false ->
  exists items limited,
    searchItems st query = (items, limited, None)
    /\ items ⊆ map scan matches
    /\ length items = Nat.min 1000 (length matches)
    /\ (limited = true <-> (1000 <= length matches)%nat)
    /\ ((length matches <= 1000)%nat -> items ≡ₚ map scan matches).
Proof.
  intros Hi pattern matches Hnf. unfold searchItems. fold pattern.
  change limit with 1000. rewrite Hnf, Hi. fold matches.
  change (Z.to_nat 1000) with 1000%nat.
  eexists. eexists. split; [reflexivity|]. split.
  { intros x (r & -> & Hr)%list_elem_of_fmap. apply list_elem_of_fmap.
    exists r. split; [done|]. eapply subseteq_take, Hr. }
  rewrite length_map, length_take. split; [done|]. split.
  - rewrite Z.eqb_eq. lia.
  - intros H. by rewrite take_all.
Qed.

Lemma length_upsertRow n e b rows :
  length (Collect.upsertRow n e b rows)
  = (length rows + if Collect.hasItem n rows then 0 else 1)%nat.
Proof.
  induction rows as [|r rows IH]; simpl; [done|].
  destruct (String.eqb (Collect.name r) n); simpl; [lia|]. rewrite IH. lia.
Qed.

(** X17: the item count follows the engine.  After [insertOrUpdateItem]
    has returned, the count handler writes the number of rows the table
    had before, plus one when the name was new to the table and the
    same number when it was an update. *)
Theorem count_after_upsert (n e : string) (b : bool) (w w1 : Collect.World)
    (rows : list Collect.Item) :
  Collect.insertOrUpdateItem envFault n e b w = (Collect.Ret tt, w1) ->
  Collect.items (Collect.db w) = Some rows ->
  storeFails QCount = false ->
  handleItemCount (Collect.db w1)
  = [WriteInt (Z.of_nat (length rows) + if Collect.hasItem n rows then 0 else 1)].
Proof.
  intros Hrun Hi Hnf.
  apply Collect.insertOrUpdateItem_returns in Hrun
    as (m & rows' & _ & Hi' & _ & Hdb & _).
  assert (rows' = rows) as -> by congruence.
  unfold handleItemCount, getTotalItemCount. rewrite Hnf, Hdb.
  cbn [Collect.items]. rewrite length_upsertRow.
  destruct (Collect.hasItem n rows); do 2 f_equal; lia.
Qed.

End Handlers.


(** ** The properties of the front end on concrete stores *)

(** A database that answers every query. *)
Definition noFail (q : Query) : bool := false.

(** A case-sensitive stand-in for LIKE on the patterns [searchItems]
    builds: the value contains what stands between the two percent
    signs. *)
Definition containsLike (pattern value : string) : bool :=
  match String.index 0 (String.substring 1 (String.length pattern - 2) pattern) value with
  | Some _ => true
  | None => false
  end.

(** Templates that always render. *)
Definition plainRender (template : string) (data : PageData) : option string :=
  Some template.

Lemma exploredWorld_storeOk : Collect.storeOk (Collect.db Collect.exploredWorld).
Proof.
  unfold Collect.storeOk. cbn [Collect.db Collect.exploredWorld Collect.items
                                 Collect.combinations].
  split; [|split].
  - apply (bool_decide_unpack _). vm_compute. exact I.
  - apply (bool_decide_unpack _). vm_compute. exact I.
  - repeat constructor.
Qed.

Lemma item_roundtrip_witness :
  let w1 := snd (Collect.insertOrUpdateItem Collect.noFault "Steam" "s" true
                   Collect.seededWorld) in
  getItem noFail (Collect.db w1) "Steam" = (Some (mkItem "Steam" "s" true), None)
  /\ getItem noFail (Collect.db w1) "Water"
     = getItem noFail (Collect.db Collect.seededWorld) "Water".
Proof.
  intros w1.
  destruct (item_roundtrip noFail Collect.noFault "Steam" "s" true
              Collect.seededWorld w1) as [H1 H2].
  - vm_compute. reflexivity.
  - split; [apply H1; reflexivity|apply H2; discriminate].
Defined.

Lemma handleItem_never_404_witness :
  handleItem noFail plainRender (Collect.db Collect.seededWorld) "Steam"
  = [Logf "Error fetching item: %v" [];
     HttpError (Some "Internal Server Error") 500]
  /\ HttpError (Some "Not Found") 404
     ∉ handleItem noFail plainRender (Collect.db Collect.exploredWorld) "Steam".
Proof.
  split.
  - destruct (handleItem_never_404 noFail plainRender (Collect.db Collect.seededWorld)
                "Steam") as [_ H].
    apply (H Collect.seedRows); vm_compute; reflexivity.
  - destruct (handleItem_never_404 noFail plainRender (Collect.db Collect.exploredWorld)
                "Steam") as [H _].
    apply H.
Defined.

Lemma recipes_listed_witness :
  exists l,
    snd (getCombinations noFail (Collect.db Collect.exploredWorld)
           (mkItem "Steam" "s" true)) = (Some l, None)
    /\ map (fun c => (Name (Item1 c), Name (Item2 c))) l
       ≡ₚ [("Water", "Fire"); ("Fire", "Water")]
    /\ Forall (fun c => IsNew (Item1 c) = false /\ IsNew (Item2 c) = false) l.
Proof.
  destruct (recipes_listed noFail (Collect.db Collect.exploredWorld)
              (mkItem "Steam" "s" true) _ _ eq_refl eq_refl exploredWorld_storeOk eq_refl)
    as (l & Hrun & Hnames & Hall).
  exists l. split; [by rewrite Hrun|]. split; [exact Hnames|].
  eapply Forall_impl; [exact Hall|]. intros c (_ & H1 & H2 & _). by split.
Defined.

Lemma discovery_is_listed_witness :
  let w' :=
    snd (Collect.combineElements (Collect.throttledTimes 0 None) Collect.noFault 3
           "Water" "Fire" Collect.seededWorld) in
  exists l,
    snd (getCombinations noFail (Collect.db w') (mkItem "Steam" "💨" true))
    = (Some l, None)
    /\ ("Water", "Fire") ∈ map (fun c => (Name (Item1 c), Name (Item2 c))) l.
Proof.
  intros w'.
  destruct (discovery_is_listed noFail Collect.noFault (Collect.throttledTimes 0 None) 3
              "Water" "Fire" Collect.seededWorld w' _
              Collect.seededWorld_wellFormed eq_refl)
    as (resp & l & Hcall & H).
  - apply elem_of_dom. eexists. vm_compute. reflexivity.
  - apply elem_of_dom. eexists. vm_compute. reflexivity.
  - vm_compute. reflexivity.
  - vm_compute in Hcall. injection Hcall as <-.
    exists l. apply H. reflexivity.
Defined.

Lemma search_limit_witness :
  exists items,
    searchItems noFail containsLike (Collect.db Collect.seededWorld) "W"
    = (items, false, None)
    /\ map Name items ≡ₚ ["Water"; "Wind"].
Proof.
  destruct (search_limit noFail containsLike (Collect.db Collect.seededWorld) "W"
              Collect.seedRows eq_refl eq_refl)
    as (items & limited & Hrun & _ & _ & Hlim & Hall).
  exists items. split.
  - rewrite Hrun. destruct limited; [|reflexivity].
    destruct Hlim as [Hlim _]. specialize (Hlim eq_refl).
    vm_compute in Hlim. lia.
  - rewrite Hall; [vm_compute; reflexivity|]. vm_compute. lia.
Defined.

Lemma count_after_upsert_witness :
  handleItemCount noFail
    (Collect.db (snd (Collect.insertOrUpdateItem Collect.noFault "Steam" "s" true
                        Collect.seededWorld)))
  = [WriteInt 5]
  /\ handleItemCount noFail
       (Collect.db (snd (Collect.insertOrUpdateItem Collect.noFault "Water" "w" false
                           Collect.seededWorld)))
     = [WriteInt 4].
Proof.
  split.
  - apply (count_after_upsert noFail Collect.noFault "Steam" "s" true Collect.seededWorld
             _ Collect.seedRows); vm_compute; reflexivity.
  - apply (count_after_upsert noFail Collect.noFault "Water" "w" false Collect.seededWorld
             _ Collect.seedRows); vm_compute; reflexivity.
Defined.

End Web.
